(** * Retro raster pipeline: quantizer, dithering, resolution scaling, export

    A shallow embedding of [src/utils/dithering.ts] and of the scheduling
    arithmetic of the [useVideoExport] hook.

    Conventions.
    - A [Uint8ClampedArray] is a [list Z]; indices, widths and heights are
      [nat].  A store converts its operand as the typed array does (clamp
      to 0..255, round half to even, NaN becomes 0); a store past the end
      is ignored, which is also what the list update does.
    - JavaScript numbers that are not integers (intensity, resolution, the
      diffusion errors of the [Float32Array] buffers, milliseconds) are
      exact rationals [Q]: binary rounding is idealised away.
    - The module-level [colorCache] is threaded explicitly through a small
      state monad; an association list in insertion order stands for the
      JavaScript [Map]. *)

From Stdlib Require Import ZArith QArith Qround Qminmax Lia Lqa Psatz.
From stdpp Require Import base option list.

(** ** Numbers *)

Module Num.

(** [x < y] on rationals, as a boolean. *)
Definition Qltb (x y : Q) : bool :=
  (Qnum x * Zpos (Qden y) <? Qnum y * Zpos (Qden x))%Z.

(** [Math.floor]. *)
Definition Math_floor (x : Q) : Z := Qfloor x.

(** [Math.round]: nearest integer, halves towards plus infinity. *)
Definition Math_round (x : Q) : Z := Qfloor (x + (1 # 2)).

(** [Math.max(0, Math.min(255, v))]. *)
Definition clamp255 (v : Q) : Q := Qmax 0 (Qmin 255 v).

(** [v | 0]: truncation towards zero (the operands met here are within
    the 32-bit range, so no wrap-around is written out). *)
Definition bitor0 (v : Q) : Z := Z.quot (Qnum v) (Zpos (Qden v)).

(** Conversion of a number stored into a [Uint8ClampedArray]: clamp, then
    round to nearest with ties to even. *)
Definition toUint8Clamp (v : Q) : Z :=
  let c := clamp255 v in
  let f := Qfloor c in
  let half := (inject_Z f + (1 # 2))%Q in
  if Qltb half c then (f + 1)%Z
  else if Qltb c half then f
  else if Z.even f then f else (f + 1)%Z.

(** The same conversion for an operand that is already an integer. *)
Definition storeByte (v : Z) : Z := Z.max 0 (Z.min 255 v).

Definition isByte (v : Z) : Prop := (0 <= v <= 255)%Z.

End Num.
Export Num.

(** ** The colour cache: a [Map<number, [number, number, number]>] *)

Definition Color : Type := Z * Z * Z.
Abbreviation Palette := (list Color).
Abbreviation Cache := (list (Z * Color)).

Definition MAX_CACHE_SIZE : Z := 8192.

Module ColorCache.

(** [colorCache.get(key)], [None] when [has(key)] is false. *)
Fixpoint get (c : Cache) (k : Z) : option Color :=
  match c with
  | [] => None
  | (k', v) :: t => if (k' =? k)%Z then Some v else get t k
  end.

(** [colorCache.set(key, v)]: an existing key keeps its place, a new key
    goes last. *)
Fixpoint set (c : Cache) (k : Z) (v : Color) : Cache :=
  match c with
  | [] => [(k, v)]
  | (k', v') :: t =>
      if (k' =? k)%Z then (k, v) :: t else (k', v') :: set t k v
  end.

(** [colorCache.delete(key)]. *)
Fixpoint delete (c : Cache) (k : Z) : Cache :=
  match c with
  | [] => []
  | (k', v) :: t => if (k' =? k)%Z then t else (k', v) :: delete t k
  end.

(** [colorCache.keys().next().value]. *)
Definition firstKey (c : Cache) : option Z := fst <$> head c.

(** [colorCache.size]. *)
Definition size (c : Cache) : Z := Z.of_nat (length c).

End ColorCache.

(** ** Computations over the cache *)

Inductive Outcome (A : Type) : Type :=
| Done (a : A) (c : Cache)
| TypeError
| OutOfFuel.
Arguments Done {A} a c.
Arguments TypeError {A}.
Arguments OutOfFuel {A}.

Definition M (A : Type) : Type := Cache -> Outcome A.

Definition ret {A} (a : A) : M A := fun c => Done a c.

Definition bind {A B} (m : M A) (f : A -> M B) : M B :=
  fun c => match m c with
           | Done a c' => f a c'
           | TypeError => TypeError
           | OutOfFuel => OutOfFuel
           end.

Notation "x <- m ;; k" := (bind m (fun x => k))
  (at level 100, m at next level, right associativity).

(** [for (const i of xs) acc = body(acc, i)] with the cache threaded. *)
Fixpoint forM {A I} (xs : list I) (body : A -> I -> M A) (acc : A) : M A :=
  match xs with
  | [] => ret acc
  | i :: rest => acc' <- body acc i ;; forM rest body acc'
  end.

(** ** [findNearestColor] *)

(** [(r << 16) | (g << 8) | b]. *)
Definition cacheKey (r g b : Z) : Z :=
  Z.lor (Z.lor (Z.shiftl r 16) (Z.shiftl g 8)) b.

Definition sqDist (r g b : Z) (p : Color) : Z :=
  let '(pr, pg, pb) := p in
  let dr := (r - pr)%Z in
  let dg := (g - pg)%Z in
  let db := (b - pb)%Z in
  (dr * dr + dg * dg + db * db)%Z.

(** [dist < minDist], where [None] is [Infinity]. *)
Definition ltMin (dist : Z) (minDist : option Z) : bool :=
  match minDist with
  | None => true
  | Some m => (dist <? m)%Z
  end.

(** The linear scan; [nearest] is [None] while it is [undefined]. *)
Fixpoint scanPalette (r g b : Z) (palette : Palette)
    (minDist : option Z) (nearest : option Color) : option Color :=
  match palette with
  | [] => nearest
  | p :: rest =>
      let dist := sqDist r g b p in
      if ltMin dist minDist
      then scanPalette r g b rest (Some dist) (Some p)
      else scanPalette r g b rest minDist nearest
  end.

(** On an empty palette the scan leaves [undefined], which every caller
    in this file destructures at once: that [TypeError] is raised here. *)
Definition findNearestColor (r g b : Z) (palette : Palette) : M Color :=
  fun cache =>
    let key := cacheKey r g b in
    match ColorCache.get cache key with
    | Some v => Done v cache
    | None =>
        match scanPalette r g b palette None (head palette) with
        | None => TypeError
        | Some nearest =>
            let cache1 :=
              if (MAX_CACHE_SIZE <=? ColorCache.size cache)%Z
              then match ColorCache.firstKey cache with
                   | Some firstKey => ColorCache.delete cache firstKey
                   | None => cache
                   end
              else cache in
            Done nearest (ColorCache.set cache1 key nearest)
        end
    end.

(** ** Typed arrays *)

(** [data[i]] read as a number; past the end the arithmetic that follows
    sees [undefined], which stores as 0. *)
Definition rd (data : list Z) (i : nat) : Z := default 0%Z (data !! i).

(** [errorBuffer[i]]. *)
Definition rdQ (errorBuffer : list Q) (i : nat) : Q :=
  default 0%Q (errorBuffer !! i).

(** [errorBuffer[i] += v]. *)
Definition addAt (errorBuffer : list Q) (i : nat) (v : Q) : list Q :=
  match errorBuffer !! i with
  | Some e => <[i := (e + v)%Q]> errorBuffer
  | None => errorBuffer
  end.

(** [data[idx] = pr; data[idx + 1] = pg; data[idx + 2] = pb]. *)
Definition putRGB (data : list Z) (idx : nat) (c : Color) : list Z :=
  let '(pr, pg, pb) := c in
  <[idx + 2 := storeByte pb]>
    (<[idx + 1 := storeByte pg]> (<[idx := storeByte pr]> data)).

(** ** Ordered dithering *)

Inductive DitherKind : Type :=
| bayer | floydSteinberg | jjn | stucki | sierra.

Definition bayerMatrix8x8 : list (list Z) :=
  [ [0; 32; 8; 40; 2; 34; 10; 42];
    [48; 16; 56; 24; 50; 18; 58; 26];
    [12; 44; 4; 36; 14; 46; 6; 38];
    [60; 28; 52; 20; 62; 30; 54; 22];
    [3; 35; 11; 43; 1; 33; 9; 41];
    [51; 19; 59; 27; 49; 17; 57; 25];
    [15; 47; 7; 39; 13; 45; 5; 37];
    [63; 31; 55; 23; 61; 29; 53; 21] ]%Z.

(** [matrix[my][mx]]. *)
Definition matrixAt (my mx : nat) : Z :=
  default 0%Z (row ← bayerMatrix8x8 !! my; row !! mx).

(** One iteration of the loop of [applyBayerDithering], at [i = 4 * pixelIndex]. *)
Definition bayerPixel (width : nat) (palette : Palette) (ditherScale : Q)
    (data : list Z) (pixelIndex : nat) : M (list Z) :=
  let i := 4 * pixelIndex in
  let x := pixelIndex mod width in
  let y := pixelIndex / width in
  let mx := Nat.land x 7 in
  let my := Nat.land y 7 in
  let dither := (inject_Z (matrixAt my mx - 32) * ditherScale)%Q in
  let data :=
    <[i := storeByte (bitor0 (clamp255 (inject_Z (rd data i) + dither)))]> data in
  let data :=
    <[i + 1 := storeByte (bitor0 (clamp255 (inject_Z (rd data (i + 1)) + dither)))]> data in
  let data :=
    <[i + 2 := storeByte (bitor0 (clamp255 (inject_Z (rd data (i + 2)) + dither)))]> data in
  c <- findNearestColor (rd data i) (rd data (i + 1)) (rd data (i + 2)) palette ;;
  ret (putRGB data i c).

(** [applyBayerDithering] past its resolution guard:
    [for (let i = 0; i < data.length; i += 4)]. *)
Definition bayerPass (data : list Z) (width height : nat) (palette : Palette)
    (intensity : Q) : M (list Z) :=
  let ditherScale := (255 * intensity / 64)%Q in
  forM (seq 0 ((length data + 3) / 4)) (bayerPixel width palette ditherScale) data.

(** ** Error diffusion *)

(** What differs between the four error-diffusion functions.  A tap
    [(i, w)] stands for the three statements
    [errorBuffer[i] += errR * w; errorBuffer[i + 1] += errG * w;
     errorBuffer[i + 2] += errB * w]. *)
Record Kernel : Type := {
  padding : nat;                 (* a buffer row holds [width + padding] pixels *)
  origin : nat;                  (* pixel [x] owns slot [x + origin] of its row *)
  rowsHeld : nat;                (* rows in the [Float32Array] *)
  divisor : Z;
  nextRowOf : nat -> nat;
  nextNextRowOf : nat -> nat;
  clearsNextNext : bool;         (* is the row after next zeroed as well? *)
  taps : nat -> nat -> nat -> nat -> nat -> nat -> nat -> list (nat * Z)
    (* x y width height errIdx nextBufStart nextNextBufStart *)
}.

Definition tapIf (cond : bool) (i : nat) (w : Z) : list (nat * Z) :=
  if cond then [(i, w)] else [].

(** The subtractions [width - 1], [height - 2], ... are on [nat]: [x] and
    [y] are never negative, so the truncation at 0 changes no test. *)
Definition fsTaps (x y width height errIdx nextBufStart _nn : nat) : list (nat * Z) :=
  tapIf (x <? width - 1) (errIdx + 3) 7
  ++ tapIf (y <? height - 1) (nextBufStart + x * 3) 3
  ++ tapIf (y <? height - 1) (nextBufStart + (x + 1) * 3) 5
  ++ tapIf ((y <? height - 1) && (x <? width - 1)) (nextBufStart + (x + 2) * 3) 1.

Definition jjnTaps (x y width height errIdx nextBufStart nextNextBufStart : nat)
    : list (nat * Z) :=
  tapIf (x <? width - 1) (errIdx + 3) 7
  ++ tapIf (x <? width - 2) (errIdx + 6) 5
  ++ (if y <? height - 1 then
        tapIf (0 <? x) (nextBufStart + (x + 2) * 3) 3
        ++ [(nextBufStart + (x + 3) * 3, 5%Z)]
        ++ tapIf (x <? width - 1) (nextBufStart + (x + 4) * 3) 7
        ++ tapIf (x <? width - 2) (nextBufStart + (x + 5) * 3) 5
        ++ tapIf (0 <? x) (nextBufStart + (x + 1) * 3) 3
      else [])
  ++ (if y <? height - 2 then
        tapIf (0 <? x) (nextNextBufStart + (x + 2) * 3) 1
        ++ [(nextNextBufStart + (x + 3) * 3, 3%Z)]
        ++ tapIf (x <? width - 1) (nextNextBufStart + (x + 4) * 3) 5
        ++ tapIf (x <? width - 2) (nextNextBufStart + (x + 5) * 3) 3
        ++ tapIf (0 <? x) (nextNextBufStart + (x + 1) * 3) 1
      else []).

Definition stuckiTaps (x y width height errIdx nextBufStart _nn : nat) : list (nat * Z) :=
  tapIf (x <? width - 1) (errIdx + 3) 8
  ++ tapIf (x <? width - 2) (errIdx + 6) 4
  ++ (if y <? height - 1 then
        tapIf (0 <? x) (nextBufStart + (x + 1) * 3) 2
        ++ [(nextBufStart + (x + 2) * 3, 4%Z)]
        ++ tapIf (x <? width - 1) (nextBufStart + (x + 3) * 3) 8
        ++ tapIf (x <? width - 2) (nextBufStart + (x + 4) * 3) 4
        ++ tapIf (x <? width - 3) (nextBufStart + (x + 5) * 3) 2
      else []).

Definition sierraTaps (x y width height errIdx nextBufStart _nn : nat) : list (nat * Z) :=
  tapIf (x <? width - 1) (errIdx + 3) 5
  ++ tapIf (x <? width - 2) (errIdx + 6) 3
  ++ (if y <? height - 1 then
        tapIf (0 <? x) (nextBufStart + (x + 1) * 3) 2
        ++ [(nextBufStart + (x + 2) * 3, 4%Z)]
        ++ tapIf (x <? width - 1) (nextBufStart + (x + 3) * 3) 5
        ++ tapIf (x <? width - 2) (nextBufStart + (x + 4) * 3) 4
        ++ tapIf (x <? width - 3) (nextBufStart + (x + 5) * 3) 2
      else []).

Definition fsKernel : Kernel :=
  {| padding := 2; origin := 1; rowsHeld := 2; divisor := 16;
     nextRowOf := fun currentRow => 1 - currentRow;
     nextNextRowOf := fun currentRow => currentRow;
     clearsNextNext := false; taps := fsTaps |}.

Definition jjnKernel : Kernel :=
  {| padding := 6; origin := 3; rowsHeld := 3; divisor := 48;
     nextRowOf := fun currentRow => (currentRow + 1) mod 3;
     nextNextRowOf := fun currentRow => (currentRow + 2) mod 3;
     clearsNextNext := true; taps := jjnTaps |}.

Definition stuckiKernel : Kernel :=
  {| padding := 4; origin := 2; rowsHeld := 2; divisor := 42;
     nextRowOf := fun currentRow => 1 - currentRow;
     nextNextRowOf := fun currentRow => currentRow;
     clearsNextNext := false; taps := stuckiTaps |}.

Definition sierraKernel : Kernel :=
  {| padding := 4; origin := 2; rowsHeld := 2; divisor := 32;
     nextRowOf := fun currentRow => 1 - currentRow;
     nextNextRowOf := fun currentRow => currentRow;
     clearsNextNext := false; taps := sierraTaps |}.

(** The statements of one tap. *)
Definition applyTap (errR errG errB : Q) (errorBuffer : list Q) (t : nat * Z) : list Q :=
  let '(i, w) := t in
  let errorBuffer := addAt errorBuffer i (errR * inject_Z w)%Q in
  let errorBuffer := addAt errorBuffer (i + 1) (errG * inject_Z w)%Q in
  addAt errorBuffer (i + 2) (errB * inject_Z w)%Q.

Definition diffuse (errorBuffer : list Q) (ts : list (nat * Z)) (errR errG errB : Q)
    : list Q :=
  fold_left (applyTap errR errG errB) ts errorBuffer.

(** [for (let i = start; i < start + len; i++) errorBuffer[i] = 0]. *)
Definition clearRow (errorBuffer : list Q) (start len : nat) : list Q :=
  fold_left (fun eb i => <[i := 0%Q]> eb) (seq start len) errorBuffer.

(** The body of the inner [for (let x = 0; x < width; x++)]. *)
Definition diffusionPixel (k : Kernel) (width height : nat) (palette : Palette)
    (intensity : Q) (y currentBufStart nextBufStart nextNextBufStart : nat)
    (st : list Z * list Q) (x : nat) : M (list Z * list Q) :=
  let '(data, errorBuffer) := st in
  let idx := (y * width + x) * 4 in
  let errIdx := currentBufStart + (x + origin k) * 3 in
  let r := clamp255 (inject_Z (rd data idx) + rdQ errorBuffer errIdx * intensity) in
  let g := clamp255 (inject_Z (rd data (idx + 1)) + rdQ errorBuffer (errIdx + 1) * intensity) in
  let b := clamp255 (inject_Z (rd data (idx + 2)) + rdQ errorBuffer (errIdx + 2) * intensity) in
  c <- findNearestColor (bitor0 r) (bitor0 g) (bitor0 b) palette ;;
  let '(pr, pg, pb) := c in
  let errR := ((r - inject_Z pr) / inject_Z (divisor k))%Q in
  let errG := ((g - inject_Z pg) / inject_Z (divisor k))%Q in
  let errB := ((b - inject_Z pb) / inject_Z (divisor k))%Q in
  let data := putRGB data idx c in
  let ts := taps k x y width height errIdx nextBufStart nextNextBufStart in
  ret (data, diffuse errorBuffer ts errR errG errB).

(** The body of the outer [for (let y = 0; y < height; y++)]. *)
Definition diffusionRow (k : Kernel) (width height : nat) (palette : Palette)
    (intensity : Q) (st : list Z * list Q * nat) (y : nat)
    : M (list Z * list Q * nat) :=
  let '(data, errorBuffer, currentRow) := st in
  let rowLen := (width + padding k) * 3 in
  let nextRow := nextRowOf k currentRow in
  let nextNextRow := nextNextRowOf k currentRow in
  let errorBuffer := clearRow errorBuffer (nextRow * rowLen) rowLen in
  let errorBuffer :=
    if clearsNextNext k
    then clearRow errorBuffer (nextNextRow * rowLen) rowLen
    else errorBuffer in
  let currentBufStart := currentRow * rowLen in
  let nextBufStart := nextRow * rowLen in
  let nextNextBufStart := nextNextRow * rowLen in
  st' <- forM (seq 0 width)
           (diffusionPixel k width height palette intensity y
              currentBufStart nextBufStart nextNextBufStart)
           (data, errorBuffer) ;;
  ret (st'.1, st'.2, nextRow).

(** An error-diffusion function past its resolution guard. *)
Definition diffusionPass (k : Kernel) (data : list Z) (width height : nat)
    (palette : Palette) (intensity : Q) : M (list Z) :=
  let errorBuffer := replicate ((width + padding k) * 3 * rowsHeld k) 0%Q in
  st <- forM (seq 0 height) (diffusionRow k width height palette intensity)
          (data, errorBuffer, 0) ;;
  ret st.1.1.

Definition kernelOf (type : DitherKind) : option Kernel :=
  match type with
  | bayer => None
  | floydSteinberg => Some fsKernel
  | jjn => Some jjnKernel
  | stucki => Some stuckiKernel
  | sierra => Some sierraKernel
  end.

(** The part of each entry point that follows [if (resolution < 1) {...}]. *)
Definition fullResolutionPass (type : DitherKind) (data : list Z)
    (width height : nat) (palette : Palette) (intensity : Q) : M (list Z) :=
  match kernelOf type with
  | None => bayerPass data width height palette intensity
  | Some k => diffusionPass k data width height palette intensity
  end.

(** ** The resolution-scaled path *)

Definition ofNat (n : nat) : Q := inject_Z (Z.of_nat n).

(** [Math.max(2, Math.floor(dimension * resolution))]. *)
Definition scaledSize (dimension : nat) (resolution : Q) : nat :=
  Z.to_nat (Z.max 2 (Math_floor (ofNat dimension * resolution))).

(** [Math.floor(x * scale)] for a non-negative index. *)
Definition floorMul (x : nat) (scale : Q) : nat :=
  Z.to_nat (Math_floor (ofNat x * scale)).

(** [Math.floor(x / scale)]. *)
Definition floorDiv (x : nat) (scale : Q) : nat :=
  Z.to_nat (Math_floor (ofNat x / scale)).

(** The accumulators [r, g, b, a, count] of one destination cell. *)
Definition Sums : Type := Z * Z * Z * Z * nat.

Definition addPixel (data : list Z) (width py : nat) (acc : Sums) (px : nat) : Sums :=
  let '(r, g, b, a, count) := acc in
  let idx := (py * width + px) * 4 in
  ((r + rd data idx)%Z, (g + rd data (idx + 1))%Z, (b + rd data (idx + 2))%Z,
   (a + rd data (idx + 3))%Z, S count).

(** [for (py = y0; py < y1; py++) for (px = x0; px < x1; px++) ...]. *)
Definition boxSums (data : list Z) (width x0 x1 y0 y1 : nat) : Sums :=
  fold_left
    (fun acc py => fold_left (addPixel data width py) (seq x0 (x1 - x0)) acc)
    (seq y0 (y1 - y0)) (0%Z, 0%Z, 0%Z, 0%Z, 0).

(** [scaledData[i] = sum / count]; [0 / 0] is NaN, stored as 0. *)
Definition storeMean (sum : Z) (count : nat) : Z :=
  match count with
  | 0 => 0%Z
  | S _ => toUint8Clamp (inject_Z sum / ofNat count)
  end.

Definition downscaleCell (data : list Z) (width scaledWidth : nat) (scaleX scaleY : Q)
    (y : nat) (scaledData : list Z) (x : nat) : list Z :=
  let x0 := floorMul x scaleX in
  let y0 := floorMul y scaleY in
  let x1 := floorMul (x + 1) scaleX in
  let y1 := floorMul (y + 1) scaleY in
  let '(r, g, b, a, count) := boxSums data width x0 x1 y0 y1 in
  let scaledIdx := (y * scaledWidth + x) * 4 in
  <[scaledIdx + 3 := storeMean a count]>
    (<[scaledIdx + 2 := storeMean b count]>
       (<[scaledIdx + 1 := storeMean g count]>
          (<[scaledIdx := storeMean r count]> scaledData))).

(** The "downscale by averaging" loops, from a zero-filled buffer. *)
Definition downscale (data : list Z) (width scaledWidth scaledHeight : nat)
    (scaleX scaleY : Q) : list Z :=
  fold_left
    (fun scaledData y =>
       fold_left (downscaleCell data width scaledWidth scaleX scaleY y)
         (seq 0 scaledWidth) scaledData)
    (seq 0 scaledHeight) (replicate (scaledWidth * scaledHeight * 4) 0%Z).

Definition upscalePixel (scaledData : list Z) (width scaledWidth : nat)
    (scaleX scaleY : Q) (y : nat) (data : list Z) (x : nat) : list Z :=
  let srcX := floorDiv x scaleX in
  let srcY := floorDiv y scaleY in
  let srcIdx := (srcY * scaledWidth + srcX) * 4 in
  let dstIdx := (y * width + x) * 4 in
  <[dstIdx + 3 := storeByte (rd scaledData (srcIdx + 3))]>
    (<[dstIdx + 2 := storeByte (rd scaledData (srcIdx + 2))]>
       (<[dstIdx + 1 := storeByte (rd scaledData (srcIdx + 1))]>
          (<[dstIdx := storeByte (rd scaledData srcIdx)]> data))).

(** The nearest-neighbour loops back into [data]. *)
Definition upscale (data scaledData : list Z) (width height scaledWidth : nat)
    (scaleX scaleY : Q) : list Z :=
  fold_left
    (fun data y =>
       fold_left (upscalePixel scaledData width scaledWidth scaleX scaleY y)
         (seq 0 width) data)
    (seq 0 height) data.

(** The signature shared by the five exported functions, with the kind
    saying which one. *)
Definition Entry : Type :=
  DitherKind -> list Z -> nat -> nat -> Palette -> Q -> Q -> M (list Z).

(** [applyDitheringAtLowerResolution]; [entry type] is the exported
    function it calls back for [type]. *)
Definition applyDitheringAtLowerResolution (entry : Entry) (data : list Z)
    (width height : nat) (palette : Palette) (intensity resolution : Q)
    (type : DitherKind) : M (list Z) :=
  let scaledWidth := scaledSize width resolution in
  let scaledHeight := scaledSize height resolution in
  let scaleX := (ofNat width / ofNat scaledWidth)%Q in
  let scaleY := (ofNat height / ofNat scaledHeight)%Q in
  let scaledData := downscale data width scaledWidth scaledHeight scaleX scaleY in
  scaledData <-
    match type with
    | bayer => entry bayer scaledData scaledWidth scaledHeight palette intensity 1%Q
    | floydSteinberg =>
        entry floydSteinberg scaledData scaledWidth scaledHeight palette intensity 1%Q
    | jjn => entry jjn scaledData scaledWidth scaledHeight palette intensity 1%Q
    | stucki => entry stucki scaledData scaledWidth scaledHeight palette intensity 1%Q
    | sierra => entry sierra scaledData scaledWidth scaledHeight palette intensity 1%Q
    end ;;
  ret (upscale data scaledData width height scaledWidth scaleX scaleY).

(** The five exported functions.  They call each other through
    [applyDitheringAtLowerResolution]; [fuel] bounds the depth of that
    recursion. *)
Fixpoint applyDithering (fuel : nat) (type : DitherKind) (data : list Z)
    (width height : nat) (palette : Palette) (intensity resolution : Q)
    : M (list Z) :=
  match fuel with
  | 0 => fun _ => OutOfFuel
  | S fuel' =>
      if Qltb resolution 1
      then applyDitheringAtLowerResolution (applyDithering fuel')
             data width height palette intensity resolution type
      else fullResolutionPass type data width height palette intensity
  end.

Definition applyBayerDithering (fuel : nat) := applyDithering fuel bayer.
Definition applyFloydSteinbergDithering (fuel : nat) := applyDithering fuel floydSteinberg.
Definition applyJJNDithering (fuel : nat) := applyDithering fuel jjn.
Definition applyStuckiDithering (fuel : nat) := applyDithering fuel stucki.
Definition applySierraDithering (fuel : nat) := applyDithering fuel sierra.

(** ** [reduceColorsTopalette] *)

Definition reducePixel (palette : Palette) (data : list Z) (idx : nat) : M (list Z) :=
  c <- findNearestColor (rd data idx) (rd data (idx + 1)) (rd data (idx + 2)) palette ;;
  ret (putRGB data idx c).

(** The chunked traversal, for a buffer whose length is a multiple of 4
    (so that [data.length / 4] is an integer).  The inner loop stops at
    the first [j] with [i + j * 4 >= data.length]; the test is monotone
    in [j], so filtering keeps the same indices. *)
Definition reduceColorsTopalette (data : list Z) (palette : Palette) : M (list Z) :=
  fun _ =>
    let colorCache : Cache := [] in
    let chunkSize := Nat.min 64 (length data / 4) in
    let chunks :=
      match chunkSize with
      | 0 => 0
      | S _ => (length data + 4 * chunkSize - 1) / (4 * chunkSize)
      end in
    forM (seq 0 chunks)
      (fun data c =>
         let i := c * (4 * chunkSize) in
         forM (filter (fun j => i + j * 4 < length data) (seq 0 chunkSize))
           (fun data j => reducePixel palette data (i + j * 4)) data)
      data colorCache.

(** ** Specification predicates *)

(** [v] is the earliest palette entry at minimal squared distance from
    [(r, g, b)]. *)
Definition firstMinimum (r g b : Z) (palette : Palette) (v : Color) : Prop :=
  exists i : nat,
    palette !! i = Some v
    /\ (forall (j : nat) q, palette !! j = Some q -> (sqDist r g b v <= sqDist r g b q)%Z)
    /\ (forall (j : nat) q, j < i -> palette !! j = Some q ->
                            (sqDist r g b v < sqDist r g b q)%Z).

(** Every cache entry is what a fresh scan of [palette] would return for
    its key. *)
Definition cacheCoherent (palette : Palette) (cache : Cache) : Prop :=
  forall k v, (k, v) ∈ cache ->
    forall r g b, isByte r -> isByte g -> isByte b -> k = cacheKey r g b ->
      scanPalette r g b palette None (head palette) = Some v.

(** Every colour held in the cache belongs to [palette]. *)
Definition cacheWithin (palette : Palette) (cache : Cache) : Prop :=
  forall k v, (k, v) ∈ cache -> v ∈ palette.

(** The palette entries are 8-bit triples. *)
Definition paletteBytes (palette : Palette) : Prop :=
  forall pr pg pb, (pr, pg, pb) ∈ palette -> isByte pr /\ isByte pg /\ isByte pb.

(** The RGB triple of pixel [p] of a frame buffer. *)
Definition rgbAt (data : list Z) (p : nat) : Color :=
  (rd data (4 * p), rd data (4 * p + 1), rd data (4 * p + 2)).

(** The alpha byte of pixel [p]. *)
Definition alphaAt (data : list Z) (p : nat) : Z := rd data (4 * p + 3).

(** The first [k] pixels of [data] carry palette colours, no alpha byte
    differs from [data0], and the cache holds palette colours only. *)
Definition quantized (palette : Palette) (data0 : list Z) (k : nat)
    (data : list Z) (c : Cache) : Prop :=
  length data = length data0
  /\ (forall p, p < k -> rgbAt data p ∈ palette)
  /\ (forall p, alphaAt data p = alphaAt data0 p)
  /\ cacheWithin palette c.

(** *** What the resolution-scaled path is said to compute *)

(** The source pixels [(py, px)] that map into one destination cell. *)
Definition cellPixels (x0 x1 y0 y1 : nat) : list (nat * nat) :=
  flat_map (fun py => map (fun px => (py, px)) (seq x0 (x1 - x0))) (seq y0 (y1 - y0)).

Definition sumZ (l : list Z) : Z := foldr Z.add 0%Z l.

(** The mean of channel [ch] over a cell, as a byte. *)
Definition boxAverage (data : list Z) (width ch x0 x1 y0 y1 : nat) : Z :=
  let cells := cellPixels x0 x1 y0 y1 in
  storeMean
    (sumZ (map (fun '(py, px) => rd data ((py * width + px) * 4 + ch)) cells))
    (length cells).

(** The resolution-scaled path as the specification words it: the
    algorithm runs on the downsampled buffer at full intensity (1.0) and
    at resolution 1.0. *)
Definition spec_lowerResolution (fuel : nat) (type : DitherKind) (data : list Z)
    (width height : nat) (palette : Palette) (resolution : Q) : M (list Z) :=
  let scaledWidth := scaledSize width resolution in
  let scaledHeight := scaledSize height resolution in
  let scaleX := (ofNat width / ofNat scaledWidth)%Q in
  let scaleY := (ofNat height / ofNat scaledHeight)%Q in
  let scaledData := downscale data width scaledWidth scaledHeight scaleX scaleY in
  scaledData <- applyDithering fuel type scaledData scaledWidth scaledHeight palette 1%Q 1%Q ;;
  ret (upscale data scaledData width height scaledWidth scaleX scaleY).

(** The five exported dithering functions. *)
Definition entryPoints (fuel : nat)
    : list (list Z -> nat -> nat -> Palette -> Q -> Q -> M (list Z)) :=
  [ applyBayerDithering fuel; applyFloydSteinbergDithering fuel;
    applyJJNDithering fuel; applyStuckiDithering fuel; applySierraDithering fuel ].

(** Sample inputs. *)
Module Samples.

Definition blackWhite : Palette := [(0, 0, 0); (255, 255, 255)]%Z.
Definition paletteA : Palette := [(0, 0, 0)]%Z.
Definition paletteB : Palette := [(255, 255, 255)]%Z.

(** One grey pixel. *)
Definition onePixel : list Z := [10; 10; 10; 255]%Z.

(** A 2 x 2 mid-grey image. *)
Definition grey2x2 : list Z :=
  [100; 100; 100; 255;  100; 100; 100; 255;
   100; 100; 100; 255;  100; 100; 100; 255]%Z.

(** A 4 x 2 image whose first two pixels differ in alpha. *)
Definition image4x2 : list Z :=
  [10; 20; 30; 255;  30; 40; 50; 1;  100; 100; 100; 255;  100; 100; 100; 255;
   100; 100; 100; 255;  100; 100; 100; 255;  100; 100; 100; 255;  100; 100; 100; 255]%Z.

End Samples.

(** ** The kernels as seen from one pixel *)

(** The taps of pixel [(x, y)] when the buffer row in use is
    [currentRow], with the row starts computed as the row loop does. *)
Definition tapsAt (k : Kernel) (x y width height currentRow : nat) : list (nat * Z) :=
  let rowLen := (width + padding k) * 3 in
  let currentBufStart := currentRow * rowLen in
  let nextBufStart := nextRowOf k currentRow * rowLen in
  let nextNextBufStart := nextNextRowOf k currentRow * rowLen in
  let errIdx := currentBufStart + (x + origin k) * 3 in
  taps k x y width height errIdx nextBufStart nextNextBufStart.

(** The sum of the weights handed out. *)
Definition tapWeights (ts : list (nat * Z)) : Z := sumZ (map snd ts).

(** The sum of the entries of one colour channel of an error buffer
    (entry [i] belongs to channel [i mod 3]). *)
Fixpoint channelTotalFrom (pos ch : nat) (errorBuffer : list Q) : Q :=
  match errorBuffer with
  | [] => 0
  | e :: rest =>
      ((if pos mod 3 =? ch then e else 0) + channelTotalFrom (S pos) ch rest)%Q
  end.

Definition channelTotal (ch : nat) (errorBuffer : list Q) : Q :=
  channelTotalFrom 0 ch errorBuffer.

(** A pixel with every neighbour of every kernel inside the image. *)
Definition interior (x y width height : nat) : Prop :=
  0 < x /\ x + 3 < width /\ y + 2 < height.

(** ** The export hook: scheduling arithmetic *)

Module Scheduler.

(** The values derived at the start of [exportVideo]. *)
Record Timing : Type := {
  targetFrameCount : Z;
  exactDurationMs : Q;
  frameIntervalMs : Q;
  stopDurationMs : Q
}.

Definition exportTiming (loopDuration exportLoopCount exportFps : Q) : Timing :=
  let targetDuration := (loopDuration * exportLoopCount)%Q in
  let targetFrameCount := Math_round (targetDuration * exportFps) in
  let exactDurationMs := (inject_Z targetFrameCount / exportFps * 1000)%Q in
  let frameIntervalMs := (1000 / exportFps)%Q in
  let stopDurationMs := (exactDurationMs - frameIntervalMs * (1 # 10))%Q in
  {| targetFrameCount := targetFrameCount;
     exactDurationMs := exactDurationMs;
     frameIntervalMs := frameIntervalMs;
     stopDurationMs := stopDurationMs |}.

Record Crop : Type := {
  cropWidth : Q;
  cropHeight : Q;
  cropX : Q;
  cropY : Q
}.

(** "Calculate crop dimensions to match export aspect ratio". *)
Definition cropRect (exportWidth exportHeight screenWidth screenHeight : Q) : Crop :=
  let exportAspectRatio := (exportWidth / exportHeight)%Q in
  let screenAspectRatio := (screenWidth / screenHeight)%Q in
  if Qltb screenAspectRatio exportAspectRatio
  then
    let cropWidth := screenWidth in
    let cropHeight := (screenWidth / exportAspectRatio)%Q in
    {| cropWidth := cropWidth; cropHeight := cropHeight;
       cropX := 0; cropY := ((screenHeight - cropHeight) / 2)%Q |}
  else
    let cropHeight := screenHeight in
    let cropWidth := (screenHeight * exportAspectRatio)%Q in
    {| cropWidth := cropWidth; cropHeight := cropHeight;
       cropX := ((screenWidth - cropWidth) / 2)%Q; cropY := 0 |}.

(** *** The capture loop of the video path *)

(** What a tick of [compositeCaptureLoop] sees: the elapsed wall-clock
    milliseconds, and whether the frame could be drawn (both 2D contexts
    were obtained and no exception was swallowed). *)
Record Tick : Type := { elapsed : Q; drawn : bool }.

(** [capturedFrames], and the frame numbers drawn onto the recorded
    canvas so far, oldest first. *)
Record Capture : Type := { capturedFrames : Z; frames : list Z }.

Definition captureTick (exportFps : Q) (st : Capture) (t : Tick) : Capture :=
  let currentFrameNumber := Math_floor (elapsed t / 1000 * exportFps) in
  if (currentFrameNumber <=? capturedFrames st)%Z then st
  else
    {| capturedFrames := currentFrameNumber;
       frames := if drawn t then frames st ++ [currentFrameNumber] else frames st |}.

Definition captureLoop (exportFps : Q) (ticks : list Tick) : Capture :=
  fold_left (captureTick exportFps) ticks {| capturedFrames := 0; frames := [] |}.

(** *** Progress reports of a GIF export *)

(** The arguments of the successive [setExportProgress] calls of a GIF
    export that is not cancelled and captures at least one frame:
    the reset on entry, one report per iteration of the frame loop, the
    reset of the [finally] block (the function returns once [gif.render()]
    is started), one report per progress event of the encoder, and the
    reset of its [finished] handler. *)
Definition gifFrameReports (targetFrameCount : nat) : list Q :=
  map (fun i => (ofNat i / ofNat targetFrameCount)%Q) (seq 0 targetFrameCount).

Definition gifEncoderReports (events : list Q) : list Q :=
  map (fun p => ((1 # 2) + p * (1 # 2))%Q) events.

Definition gifProgressReports (targetFrameCount : nat) (events : list Q) : list Q :=
  [0%Q] ++ gifFrameReports targetFrameCount ++ [0%Q]
  ++ gifEncoderReports events ++ [0%Q].

(** Is a sequence of reports non-decreasing? *)
Fixpoint nonDecreasing (l : list Q) : bool :=
  match l with
  | a :: (b :: _) as rest => Qle_bool a b && nonDecreasing rest
  | _ => true
  end.

(** *** Which dithering function a frame goes through *)

Inductive PaletteType : Type :=
| full | nes | gameboy | commodore64 | atari2600 | zxspectrum | amstradcpc
| apple2 | grayscale.

Definition isFull (p : PaletteType) : bool :=
  match p with full => true | _ => false end.

(** The fields of [AnimationSettings] read by the effects stage. *)
Record AnimationSettings : Type := {
  asciiEnabled : bool;
  ditheringEnabled : bool;
  ditheringType : DitherKind;
  ditheringIntensity : Q;
  ditheringResolution : Q;
  paletteType : PaletteType
}.

(** The names the hook imports from [utils/dithering]. *)
Inductive Imported : Type :=
| import_applyBayerDithering
| import_applyFloydSteinbergDithering
| import_reduceColorsTopalette.

(** The function behind each imported name. *)
Definition callImported (fuel : nat) (f : Imported) (data : list Z)
    (processWidth processHeight : nat) (palette : Palette)
    (s : AnimationSettings) : M (list Z) :=
  match f with
  | import_applyBayerDithering =>
      applyBayerDithering fuel data processWidth processHeight palette
        (ditheringIntensity s) (ditheringResolution s)
  | import_applyFloydSteinbergDithering =>
      applyFloydSteinbergDithering fuel data processWidth processHeight palette
        (ditheringIntensity s) (ditheringResolution s)
  | import_reduceColorsTopalette => reduceColorsTopalette data palette
  end.

(** The call made on [imageData.data] in the effects block that the GIF
    frame loop and the non-ASCII capture loop both contain. *)
Definition effectsCall (s : AnimationSettings) : option Imported :=
  if ditheringEnabled s || negb (isFull (paletteType s))
  then
    if ditheringEnabled s
    then match ditheringType s with
         | bayer => Some import_applyBayerDithering
         | _ => Some import_applyFloydSteinbergDithering
         end
    else Some import_reduceColorsTopalette
  else None.

(** One iteration of the GIF frame loop: the ASCII branch hands the
    pixels to the ASCII renderer and calls nothing from the dithering
    module. *)
Definition gifFrameCall (s : AnimationSettings) : option Imported :=
  if asciiEnabled s then None else effectsCall s.

(** One capture of the video path: with ASCII enabled the other capture
    loop runs, which has no effects block. *)
Definition videoFrameCall (s : AnimationSettings) : option Imported :=
  if asciiEnabled s then None else effectsCall s.

Section Frames.

(** [palettes[paletteType].colors]; the table lives in [utils/palettes]. *)
Variable palettes : PaletteType -> Palette.

(** What the effects block does to [imageData.data]. *)
Definition runFrameCall (fuel : nat) (call : option Imported)
    (s : AnimationSettings) (data : list Z) (processWidth processHeight : nat)
    : M (list Z) :=
  match call with
  | Some f =>
      callImported fuel f data processWidth processHeight (palettes (paletteType s)) s
  | None => ret data
  end.

Definition gifFrameEffects (fuel : nat) (s : AnimationSettings) :=
  runFrameCall fuel (gifFrameCall s) s.

Definition videoFrameEffects (fuel : nat) (s : AnimationSettings) :=
  runFrameCall fuel (videoFrameCall s) s.

End Frames.

End Scheduler.

(** ** More specification predicates *)

(** From [c] to [c'] the cache did not shrink, and unless it reached its
    capacity every binding of [c] is still there. *)
Definition cacheKept (c c' : Cache) : Prop :=
  length c <= length c'
  /\ ((ColorCache.size c' < MAX_CACHE_SIZE)%Z ->
      forall k v, ColorCache.get c k = Some v -> ColorCache.get c' k = Some v).

Definition strictlyIncreasing (l : list Z) : Prop :=
  forall (i j : nat) a b, i < j -> l !! i = Some a -> l !! j = Some b -> (a < b)%Z.

(** A tap that lands on a whole pixel slot inside the buffer. *)
Definition aligned (errorBuffer : list Q) (t : nat * Z) : Prop :=
  t.1 mod 3 = 0 /\ t.1 + 2 < length errorBuffer.

(** Channel [ch] of a residual [(r - pr, g - pg, b - pb)]. *)
Definition component (residual : Q * Q * Q) (ch : nat) : Q :=
  let '(rR, rG, rB) := residual in
  match ch with 0 => rR | 1 => rG | _ => rB end.

(** What channel [ch] of the error buffer gains when pixel [(x, y)]
    hands out its residual: the statements after "Distribute error",
    with [errR = (r - pr) / divisor] and so on. *)
Definition channelGain (k : Kernel) (x y width height currentRow : nat)
    (errorBuffer : list Q) (residual : Q * Q * Q) (ch : nat) : Q :=
  let '(rR, rG, rB) := residual in
  let d := inject_Z (divisor k) in
  (channelTotal ch
     (diffuse errorBuffer (tapsAt k x y width height currentRow)
        (rR / d) (rG / d) (rB / d))
   - channelTotal ch errorBuffer)%Q.

(** ** The export hook: the recorder *)

Module Recorder.

Inductive Quality : Type := good | excellent | maximum.

(** The [baseMultiplier] table of [calculateBitrate]. *)
Definition baseMultiplier (quality : Quality) : Q :=
  match quality with
  | good => 6 # 10
  | excellent => 15 # 10
  | maximum => 3
  end.

(** [calculateBitrate(width, height, quality, fps)]. *)
Definition calculateBitrate (width height : Q) (quality : Quality) (fps : Q) : Z :=
  let pixelCount := (width * height)%Q in
  let bitrate := Math_round (pixelCount * fps * baseMultiplier quality) in
  Z.max 500000 (Z.min bitrate 80000000).

(** One tick of [progressInterval]: the progress it reports and whether
    it stops the recorder. *)
Definition progressTick (exactDurationMs stopDurationMs : Q) (abort : bool)
    (elapsed : Q) : Q * bool :=
  let progress := Qmin (elapsed / exactDurationMs) 1 in
  (progress, Qle_bool stopDurationMs elapsed || abort).

End Recorder.

(** ** Quantization pixel by pixel *)

(** [v] is the earliest nearest palette entry of the colour [c]. *)
Definition nearestOf (palette : Palette) (c : Color) (v : Color) : Prop :=
  firstMinimum c.1.1 c.1.2 c.2 palette v.

(** The first [k] pixels of [data] hold the nearest palette colours of
    the colours [src] assigns to them, the bytes from pixel [k] on and
    all alpha bytes are those of [data0], and the cache is coherent with
    the palette. *)
Definition quantizedFrom (palette : Palette) (src : nat -> Color) (data0 : list Z)
    (k : nat) (data : list Z) (c : Cache) : Prop :=
  length data = length data0
  /\ (forall p, p < k -> nearestOf palette (src p) (rgbAt data p))
  /\ (forall i, 4 * k <= i -> rd data i = rd data0 i)
  /\ (forall p, alphaAt data p = alphaAt data0 p)
  /\ cacheCoherent palette c.

(** The byte the Bayer loop leaves in a colour channel of pixel
    [pixelIndex] before it calls the quantizer, for a channel value [v]. *)
Definition bayerChannel (intensity : Q) (width pixelIndex : nat) (v : Z) : Z :=
  let x := pixelIndex mod width in
  let y := pixelIndex / width in
  let dither :=
    (inject_Z (matrixAt (Nat.land y 7) (Nat.land x 7) - 32) * (255 * intensity / 64))%Q in
  storeByte (bitor0 (clamp255 (inject_Z v + dither))).

(** The colour the Bayer loop quantizes at pixel [pixelIndex]. *)
Definition bayerColor (intensity : Q) (width : nat) (data : list Z) (pixelIndex : nat)
    : Color :=
  let '(r, g, b) := rgbAt data pixelIndex in
  (bayerChannel intensity width pixelIndex r,
   bayerChannel intensity width pixelIndex g,
   bayerChannel intensity width pixelIndex b).

(** ** The Jarvis-Judice-Ninke kernel without its last row *)

(** The taps of [applyJJNDithering] for the current and the next row. *)
Definition jjnTapsTwoRows (x y width height errIdx nextBufStart _nn : nat)
    : list (nat * Z) :=
  tapIf (x <? width - 1) (errIdx + 3) 7
  ++ tapIf (x <? width - 2) (errIdx + 6) 5
  ++ (if y <? height - 1 then
        tapIf (0 <? x) (nextBufStart + (x + 2) * 3) 3
        ++ [(nextBufStart + (x + 3) * 3, 5%Z)]
        ++ tapIf (x <? width - 1) (nextBufStart + (x + 4) * 3) 7
        ++ tapIf (x <? width - 2) (nextBufStart + (x + 5) * 3) 5
        ++ tapIf (0 <? x) (nextBufStart + (x + 1) * 3) 3
      else []).

(** Its taps for the row after next. *)
Definition jjnTapsThirdRow (x y width height nextNextBufStart : nat) : list (nat * Z) :=
  if y <? height - 2 then
    tapIf (0 <? x) (nextNextBufStart + (x + 2) * 3) 1
    ++ [(nextNextBufStart + (x + 3) * 3, 3%Z)]
    ++ tapIf (x <? width - 1) (nextNextBufStart + (x + 4) * 3) 5
    ++ tapIf (x <? width - 2) (nextNextBufStart + (x + 5) * 3) 3
    ++ tapIf (0 <? x) (nextNextBufStart + (x + 1) * 3) 1
  else [].

(** A kernel for comparison, not one of the source: [jjnKernel] with the
    statements under [if (y < height - 2)] left out. *)
Definition jjnTwoRowKernel : Kernel :=
  {| padding := 6; origin := 3; rowsHeld := 3; divisor := 48;
     nextRowOf := fun currentRow => (currentRow + 1) mod 3;
     nextNextRowOf := fun currentRow => (currentRow + 2) mod 3;
     clearsNextNext := true; taps := jjnTapsTwoRows |}.

(** Two runs ended alike: the same exception, or results related by [R]
    and the same cache. *)
Definition sameOutcome {A B : Type} (R : A -> B -> Prop)
    (o1 : Outcome A) (o2 : Outcome B) : Prop :=
  match o1, o2 with
  | Done a c1, Done b c2 => R a b /\ c1 = c2
  | TypeError, TypeError => True
  | OutOfFuel, OutOfFuel => True
  | _, _ => False
  end.

(** Two error buffers of one length that agree on the indices in [S]. *)
Definition agreeOn (S : nat -> Prop) (eb1 eb2 : list Q) : Prop :=
  length eb1 = length eb2 /\ forall j, S j -> rdQ eb1 j = rdQ eb2 j.

(** The indices of buffer row [row] when rows are [rowLen] long. *)
Definition inRow (rowLen row : nat) (j : nat) : Prop :=
  row * rowLen <= j < (row + 1) * rowLen.

(** * Properties *)

(** ** The cache *)

Section CacheFacts.

Lemma cache_get_elem (c : Cache) k v :
  ColorCache.get c k = Some v -> (k, v) ∈ c.
Proof.
  induction c as [|[k' v'] t IH]; simpl; [discriminate|].
  destruct (Z.eqb_spec k' k) as [->|Hne].
  - intros [= ->]. apply list_elem_of_here.
  - intros H. apply list_elem_of_further, IH, H.
Qed.

Lemma cache_set_elem (c : Cache) k v k' v' :
  (k', v') ∈ ColorCache.set c k v -> (k', v') = (k, v) \/ (k', v') ∈ c.
Proof.
  induction c as [|[k0 v0] t IH]; simpl.
  - intros H. apply list_elem_of_singleton in H. auto.
  - destruct (Z.eqb_spec k0 k) as [->|Hne]; intros H.
    + apply elem_of_cons in H as [H|H]; [auto|].
      right. apply list_elem_of_further, H.
    + apply elem_of_cons in H as [H|H].
      * right. rewrite H. apply list_elem_of_here.
      * destruct (IH H) as [E|E]; [auto|].
        right. apply list_elem_of_further, E.
Qed.

Lemma cache_delete_elem (c : Cache) k k' v' :
  (k', v') ∈ ColorCache.delete c k -> (k', v') ∈ c.
Proof.
  induction c as [|[k0 v0] t IH]; simpl; [auto|].
  destruct (Z.eqb_spec k0 k) as [->|Hne]; intros H.
  - apply list_elem_of_further, H.
  - apply elem_of_cons in H as [H|H].
    + rewrite H. apply list_elem_of_here.
    + apply list_elem_of_further, IH, H.
Qed.

Lemma cache_get_set_same (c : Cache) k v :
  ColorCache.get (ColorCache.set c k v) k = Some v.
Proof.
  induction c as [|[k0 v0] t IH]; simpl.
  - rewrite Z.eqb_refl. reflexivity.
  - destruct (Z.eqb_spec k0 k) as [->|Hne]; simpl.
    + rewrite Z.eqb_refl. reflexivity.
    + destruct (Z.eqb_spec k0 k); [contradiction|]. exact IH.
Qed.

Lemma cache_set_length (c : Cache) k v :
  ColorCache.get c k = None ->
  length (ColorCache.set c k v) = S (length c).
Proof.
  induction c as [|[k0 v0] t IH]; simpl; [reflexivity|].
  destruct (Z.eqb_spec k0 k); [discriminate|].
  intros H. simpl. rewrite IH; auto.
Qed.

Lemma cache_get_delete_other (c : Cache) k k' :
  ColorCache.get c k' = None -> ColorCache.get (ColorCache.delete c k) k' = None.
Proof.
  induction c as [|[k0 v0] t IH]; simpl; [reflexivity|].
  destruct (Z.eqb_spec k0 k') as [->|Hne]; [discriminate|].
  intros H. destruct (Z.eqb_spec k0 k); [exact H|].
  simpl. destruct (Z.eqb_spec k0 k'); [contradiction|]. apply IH, H.
Qed.

Lemma cache_delete_first_length (c : Cache) k :
  ColorCache.firstKey c = Some k ->
  S (length (ColorCache.delete c k)) = length c.
Proof.
  destruct c as [|[k0 v0] t]; simpl; [discriminate|].
  intros [= ->]. rewrite Z.eqb_refl. reflexivity.
Qed.

End CacheFacts.

(** ** The palette scan *)

Section Scan.

Variables r g b : Z.

Lemma firstMinimum_snoc_keep (pre : Palette) (n p : Color) :
  firstMinimum r g b pre n ->
  (sqDist r g b n <= sqDist r g b p)%Z ->
  firstMinimum r g b (pre ++ [p]) n.
Proof.
  intros (i & Hi & Hall & Hbefore) Hle.
  exists i. split; [|split].
  - apply lookup_app_l_Some, Hi.
  - intros j q Hj. apply lookup_app_Some in Hj as [Hj|[_ Hj]].
    + eapply Hall, Hj.
    + apply list_lookup_singleton_Some in Hj as [_ <-]. exact Hle.
  - intros j q Hlt Hj. apply lookup_app_Some in Hj as [Hj|[Hge _]].
    + eapply Hbefore; eauto.
    + apply lookup_lt_Some in Hi. lia.
Qed.

Lemma firstMinimum_snoc_new (pre : Palette) (n p : Color) :
  firstMinimum r g b pre n ->
  (sqDist r g b p < sqDist r g b n)%Z ->
  firstMinimum r g b (pre ++ [p]) p.
Proof.
  intros (i & Hi & Hall & Hbefore) Hlt.
  assert (Hpre : forall (j : nat) q, pre !! j = Some q ->
                   (sqDist r g b p < sqDist r g b q)%Z).
  { intros j q Hj. specialize (Hall j q Hj). lia. }
  exists (length pre). split; [|split].
  - rewrite lookup_app_r by lia. rewrite Nat.sub_diag. reflexivity.
  - intros j q Hj. apply lookup_app_Some in Hj as [Hj|[_ Hj]].
    + specialize (Hpre j q Hj). lia.
    + apply list_lookup_singleton_Some in Hj as [_ <-]. lia.
  - intros j q Hj Hq. apply lookup_app_Some in Hq as [Hq|[Hge _]].
    + eapply Hpre, Hq.
    + lia.
Qed.

Lemma scanPalette_from (rest pre : Palette) (n : Color) :
  firstMinimum r g b pre n ->
  exists v, scanPalette r g b rest (Some (sqDist r g b n)) (Some n) = Some v
            /\ firstMinimum r g b (pre ++ rest) v.
Proof.
  revert pre n. induction rest as [|p rest IH]; intros pre n Hmin; simpl.
  - exists n. rewrite app_nil_r. auto.
  - destruct (Z.ltb_spec (sqDist r g b p) (sqDist r g b n)) as [Hlt|Hge].
    + destruct (IH (pre ++ [p]) p) as (v & Hv & Hmin').
      { eapply firstMinimum_snoc_new; eauto. }
      exists v. rewrite <- app_assoc in Hmin'. auto.
    + destruct (IH (pre ++ [p]) n) as (v & Hv & Hmin').
      { eapply firstMinimum_snoc_keep; eauto. }
      exists v. rewrite <- app_assoc in Hmin'. auto.
Qed.

Lemma scanPalette_first_minimum (palette : Palette) :
  palette <> [] ->
  exists v, scanPalette r g b palette None (head palette) = Some v
            /\ firstMinimum r g b palette v.
Proof.
  destruct palette as [|p rest]; [congruence|]. intros _. simpl.
  apply (scanPalette_from rest [p] p).
  exists 0. split; [reflexivity|]. split.
  - intros [|j] q Hq; simpl in Hq; [injection Hq as <-; lia|].
    rewrite lookup_nil in Hq. discriminate.
  - intros j q Hj. lia.
Qed.

End Scan.

Lemma firstMinimum_elem r g b palette v :
  firstMinimum r g b palette v -> v ∈ palette.
Proof. intros (i & Hi & _). eapply list_elem_of_lookup_2, Hi. Qed.

(** ** [findNearestColor] *)

Section Quantizer.

(** The packed key is [r * 65536 + g * 256 + b] on bytes. *)
Lemma lor_low_bits (a v n : Z) :
  (0 <= n)%Z -> (0 <= v < 2 ^ n)%Z -> Z.lor (a * 2 ^ n) v = (a * 2 ^ n + v)%Z.
Proof.
  intros Hn Hv. symmetry. apply Z.add_nocarry_lor.
  apply Z.bits_inj'. intros i Hi. rewrite Z.land_spec, Z.bits_0.
  destruct (Z.lt_ge_cases i n) as [Hlt|Hge].
  - rewrite Z.mul_pow2_bits_low by lia. reflexivity.
  - destruct (Z.eq_dec v 0%Z) as [->|Hv0].
    + rewrite Z.bits_0. apply andb_false_r.
    + rewrite (Z.bits_above_log2 v i); [apply andb_false_r|lia|].
      apply Z.log2_lt_pow2; [lia|].
      pose proof (Z.pow_le_mono_r 2 n i ltac:(lia) Hge). lia.
Qed.

Lemma cacheKey_bytes (r g b : Z) :
  isByte r -> isByte g -> isByte b ->
  cacheKey r g b = (r * 65536 + g * 256 + b)%Z.
Proof.
  unfold isByte, cacheKey. intros Hr Hg Hb.
  rewrite !Z.shiftl_mul_pow2 by lia.
  rewrite (lor_low_bits r (g * 2 ^ 8) 16) by lia.
  replace (r * 2 ^ 16 + g * 2 ^ 8)%Z with ((r * 2 ^ 8 + g) * 2 ^ 8)%Z by lia.
  rewrite lor_low_bits by lia. lia.
Qed.

Lemma cacheKey_inj (r g b r' g' b' : Z) :
  isByte r -> isByte g -> isByte b -> isByte r' -> isByte g' -> isByte b' ->
  cacheKey r g b = cacheKey r' g' b' -> r = r' /\ g = g' /\ b = b'.
Proof.
  intros Hr Hg Hb Hr' Hg' Hb'. rewrite !cacheKey_bytes by assumption.
  unfold isByte in *. lia.
Qed.

(** A hit returns the stored colour and leaves the cache alone. *)
Lemma findNearestColor_hit r g b palette cache v :
  ColorCache.get cache (cacheKey r g b) = Some v ->
  findNearestColor r g b palette cache = Done v cache.
Proof. unfold findNearestColor. intros ->. reflexivity. Qed.

(** A miss scans, evicts the oldest entry of a full cache and stores. *)
Lemma findNearestColor_miss r g b palette cache :
  palette <> [] ->
  ColorCache.get cache (cacheKey r g b) = None ->
  exists v cache',
    findNearestColor r g b palette cache = Done v cache'
    /\ firstMinimum r g b palette v
    /\ scanPalette r g b palette None (head palette) = Some v
    /\ ColorCache.get cache' (cacheKey r g b) = Some v
    /\ (forall k' v', (k', v') ∈ cache' -> (k', v') = (cacheKey r g b, v) \/ (k', v') ∈ cache)
    /\ length cache <= length cache'.
Proof.
  intros Hne Hmiss. unfold findNearestColor. rewrite Hmiss.
  destruct (scanPalette_first_minimum r g b palette Hne) as (v & -> & Hmin).
  eexists _, _. split; [reflexivity|].
  split; [exact Hmin|]. split; [reflexivity|].
  split; [apply cache_get_set_same|]. split.
  - intros k' v' H. apply cache_set_elem in H as [H|H]; [auto|right].
    destruct (MAX_CACHE_SIZE <=? ColorCache.size cache)%Z; [|exact H].
    destruct (ColorCache.firstKey cache); [|exact H].
    eapply cache_delete_elem, H.
  - destruct (MAX_CACHE_SIZE <=? ColorCache.size cache)%Z.
    + destruct (ColorCache.firstKey cache) as [k0|] eqn:Hk0.
      * rewrite cache_set_length by (apply cache_get_delete_other, Hmiss).
        rewrite (cache_delete_first_length cache k0 Hk0). lia.
      * rewrite cache_set_length by exact Hmiss. lia.
    + rewrite cache_set_length by exact Hmiss. lia.
Qed.

(** The cache never shrinks. *)
Lemma findNearestColor_size r g b palette cache v cache' :
  findNearestColor r g b palette cache = Done v cache' ->
  length cache <= length cache'.
Proof.
  destruct (ColorCache.get cache (cacheKey r g b)) as [w|] eqn:Hget.
  - rewrite (findNearestColor_hit _ _ _ _ _ _ Hget). intros [= _ <-]. lia.
  - destruct palette as [|p rest] eqn:Hp.
    + unfold findNearestColor. rewrite Hget. simpl. discriminate.
    + destruct (findNearestColor_miss r g b (p :: rest) cache) as (v0 & c0 & -> & _ & _ & _ & _ & Hlen);
        [discriminate|exact Hget|].
      intros [= _ <-]. exact Hlen.
Qed.

(** Colours of the palette stay colours of the palette. *)
Lemma findNearestColor_within r g b palette cache :
  palette <> [] -> cacheWithin palette cache ->
  exists v cache',
    findNearestColor r g b palette cache = Done v cache'
    /\ v ∈ palette /\ cacheWithin palette cache'.
Proof.
  intros Hne Hin.
  destruct (ColorCache.get cache (cacheKey r g b)) as [w|] eqn:Hget.
  - exists w, cache. split; [apply findNearestColor_hit, Hget|].
    split; [|exact Hin]. eapply Hin, cache_get_elem, Hget.
  - destruct (findNearestColor_miss r g b palette cache Hne Hget)
      as (v & c' & Hrun & Hmin & _ & _ & Hsub & _).
    exists v, c'. split; [exact Hrun|].
    pose proof (firstMinimum_elem _ _ _ _ _ Hmin) as Hv.
    split; [exact Hv|].
    intros k' v' H. destruct (Hsub k' v' H) as [[= _ ->]|H']; [exact Hv|].
    eapply Hin, H'.
Qed.

(** Under one palette a coherent cache stays coherent. *)
Lemma findNearestColor_coherent r g b palette cache v cache' :
  isByte r -> isByte g -> isByte b ->
  cacheCoherent palette cache ->
  findNearestColor r g b palette cache = Done v cache' ->
  cacheCoherent palette cache'.
Proof.
  intros Hr Hg Hb Hco.
  destruct (ColorCache.get cache (cacheKey r g b)) as [w|] eqn:Hget.
  - rewrite (findNearestColor_hit _ _ _ _ _ _ Hget). intros [= _ <-]. exact Hco.
  - destruct palette as [|p rest] eqn:Hp.
    + unfold findNearestColor. rewrite Hget. simpl. discriminate.
    + rewrite <- Hp in *.
      destruct (findNearestColor_miss r g b palette cache) as (v0 & c0 & -> & _ & Hscan & _ & Hsub & _);
        [rewrite Hp; discriminate|exact Hget|].
      intros [= <- <-]. intros k' v' H r' g' b' Hr' Hg' Hb' Hk.
      destruct (Hsub k' v' H) as [[= -> ->]|H'].
      * destruct (cacheKey_inj r g b r' g' b') as (<- & <- & <-); auto.
      * eapply Hco; eauto.
Qed.

Lemma cacheCoherent_nil palette : cacheCoherent palette [].
Proof. intros k v H. apply elem_of_nil in H. contradiction. Qed.

Lemma cacheWithin_nil palette : cacheWithin palette [].
Proof. intros k v H. apply elem_of_nil in H. contradiction. Qed.

End Quantizer.

(** ** Loops *)

Section Loops.

Context {A I : Type}.

(** An invariant indexed by the number of iterations done. *)
Lemma forM_inv (P : nat -> A -> Cache -> Prop) (xs : list I)
    (body : A -> I -> M A) (acc : A) (c : Cache) :
  P 0 acc c ->
  (forall n i acc c, xs !! n = Some i -> P n acc c ->
     exists acc' c', body acc i c = Done acc' c' /\ P (S n) acc' c') ->
  exists acc' c', forM xs body acc c = Done acc' c' /\ P (length xs) acc' c'.
Proof.
  revert P acc c. induction xs as [|i xs IH]; intros P acc c H0 Hstep; simpl.
  - exists acc, c. auto.
  - destruct (Hstep 0 i acc c eq_refl H0) as (acc1 & c1 & Hb & H1).
    unfold bind. rewrite Hb.
    apply (IH (fun n => P (S n))); [exact H1|].
    intros n j acc2 c2 Hj. apply (Hstep (S n)). exact Hj.
Qed.

(** A property of the cache that each iteration carries over. *)
Lemma forM_cache (R : Cache -> Cache -> Prop) (xs : list I)
    (body : A -> I -> M A) :
  (forall c, R c c) ->
  (forall c1 c2 c3, R c1 c2 -> R c2 c3 -> R c1 c3) ->
  (forall acc i c acc' c', body acc i c = Done acc' c' -> R c c') ->
  forall acc c acc' c', forM xs body acc c = Done acc' c' -> R c c'.
Proof.
  intros Hrefl Htrans Hbody. induction xs as [|i xs IH]; intros acc c acc' c'; simpl.
  - intros [= _ <-]. apply Hrefl.
  - unfold bind. destruct (body acc i c) as [a1 c1| |] eqn:Hb; try discriminate.
    intros H. eapply Htrans; [eapply Hbody, Hb|eapply IH, H].
Qed.

End Loops.

(** ** Reads and writes of a frame buffer *)

Section Buffers.

Lemma rd_insert (l : list Z) (i j : nat) (v : Z) :
  rd (<[i := v]> l) j = if decide (i = j /\ i < length l) then v else rd l j.
Proof.
  unfold rd. destruct (decide (i = j /\ i < length l)) as [[-> Hlt]|Hn].
  - rewrite list_lookup_insert_eq by exact Hlt. reflexivity.
  - destruct (decide (i = j)) as [->|Hne].
    + rewrite list_insert_ge by lia. reflexivity.
    + rewrite list_lookup_insert_ne by exact Hne. reflexivity.
Qed.

Lemma rd_insert_ne (l : list Z) (i j : nat) (v : Z) :
  i <> j -> rd (<[i := v]> l) j = rd l j.
Proof.
  intros Hne. rewrite rd_insert. destruct (decide _) as [[E _]|_]; [contradiction|reflexivity].
Qed.

Lemma rd_insert_eq (l : list Z) (i : nat) (v : Z) :
  i < length l -> rd (<[i := v]> l) i = v.
Proof.
  intros Hlt. rewrite rd_insert. destruct (decide _) as [_|Hn]; [reflexivity|].
  exfalso. apply Hn. auto.
Qed.

Lemma storeByte_byte (v : Z) : isByte v -> storeByte v = v.
Proof. unfold isByte, storeByte. lia. Qed.

Lemma storeByte_isByte (v : Z) : isByte (storeByte v).
Proof. unfold isByte, storeByte. lia. Qed.

Lemma putRGB_length data idx c : length (putRGB data idx c) = length data.
Proof. destruct c as [[pr pg] pb]. unfold putRGB. rewrite !length_insert. reflexivity. Qed.

Lemma putRGB_other data idx c j :
  j <> idx -> j <> idx + 1 -> j <> idx + 2 ->
  rd (putRGB data idx c) j = rd data j.
Proof.
  intros H0 H1 H2. destruct c as [[pr pg] pb]. unfold putRGB.
  rewrite !rd_insert_ne by lia. reflexivity.
Qed.

Lemma putRGB_rgb palette data k c :
  paletteBytes palette -> c ∈ palette -> 4 * k + 2 < length data ->
  rgbAt (putRGB data (4 * k) c) k = c.
Proof.
  intros Hpal Hc Hlen. destruct c as [[pr pg] pb].
  destruct (Hpal pr pg pb Hc) as (Hr & Hg & Hb).
  unfold rgbAt, putRGB.
  rewrite rd_insert_ne, rd_insert_ne, rd_insert_eq by (rewrite ?length_insert; lia).
  rewrite rd_insert_ne, rd_insert_eq by (rewrite ?length_insert; lia).
  rewrite rd_insert_eq by (rewrite ?length_insert; lia).
  rewrite !storeByte_byte by assumption. reflexivity.
Qed.

(** Overwriting a colour channel of pixel [k] keeps what is known of the
    pixels before it. *)
Lemma quantized_insert palette data0 k data c i v :
  4 * k <= i <= 4 * k + 2 ->
  quantized palette data0 k data c ->
  quantized palette data0 k (<[i := v]> data) c.
Proof.
  intros Hi (Hlen & Hrgb & Halpha & Hc). split; [|split; [|split]].
  - rewrite length_insert. exact Hlen.
  - intros p Hp. specialize (Hrgb p Hp). unfold rgbAt in *.
    rewrite !rd_insert_ne by lia. exact Hrgb.
  - intros p. unfold alphaAt. rewrite rd_insert_ne by lia. apply Halpha.
  - exact Hc.
Qed.

(** Quantizing pixel [k] extends the invariant by one pixel. *)
Lemma quantized_step palette data0 k data c r g b idx :
  palette <> [] -> paletteBytes palette ->
  idx = 4 * k -> idx + 2 < length data ->
  quantized palette data0 k data c ->
  exists v c',
    findNearestColor r g b palette c = Done v c'
    /\ quantized palette data0 (S k) (putRGB data idx v) c'.
Proof.
  intros Hne Hpal -> Hlen (Hl & Hrgb & Halpha & Hc).
  destruct (findNearestColor_within r g b palette c Hne Hc) as (v & c' & Hrun & Hv & Hc').
  exists v, c'. split; [exact Hrun|]. split; [|split; [|split]].
  - rewrite putRGB_length. exact Hl.
  - intros p Hp. destruct (decide (p = k)) as [->|Hpk].
    + rewrite (putRGB_rgb palette) by (assumption || lia). exact Hv.
    + unfold rgbAt. rewrite !putRGB_other by lia. apply Hrgb. lia.
  - intros p. unfold alphaAt. rewrite putRGB_other by lia. apply Halpha.
  - exact Hc'.
Qed.

Lemma quantized_start palette data c :
  cacheWithin palette c -> quantized palette data 0 data c.
Proof.
  intros Hc. split; [reflexivity|]. split; [intros p Hp; lia|]. split; [reflexivity|exact Hc].
Qed.

End Buffers.

(** ** The full-resolution passes quantize every pixel *)

Section Passes.

Variable palette : Palette.
Hypothesis palette_nonempty : palette <> [].
Hypothesis palette_bytes : paletteBytes palette.

Lemma bayerPixel_step data0 width ditherScale data k c :
  4 * k + 2 < length data ->
  quantized palette data0 k data c ->
  exists data' c',
    bayerPixel width palette ditherScale data k c = Done data' c'
    /\ quantized palette data0 (S k) data' c'.
Proof.
  intros Hlen Hq. unfold bayerPixel.
  set (d1 := <[4 * k := _]> data).
  set (d2 := <[4 * k + 1 := _]> d1).
  set (d3 := <[4 * k + 2 := _]> d2).
  assert (Hq3 : quantized palette data0 k d3 c).
  { subst d3 d2 d1. do 3 (apply quantized_insert; [lia|]). exact Hq. }
  assert (Hl3 : length d3 = length data).
  { subst d3 d2 d1. rewrite !length_insert. reflexivity. }
  destruct (quantized_step palette data0 k d3 c (rd d3 (4 * k)) (rd d3 (4 * k + 1))
              (rd d3 (4 * k + 2)) (4 * k)) as (v & c' & Hrun & Hq');
    [assumption|assumption|reflexivity|lia|exact Hq3|].
  exists (putRGB d3 (4 * k) v), c'. unfold bind. rewrite Hrun. auto.
Qed.

Lemma div4_exact (n : nat) : (4 * n + 3) / 4 = n.
Proof. symmetry. apply (Nat.div_unique _ 4 n 3); lia. Qed.

Lemma bayerPass_quantized data width height intensity n c :
  length data = 4 * n ->
  cacheWithin palette c ->
  exists data' c',
    bayerPass data width height palette intensity c = Done data' c'
    /\ quantized palette data n data' c'.
Proof.
  intros Hlen Hc. unfold bayerPass. rewrite Hlen, div4_exact.
  destruct (forM_inv (fun k d c => quantized palette data k d c)
              (seq 0 n) (bayerPixel width palette (255 * intensity / 64)%Q) data c)
    as (data' & c' & Hrun & Hq).
  - apply quantized_start, Hc.
  - intros k i d c0 Hi Hq. apply lookup_seq in Hi as [-> Hk]. simpl.
    apply bayerPixel_step; [|exact Hq].
    destruct Hq as (Hl & _). rewrite Hl, Hlen. lia.
  - rewrite length_seq in Hq. eauto.
Qed.

Lemma diffusionPixel_step (k : Kernel) data0 width height intensity y cs ns nns
    data eb x c :
  (y * width + x) * 4 + 2 < length data ->
  quantized palette data0 (y * width + x) data c ->
  exists st' c',
    diffusionPixel k width height palette intensity y cs ns nns (data, eb) x c
      = Done st' c'
    /\ quantized palette data0 (S (y * width + x)) st'.1 c'.
Proof.
  intros Hlen Hq. unfold diffusionPixel.
  set (r := clamp255 _). set (g := clamp255 _). set (b := clamp255 _).
  destruct (quantized_step palette data0 (y * width + x) data c (bitor0 r) (bitor0 g)
              (bitor0 b) ((y * width + x) * 4)) as (v & c' & Hrun & Hq');
    [assumption|assumption|lia|lia|exact Hq|].
  unfold bind. rewrite Hrun. destruct v as [[pr pg] pb].
  eexists _, c'. split; [reflexivity|]. exact Hq'.
Qed.

Lemma diffusionRow_step (k : Kernel) data0 width height intensity data eb cur y c :
  (y + 1) * width * 4 <= length data ->
  quantized palette data0 (y * width) data c ->
  exists st' c',
    diffusionRow k width height palette intensity (data, eb, cur) y c = Done st' c'
    /\ quantized palette data0 ((y + 1) * width) st'.1.1 c'.
Proof.
  intros Hlen Hq. unfold diffusionRow.
  match goal with
  | |- context [forM _ ?body (data, ?eb')] =>
      destruct (forM_inv
                  (fun n (st : list Z * list Q) c =>
                     quantized palette data0 (y * width + n) st.1 c
                     /\ length st.1 = length data)
                  (seq 0 width) body (data, eb') c) as (st' & c' & Hrun & Hq' & _)
  end.
  - simpl. rewrite Nat.add_0_r. auto.
  - intros n x [d e] c0 Hx [Hq0 Hl0]. apply lookup_seq in Hx as [-> Hn]. cbn [fst snd plus] in *.
    destruct (diffusionPixel_step k data0 width height intensity y
                (cur * ((width + padding k) * 3))
                (nextRowOf k cur * ((width + padding k) * 3))
                (nextNextRowOf k cur * ((width + padding k) * 3)) d e n c0)
      as (st1 & c1 & Hrun1 & Hq1); [rewrite Hl0; nia|exact Hq0|].
    exists st1, c1. split; [exact Hrun1|]. split.
    + rewrite <- Nat.add_succ_r in Hq1. exact Hq1.
    + destruct Hq1 as (Hl1 & _). destruct Hq0 as (Hl0' & _). congruence.
  - unfold bind. rewrite Hrun. eexists _, c'. split; [reflexivity|]. simpl.
    rewrite length_seq in Hq'.
    replace ((y + 1) * width) with (y * width + width) by lia. exact Hq'.
Qed.

Lemma diffusionPass_quantized (k : Kernel) data width height intensity c :
  length data = 4 * (width * height) ->
  cacheWithin palette c ->
  exists data' c',
    diffusionPass k data width height palette intensity c = Done data' c'
    /\ quantized palette data (width * height) data' c'.
Proof.
  intros Hlen Hc. unfold diffusionPass.
  match goal with
  | |- context [forM _ ?body (data, ?eb, 0)] =>
      destruct (forM_inv
                  (fun n (st : list Z * list Q * nat) c =>
                     quantized palette data (n * width) st.1.1 c)
                  (seq 0 height) body (data, eb, 0) c) as (st' & c' & Hrun & Hq')
  end.
  - simpl. apply quantized_start, Hc.
  - intros n y [[d e] cur] c0 Hy Hq0. apply lookup_seq in Hy as [-> Hn]. cbn [fst snd plus] in *.
    destruct (diffusionRow_step k data width height intensity d e cur n c0)
      as (st1 & c1 & Hrun1 & Hq1); [|exact Hq0|].
    + destruct Hq0 as (Hl & _). rewrite Hl, Hlen. nia.
    + exists st1, c1. split; [exact Hrun1|].
      replace (S n * width) with ((n + 1) * width) by lia. exact Hq1.
  - unfold bind. rewrite Hrun. eexists _, c'. split; [reflexivity|].
    rewrite length_seq in Hq'. rewrite Nat.mul_comm. exact Hq'.
Qed.

Lemma fullResolutionPass_quantized type data width height intensity c :
  length data = 4 * (width * height) ->
  cacheWithin palette c ->
  exists data' c',
    fullResolutionPass type data width height palette intensity c = Done data' c'
    /\ quantized palette data (width * height) data' c'.
Proof.
  intros Hlen Hc. unfold fullResolutionPass.
  destruct (kernelOf type) as [k|].
  - apply diffusionPass_quantized; assumption.
  - apply bayerPass_quantized; assumption.
Qed.

End Passes.

(** ** Raster loops that fill a buffer *)

Section Raster.

Lemma fold_left_inv {A I : Type} (P : nat -> A -> Prop) (f : A -> I -> A)
    (xs : list I) (acc : A) :
  P 0 acc ->
  (forall n i acc, xs !! n = Some i -> P n acc -> P (S n) (f acc i)) ->
  P (length xs) (fold_left f xs acc).
Proof.
  revert P acc. induction xs as [|i xs IH]; intros P acc H0 Hstep; simpl; [exact H0|].
  apply (IH (fun n => P (S n))).
  - apply (Hstep 0 i acc eq_refl H0).
  - intros n j a Hj. apply (Hstep (S n)). exact Hj.
Qed.

Variables w h : nat.
Variable val : nat -> nat -> nat -> Z.
Variable step : nat -> list Z -> nat -> list Z.

Hypothesis step_writes : forall y x d,
  step y d x =
  <[(y * w + x) * 4 + 3 := val y x 3]>
    (<[(y * w + x) * 4 + 2 := val y x 2]>
       (<[(y * w + x) * 4 + 1 := val y x 1]>
          (<[(y * w + x) * 4 := val y x 0]> d))).

(** The pixels before position [k] of the raster hold their values. *)
Let filled (k : nat) (d : list Z) : Prop :=
  length d = w * h * 4
  /\ forall y x ch, x < w -> y * w + x < k -> ch < 4 ->
       rd d ((y * w + x) * 4 + ch) = val y x ch.

Lemma raster_cell_unique y x y' x' :
  x < w -> x' < w -> y * w + x = y' * w + x' -> y = y' /\ x = x'.
Proof.
  intros Hx Hx' E.
  assert (y = y') as ->.
  { destruct (Nat.lt_trichotomy y y') as [Hlt|[->|Hgt]]; [|reflexivity|]; nia. }
  split; [reflexivity|lia].
Qed.

Lemma filled_step y x d :
  x < w -> y < h -> filled (y * w + x) d -> filled (S (y * w + x)) (step y d x).
Proof.
  intros Hx Hy (Hlen & Hval). rewrite step_writes. split.
  - rewrite !length_insert. exact Hlen.
  - intros y' x' ch Hx' Hlt Hch.
    assert (Hin : (y * w + x) * 4 + 3 < length d) by (rewrite Hlen; nia).
    destruct (decide (y' * w + x' = y * w + x)) as [E|Hne].
    + destruct (raster_cell_unique y' x' y x Hx' Hx E) as [-> ->].
      destruct ch as [|[|[|[|ch]]]]; [| | | |lia].
      * rewrite Nat.add_0_r.
        rewrite !rd_insert_ne by lia. apply rd_insert_eq. lia.
      * rewrite !rd_insert_ne by lia. apply rd_insert_eq. rewrite !length_insert. lia.
      * rewrite !rd_insert_ne by lia. apply rd_insert_eq. rewrite !length_insert. lia.
      * apply rd_insert_eq. rewrite !length_insert. lia.
    + rewrite !rd_insert_ne by lia. apply Hval; [exact Hx'|lia|exact Hch].
Qed.

Lemma raster_fill (init : list Z) :
  length init = w * h * 4 ->
  let out := fold_left (fun d y => fold_left (step y) (seq 0 w) d) (seq 0 h) init in
  length out = w * h * 4
  /\ forall y x ch, y < h -> x < w -> ch < 4 ->
       rd out ((y * w + x) * 4 + ch) = val y x ch.
Proof.
  intros Hlen out.
  assert (H : filled (h * w) out).
  { subst out.
    pose proof (fold_left_inv (fun n d => filled (n * w) d)
                  (fun d y => fold_left (step y) (seq 0 w) d) (seq 0 h) init) as F.
    rewrite length_seq in F. apply F.
    - split; [exact Hlen|]. intros y x ch _ Hlt. lia.
    - intros n y d Hy Hf. apply lookup_seq in Hy as [-> Hn]. cbn [plus].
      pose proof (fold_left_inv (fun m d => filled (n * w + m) d)
                    (step n) (seq 0 w) d) as G.
      rewrite length_seq in G.
      replace (S n * w) with (n * w + w) by lia. apply G.
      + rewrite Nat.add_0_r. exact Hf.
      + intros m x d' Hx Hf'. apply lookup_seq in Hx as [-> Hm]. cbn [plus].
        rewrite Nat.add_succ_r.
        apply filled_step; assumption. }
  destruct H as (Hl & Hval). split; [exact Hl|].
  intros y x ch Hy Hx Hch. apply Hval; [exact Hx|nia|exact Hch].
Qed.

End Raster.

(** ** Downscaling and upscaling, cell by cell *)

Section Scaling.

Lemma sumZ_app (l1 l2 : list Z) : sumZ (l1 ++ l2) = (sumZ l1 + sumZ l2)%Z.
Proof. unfold sumZ. induction l1 as [|a l1 IH]; simpl; [reflexivity|]. rewrite IH. lia. Qed.

Variable data : list Z.
Variable width : nat.

Let chan (ch : nat) (c : nat * nat) : Z :=
  let '(py, px) := c in rd data ((py * width + px) * 4 + ch).

Lemma addPixel_row py (xs : list nat) r g b a n :
  fold_left (addPixel data width py) xs (r, g, b, a, n) =
  ((r + sumZ (map (chan 0) (map (fun px => (py, px)) xs)))%Z,
   (g + sumZ (map (chan 1) (map (fun px => (py, px)) xs)))%Z,
   (b + sumZ (map (chan 2) (map (fun px => (py, px)) xs)))%Z,
   (a + sumZ (map (chan 3) (map (fun px => (py, px)) xs)))%Z,
   n + length xs).
Proof.
  revert r g b a n. induction xs as [|px xs IH]; intros r g b a n.
  - simpl. rewrite !Z.add_0_r, Nat.add_0_r. reflexivity.
  - cbn [fold_left addPixel]. rewrite IH. cbn [map sumZ foldr length chan].
    rewrite Nat.add_0_r.
    f_equal; [f_equal; [f_equal; [f_equal|]|]|]; unfold sumZ; lia.
Qed.

Lemma boxSums_cells x0 x1 y0 y1 :
  boxSums data width x0 x1 y0 y1 =
  (sumZ (map (chan 0) (cellPixels x0 x1 y0 y1)),
   sumZ (map (chan 1) (cellPixels x0 x1 y0 y1)),
   sumZ (map (chan 2) (cellPixels x0 x1 y0 y1)),
   sumZ (map (chan 3) (cellPixels x0 x1 y0 y1)),
   length (cellPixels x0 x1 y0 y1)).
Proof.
  unfold boxSums, cellPixels.
  set (xs := seq x0 (x1 - x0)). set (ys := seq y0 (y1 - y0)).
  assert (G : forall r g b a n,
    fold_left (fun acc py => fold_left (addPixel data width py) xs acc) ys (r, g, b, a, n) =
    ((r + sumZ (map (chan 0) (flat_map (fun py => map (fun px => (py, px)) xs) ys)))%Z,
     (g + sumZ (map (chan 1) (flat_map (fun py => map (fun px => (py, px)) xs) ys)))%Z,
     (b + sumZ (map (chan 2) (flat_map (fun py => map (fun px => (py, px)) xs) ys)))%Z,
     (a + sumZ (map (chan 3) (flat_map (fun py => map (fun px => (py, px)) xs) ys)))%Z,
     n + length (flat_map (fun py => map (fun px => (py, px)) xs) ys))).
  { induction ys as [|py ys IH]; intros r g b a n.
    - simpl. rewrite !Z.add_0_r, Nat.add_0_r. reflexivity.
    - cbn [fold_left flat_map]. rewrite addPixel_row, IH.
      rewrite !map_app, !sumZ_app, length_app, !length_map.
      f_equal; [f_equal; [f_equal; [f_equal|]|]|]; lia. }
  rewrite G. rewrite !Z.add_0_l. reflexivity.
Qed.

Lemma downscale_spec scaledWidth scaledHeight scaleX scaleY :
  let out := downscale data width scaledWidth scaledHeight scaleX scaleY in
  length out = scaledWidth * scaledHeight * 4
  /\ forall y x ch, y < scaledHeight -> x < scaledWidth -> ch < 4 ->
       rd out ((y * scaledWidth + x) * 4 + ch) =
       boxAverage data width ch (floorMul x scaleX) (floorMul (x + 1) scaleX)
         (floorMul y scaleY) (floorMul (y + 1) scaleY).
Proof.
  unfold downscale.
  apply (raster_fill scaledWidth scaledHeight
           (fun y x ch =>
              boxAverage data width ch (floorMul x scaleX) (floorMul (x + 1) scaleX)
                (floorMul y scaleY) (floorMul (y + 1) scaleY))).
  - intros y x d. unfold downscaleCell. rewrite boxSums_cells. reflexivity.
  - rewrite length_replicate. reflexivity.
Qed.

End Scaling.

Lemma upscale_spec data scaledData width height scaledWidth scaleX scaleY :
  length data = width * height * 4 ->
  let out := upscale data scaledData width height scaledWidth scaleX scaleY in
  length out = width * height * 4
  /\ forall y x ch, y < height -> x < width -> ch < 4 ->
       rd out ((y * width + x) * 4 + ch) =
       storeByte (rd scaledData
                    ((floorDiv y scaleY * scaledWidth + floorDiv x scaleX) * 4 + ch)).
Proof.
  intros Hlen. unfold upscale.
  apply (raster_fill width height
           (fun y x ch =>
              storeByte (rd scaledData
                ((floorDiv y scaleY * scaledWidth + floorDiv x scaleX) * 4 + ch)))).
  - intros y x d. unfold upscalePixel. rewrite Nat.add_0_r. reflexivity.
  - exact Hlen.
Qed.

(** ** Index arithmetic of the scaled path *)

Section ScaleArithmetic.

Lemma Qltb_lt (x y : Q) : Qltb x y = true <-> (x < y)%Q.
Proof. unfold Qltb, Qlt. apply Z.ltb_lt. Qed.

Lemma Qltb_ge (x y : Q) : Qltb x y = false <-> (y <= x)%Q.
Proof. unfold Qltb, Qle. apply Z.ltb_ge. Qed.

Lemma ofNat_lt (n m : nat) : n < m -> (ofNat n < ofNat m)%Q.
Proof. intros H. unfold ofNat. rewrite <- Zlt_Qlt. lia. Qed.

Lemma ofNat_pos (n : nat) : 0 < n -> (0 < ofNat n)%Q.
Proof. intros H. apply (ofNat_lt 0 n H). Qed.

Lemma Qfloor_lt_nat (q : Q) (n : nat) :
  0 < n -> (q < ofNat n)%Q -> Z.to_nat (Qfloor q) < n.
Proof.
  intros Hn H. assert (Qfloor q < Z.of_nat n)%Z; [|lia].
  apply Z.lt_nge. intros Hge. apply (Qlt_irrefl q).
  eapply Qlt_le_trans; [exact H|]. eapply Qle_trans; [|apply Qfloor_le].
  unfold ofNat. rewrite <- Zle_Qle. exact Hge.
Qed.

(** The nearest-neighbour source index stays inside the scaled buffer. *)
Lemma floorDiv_lt (x w sw : nat) :
  x < w -> 0 < sw -> floorDiv x (ofNat w / ofNat sw) < sw.
Proof.
  intros Hx Hsw. unfold floorDiv, Math_floor. apply Qfloor_lt_nat; [exact Hsw|].
  pose proof (ofNat_pos sw Hsw) as Hs. pose proof (ofNat_pos w ltac:(lia)) as Hw.
  apply Qlt_shift_div_r.
  - apply Qlt_shift_div_l; [exact Hs|]. rewrite Qmult_0_l. exact Hw.
  - assert (E : (ofNat sw * (ofNat w / ofNat sw) == ofNat w)%Q).
    { field. intros E. rewrite E in Hs. apply (Qlt_irrefl 0), Hs. }
    rewrite E. apply ofNat_lt, Hx.
Qed.

Lemma scaledSize_ge (dimension : nat) (resolution : Q) :
  2 <= scaledSize dimension resolution.
Proof. unfold scaledSize. lia. Qed.

End ScaleArithmetic.

(** ** The exported functions *)

Section EntryPoints.

(** At resolution 1.0 an exported function runs its own loops. *)
Lemma applyDithering_at_one fuel type data width height palette intensity :
  applyDithering (S fuel) type data width height palette intensity 1%Q =
  fullResolutionPass type data width height palette intensity.
Proof. reflexivity. Qed.

Lemma applyDithering_ge_one fuel type data width height palette intensity resolution :
  (1 <= resolution)%Q ->
  applyDithering (S fuel) type data width height palette intensity resolution =
  fullResolutionPass type data width height palette intensity.
Proof. intros H. apply Qltb_ge in H. simpl. rewrite H. reflexivity. Qed.

(** Below resolution 1.0 two levels of calls are enough: the call back
    into the exported function passes the literal 1.0. *)
Lemma applyDithering_below_one fuel type data width height palette intensity
    resolution c :
  (resolution < 1)%Q ->
  let scaledWidth := scaledSize width resolution in
  let scaledHeight := scaledSize height resolution in
  let scaleX := (ofNat width / ofNat scaledWidth)%Q in
  let scaleY := (ofNat height / ofNat scaledHeight)%Q in
  applyDithering (S (S fuel)) type data width height palette intensity resolution c =
  (scaledData <-
     fullResolutionPass type
       (downscale data width scaledWidth scaledHeight scaleX scaleY)
       scaledWidth scaledHeight palette intensity ;;
   ret (upscale data scaledData width height scaledWidth scaleX scaleY)) c.
Proof.
  intros H. apply Qltb_lt in H. cbn zeta.
  change (applyDithering (S (S fuel)) type data width height palette intensity resolution)
    with (if Qltb resolution 1
          then applyDitheringAtLowerResolution (applyDithering (S fuel))
                 data width height palette intensity resolution type
          else fullResolutionPass type data width height palette intensity).
  rewrite H. unfold applyDitheringAtLowerResolution.
  destruct type; rewrite applyDithering_at_one; reflexivity.
Qed.

Lemma entryPoints_kind fuel entry :
  entry ∈ entryPoints fuel -> exists type, entry = applyDithering fuel type.
Proof.
  unfold entryPoints. intros H.
  repeat (apply elem_of_cons in H as [->|H]; [eexists; reflexivity|]).
  apply elem_of_nil in H. contradiction.
Qed.

Lemma applyDithering_quantizes fuel type data width height palette intensity
    resolution cache :
  palette <> [] -> paletteBytes palette ->
  length data = 4 * (width * height) ->
  cacheWithin palette cache ->
  exists data' cache',
    applyDithering (S (S fuel)) type data width height palette intensity resolution cache
      = Done data' cache'
    /\ length data' = length data
    /\ cacheWithin palette cache'
    /\ (forall p, p < width * height -> rgbAt data' p ∈ palette)
    /\ ((1 <= resolution)%Q -> forall p, alphaAt data' p = alphaAt data p)
    /\ (forall p, p < width * height -> isByte (alphaAt data p) -> isByte (alphaAt data' p)).
Proof.
  intros Hne Hbytes Hlen Hc.
  destruct (Qlt_le_dec resolution 1) as [Hlt|Hge].
  - rewrite applyDithering_below_one by exact Hlt. cbn zeta.
    set (sw := scaledSize width resolution). set (sh := scaledSize height resolution).
    set (sx := (ofNat width / ofNat sw)%Q). set (sy := (ofNat height / ofNat sh)%Q).
    set (scaled := downscale data width sw sh sx sy).
    pose proof (scaledSize_ge width resolution) as Hsw. fold sw in Hsw.
    pose proof (scaledSize_ge height resolution) as Hsh. fold sh in Hsh.
    destruct (downscale_spec data width sw sh sx sy) as (Hsl & _). fold scaled in Hsl.
    destruct (fullResolutionPass_quantized palette Hne Hbytes type scaled sw sh intensity cache)
      as (scaled' & c' & Hrun & Hl' & Hrgb & _ & Hc'); [lia|exact Hc|].
    unfold bind. rewrite Hrun.
    destruct (upscale_spec data scaled' width height sw sx sy) as (Hol & Hov); [lia|].
    eexists _, c'. split; [reflexivity|].
    split; [lia|]. split; [exact Hc'|].
    assert (Hpix : forall p ch, p < width * height -> ch < 4 ->
              rd (upscale data scaled' width height sw sx sy) (4 * p + ch) =
              storeByte (rd scaled'
                (4 * (floorDiv (p / width) sy * sw + floorDiv (p mod width) sx) + ch))).
    { intros p ch Hp Hch.
      assert (Hw : width <> 0) by lia.
      pose proof (Nat.div_mod_eq p width) as Hdm.
      pose proof (Nat.mod_upper_bound p width Hw) as Hm.
      assert (Hd : p / width < height).
      { apply Nat.Div0.div_lt_upper_bound. lia. }
      specialize (Hov (p / width) (p mod width) ch Hd Hm Hch).
      replace ((p / width * width + p mod width) * 4 + ch) with (4 * p + ch) in Hov by lia.
      rewrite Hov. f_equal. f_equal. lia. }
    split; [|split].
    + intros p Hp.
      assert (Hw : width <> 0) by lia.
      pose proof (Nat.mod_upper_bound p width Hw) as Hm.
      assert (Hd : p / width < height).
      { apply Nat.Div0.div_lt_upper_bound. lia. }
      set (q := floorDiv (p / width) sy * sw + floorDiv (p mod width) sx).
      assert (Hq : q < sw * sh).
      { pose proof (floorDiv_lt (p mod width) width sw Hm ltac:(lia)) as Hx.
        pose proof (floorDiv_lt (p / width) height sh Hd ltac:(lia)) as Hy.
        fold sx in Hx. fold sy in Hy. subst q. nia. }
      specialize (Hrgb q Hq). unfold rgbAt in *.
      pose proof (Hpix p 0 Hp ltac:(lia)) as H0.
      pose proof (Hpix p 1 Hp ltac:(lia)) as H1.
      pose proof (Hpix p 2 Hp ltac:(lia)) as H2.
      rewrite Nat.add_0_r in H0. fold q in H0, H1, H2. rewrite Nat.add_0_r in H0.
      rewrite H0, H1, H2.
      destruct (Hbytes _ _ _ Hrgb) as (Hr & Hg & Hb).
      rewrite !storeByte_byte by assumption. exact Hrgb.
    + intros Hge. exfalso. apply (Qlt_irrefl 1). eapply Qle_lt_trans; eassumption.
    + intros p Hp _. unfold alphaAt. rewrite (Hpix p 3 Hp ltac:(lia)).
      apply storeByte_isByte.
  - rewrite applyDithering_ge_one by exact Hge.
    destruct (fullResolutionPass_quantized palette Hne Hbytes type data width height intensity cache)
      as (data' & c' & Hrun & Hl' & Hrgb & Halpha & Hc'); [exact Hlen|exact Hc|].
    exists data', c'. split; [exact Hrun|]. split; [exact Hl'|]. split; [exact Hc'|].
    split; [exact Hrgb|]. split; [intros _; exact Halpha|].
    intros p _ Hb. rewrite Halpha. exact Hb.
Qed.

End EntryPoints.

(** ** Sample inputs *)

Section SampleFacts.

Import Samples.

Lemma blackWhite_bytes : paletteBytes blackWhite.
Proof.
  intros pr pg pb H. unfold blackWhite, isByte in *.
  repeat (apply elem_of_cons in H as [[= -> -> ->]|H]; [lia|]).
  apply elem_of_nil in H. contradiction.
Qed.

Lemma paletteB_lacks_black : ~ (0, 0, 0)%Z ∈ paletteB.
Proof.
  unfold paletteB. intros H. apply elem_of_cons in H as [H|H]; [discriminate|].
  apply elem_of_nil in H. exact H.
Qed.

End SampleFacts.

(** * The claims *)

(** ** Quantizer *)




(** ** The five dithering functions *)




(** ** The resolution-scaled path *)




(** ** The cache across calls *)

Section CacheAcrossCalls.

Lemma cache_get_set_other (c : Cache) k v k' :
  k <> k' -> ColorCache.get (ColorCache.set c k v) k' = ColorCache.get c k'.
Proof.
  intros Hne. induction c as [|[k0 v0] t IH]; simpl.
  - destruct (Z.eqb_spec k k'); [contradiction|reflexivity].
  - destruct (Z.eqb_spec k0 k) as [->|Hk]; simpl.
    + destruct (Z.eqb_spec k k'); [contradiction|reflexivity].
    + destruct (Z.eqb_spec k0 k'); [reflexivity|exact IH].
Qed.

Lemma cacheKept_refl c : cacheKept c c.
Proof. split; [lia|auto]. Qed.

Lemma cacheKept_trans c1 c2 c3 : cacheKept c1 c2 -> cacheKept c2 c3 -> cacheKept c1 c3.
Proof.
  unfold cacheKept, ColorCache.size. intros [L1 K1] [L2 K2]. split; [lia|].
  intros Hsz k v Hk. apply K2; [exact Hsz|]. apply K1; [lia|exact Hk].
Qed.

Lemma findNearestColor_kept r g b palette c v c' :
  findNearestColor r g b palette c = Done v c' -> cacheKept c c'.
Proof.
  intros Hrun. split; [eapply findNearestColor_size, Hrun|].
  pose proof (findNearestColor_size _ _ _ _ _ _ _ Hrun) as Hlen.
  revert Hrun. unfold findNearestColor.
  destruct (ColorCache.get c (cacheKey r g b)) as [w|] eqn:Hget.
  - intros [= _ <-]. auto.
  - destruct (scanPalette r g b palette None (head palette)) as [n|]; [|discriminate].
    intros [= _ <-] Hsz k w Hk.
    destruct (Z.leb_spec MAX_CACHE_SIZE (ColorCache.size c)) as [Hfull|_].
    + unfold ColorCache.size in *. lia.
    + rewrite cache_get_set_other; [exact Hk|]. intros <-. congruence.
Qed.

Lemma bind_done {A B} (m : M A) (f : A -> M B) c b c'' :
  bind m f c = Done b c'' -> exists a c', m c = Done a c' /\ f a c' = Done b c''.
Proof.
  unfold bind. destruct (m c) as [a c'| |]; try discriminate. eauto.
Qed.

Lemma bayerPass_kept data width height palette intensity c data' c' :
  bayerPass data width height palette intensity c = Done data' c' -> cacheKept c c'.
Proof.
  unfold bayerPass.
  apply (forM_cache cacheKept); [apply cacheKept_refl|apply cacheKept_trans|].
  intros d i c0 d' c0' H. unfold bayerPixel in H.
  apply bind_done in H as (v & c1 & Hf & Hr). injection Hr as _ <-.
  eapply findNearestColor_kept, Hf.
Qed.

Lemma diffusionRow_kept k width height palette intensity st y c st' c' :
  diffusionRow k width height palette intensity st y c = Done st' c' -> cacheKept c c'.
Proof.
  destruct st as [[d e] cur]. unfold diffusionRow. intros H.
  apply bind_done in H as (st1 & c1 & Hf & Hr). injection Hr as _ <-.
  revert Hf. apply (forM_cache cacheKept); [apply cacheKept_refl|apply cacheKept_trans|].
  intros [d0 e0] x c0 st2 c2 H. unfold diffusionPixel in H.
  apply bind_done in H as (v & c3 & Hf & Hr). destruct v as [[pr pg] pb].
  injection Hr as _ <-. eapply findNearestColor_kept, Hf.
Qed.

Lemma diffusionPass_kept k data width height palette intensity c data' c' :
  diffusionPass k data width height palette intensity c = Done data' c' -> cacheKept c c'.
Proof.
  unfold diffusionPass. intros H.
  apply bind_done in H as (st1 & c1 & Hf & Hr). injection Hr as _ <-.
  revert Hf. apply (forM_cache cacheKept); [apply cacheKept_refl|apply cacheKept_trans|].
  intros st y c0 st' c0'. apply diffusionRow_kept.
Qed.

Lemma fullResolutionPass_kept type data width height palette intensity c data' c' :
  fullResolutionPass type data width height palette intensity c = Done data' c' ->
  cacheKept c c'.
Proof.
  unfold fullResolutionPass. destruct (kernelOf type).
  - apply diffusionPass_kept.
  - apply bayerPass_kept.
Qed.

Lemma applyDithering_kept fuel type data width height palette intensity resolution
    c data' c' :
  applyDithering fuel type data width height palette intensity resolution c
    = Done data' c' ->
  cacheKept c c'.
Proof.
  revert type data width height intensity resolution c data' c'.
  induction fuel as [|fuel IH]; intros type data width height intensity resolution c data' c';
    [discriminate|].
  cbn [applyDithering]. destruct (Qltb resolution 1).
  - unfold applyDitheringAtLowerResolution. intros H.
    apply bind_done in H as (sd & c1 & Hf & Hr). injection Hr as _ <-.
    destruct type; eapply IH, Hf.
  - apply fullResolutionPass_kept.
Qed.

End CacheAcrossCalls.

(** C5: a cache hit returns the stored colour whatever palette is passed;
    none of the five dithering functions empties the cache (it never
    shrinks, and below capacity keeps every binding), whereas
    [reduceColorsTopalette] starts from an empty one; and for each of the
    five functions, quantizing one pixel under palette A and then the
    same pixel under palette B yields A's colour, which B lacks. *)
Theorem cache_outlives_palette :
  (forall r g b palette palette' cache v,
     ColorCache.get cache (cacheKey r g b) = Some v ->
     findNearestColor r g b palette cache = Done v cache
     /\ findNearestColor r g b palette' cache = Done v cache)
  /\ (forall fuel (entry : list Z -> nat -> nat -> Palette -> Q -> Q -> M (list Z))
             data width height palette intensity resolution cache data' cache',
        entry ∈ entryPoints fuel ->
        entry data width height palette intensity resolution cache = Done data' cache' ->
        cacheKept cache cache')
  /\ (forall data palette cache,
        reduceColorsTopalette data palette cache = reduceColorsTopalette data palette [])
  /\ (forall entry : list Z -> nat -> nat -> Palette -> Q -> Q -> M (list Z),
        entry ∈ entryPoints 2 ->
        exists underA cacheA underB cacheB,
          entry Samples.onePixel 1 1 Samples.paletteA 0%Q 1%Q [] = Done underA cacheA
          /\ entry Samples.onePixel 1 1 Samples.paletteB 0%Q 1%Q cacheA
             = Done underB cacheB
          /\ rgbAt underA 0 ∈ Samples.paletteA
          /\ rgbAt underB 0 = rgbAt underA 0
          /\ Samples.paletteB <> []
          /\ ~ rgbAt underB 0 ∈ Samples.paletteB).
Proof.
  split; [|split; [|split]].
  - intros r g b palette palette' cache v Hget.
    split; apply findNearestColor_hit, Hget.
  - intros fuel entry data width height palette intensity resolution cache data' cache' He.
    destruct (entryPoints_kind fuel entry He) as (type & ->).
    apply applyDithering_kept.
  - reflexivity.
  - intros entry He. unfold entryPoints in He.
    repeat (apply elem_of_cons in He as [->|He];
            [eexists _, _, _, _; split; [vm_compute; reflexivity|];
             split; [vm_compute; reflexivity|];
             split; [apply list_elem_of_here|];
             split; [reflexivity|];
             split; [discriminate|apply paletteB_lacks_black]|]).
    apply elem_of_nil in He. contradiction.
Qed.

(** ** The export hook *)

Import Scheduler.

(** C4: in the GIF frame loop and in the video capture loop, whenever a
    dithering function is called it is [applyBayerDithering] for
    ['bayer'] and [applyFloydSteinbergDithering] for every other type,
    with the settings' intensity and resolution; the JJN, Stucki and
    Sierra functions are not among the functions either loop can call,
    so a frame exported with type ['jjn'], ['stucki'] or ['sierra'] is
    the Floyd-Steinberg frame. *)
Theorem export_dithering_dispatch :
  (forall s, asciiEnabled s = false -> ditheringEnabled s = true ->
     gifFrameCall s = Some (match ditheringType s with
                            | bayer => import_applyBayerDithering
                            | _ => import_applyFloydSteinbergDithering
                            end)
     /\ videoFrameCall s = gifFrameCall s)
  /\ (forall s f, gifFrameCall s = Some f \/ videoFrameCall s = Some f ->
        f = import_reduceColorsTopalette
        \/ (f = import_applyBayerDithering /\ ditheringType s = bayer)
        \/ (f = import_applyFloydSteinbergDithering /\ ditheringType s <> bayer))
  /\ (forall palettes fuel s data processWidth processHeight,
        asciiEnabled s = false -> ditheringEnabled s = true ->
        let run := match ditheringType s with
                   | bayer => applyBayerDithering
                   | _ => applyFloydSteinbergDithering
                   end in
        gifFrameEffects palettes fuel s data processWidth processHeight =
          run fuel data processWidth processHeight (palettes (paletteType s))
            (ditheringIntensity s) (ditheringResolution s)
        /\ videoFrameEffects palettes fuel s data processWidth processHeight =
           gifFrameEffects palettes fuel s data processWidth processHeight).
Proof.
  split; [|split].
  - intros s Ha Hd. unfold videoFrameCall, gifFrameCall, effectsCall.
    rewrite Ha, Hd. simpl. split; [|reflexivity]. destruct (ditheringType s); reflexivity.
  - intros s f. unfold videoFrameCall, gifFrameCall, effectsCall.
    destruct (asciiEnabled s); [intros [H|H]; discriminate|].
    destruct (ditheringEnabled s); simpl.
    + destruct (ditheringType s); intros [[= <-]|[= <-]]; auto;
        right; right; (split; [reflexivity|discriminate]).
    + destruct (isFull (paletteType s)); simpl; intros [H|H];
        try discriminate; injection H as <-; auto.
  - intros palettes fuel s data pw ph Ha Hd. cbv zeta.
    unfold videoFrameEffects, gifFrameEffects, videoFrameCall, gifFrameCall, effectsCall.
    rewrite Ha, Hd. simpl. split; [|reflexivity].
    destruct (ditheringType s); reflexivity.
Qed.

Lemma export_dithering_dispatch_witness :
  let s := {| asciiEnabled := false; ditheringEnabled := true; ditheringType := jjn;
              ditheringIntensity := 1; ditheringResolution := 1;
              paletteType := gameboy |} in
  gifFrameCall s = Some import_applyFloydSteinbergDithering
  /\ videoFrameCall s = gifFrameCall s.
Proof.
  intros s. apply (proj1 export_dithering_dispatch s); reflexivity.
Defined.

(** ** The capture loop *)

Section CaptureLoop.

Variable exportFps : Q.

Let sound (st : Capture) : Prop :=
  strictlyIncreasing (frames st)
  /\ (0 <= capturedFrames st)%Z
  /\ forall a, a ∈ frames st -> (0 < a <= capturedFrames st)%Z.

Lemma strictlyIncreasing_snoc (l : list Z) (n : Z) :
  strictlyIncreasing l -> (forall a, a ∈ l -> (a < n)%Z) ->
  strictlyIncreasing (l ++ [n]).
Proof.
  intros Hl Hn i j a b Hij Ha Hb.
  apply lookup_app_Some in Hb as [Hb|[Hge Hb]].
  - apply lookup_app_Some in Ha as [Ha|[Hge _]].
    + eapply Hl; eauto.
    + apply lookup_lt_Some in Hb. lia.
  - apply list_lookup_singleton_Some in Hb as [Hj <-].
    apply lookup_app_Some in Ha as [Ha|[Hge' Ha]].
    + apply Hn. eapply list_elem_of_lookup_2, Ha.
    + apply list_lookup_singleton_Some in Ha as [Hi _]. lia.
Qed.

Lemma captureTick_sound st t : sound st -> sound (captureTick exportFps st t).
Proof.
  intros (Hinc & H0 & Hle). unfold captureTick.
  destruct (Z.leb_spec (Math_floor (elapsed t / 1000 * exportFps)) (capturedFrames st))
    as [_|Hgt]; [repeat split; auto; apply Hle; auto|].
  destruct (drawn t); (split; [|split]); cbn [frames capturedFrames].
  - apply strictlyIncreasing_snoc; [exact Hinc|].
    intros a Ha. specialize (Hle a Ha). lia.
  - lia.
  - intros a Ha. apply elem_of_app in Ha as [Ha|Ha].
    + specialize (Hle a Ha). lia.
    + apply list_elem_of_singleton in Ha as ->. lia.
  - exact Hinc.
  - lia.
  - intros a Ha. specialize (Hle a Ha). lia.
Qed.

Lemma captureLoop_sound ticks : sound (captureLoop exportFps ticks).
Proof.
  unfold captureLoop.
  apply (fold_left_inv (fun _ st => sound st) (captureTick exportFps) ticks).
  - split; [|split]; cbn [frames capturedFrames].
    + intros i j a b _ Ha. rewrite lookup_nil in Ha. discriminate.
    + lia.
    + intros a Ha. apply elem_of_nil in Ha. contradiction.
  - intros n t st _. apply captureTick_sound.
Qed.

End CaptureLoop.

(** C6: a tick of the capture loop draws a frame only when the frame
    number implied by the elapsed time exceeds [capturedFrames], and
    then records that number; so whatever the tick times, the frame
    numbers drawn over a run are strictly increasing, none occurs twice,
    and each lies above 0 and at most at the last captured number. *)
Theorem capture_frames_strictly_increasing (exportFps : Q) (ticks : list Tick) :
  (forall st t,
     let n := Math_floor (elapsed t / 1000 * exportFps) in
     (frames (captureTick exportFps st t) = frames st
      /\ ((n <= capturedFrames st)%Z \/ drawn t = false))
     \/ ((capturedFrames st < n)%Z
         /\ frames (captureTick exportFps st t) = frames st ++ [n]
         /\ capturedFrames (captureTick exportFps st t) = n))
  /\ strictlyIncreasing (frames (captureLoop exportFps ticks))
  /\ NoDup (frames (captureLoop exportFps ticks))
  /\ (forall a, a ∈ frames (captureLoop exportFps ticks) ->
        (0 < a <= capturedFrames (captureLoop exportFps ticks))%Z).
Proof.
  split.
  { intros st t n. subst n. unfold captureTick.
    destruct (Z.leb_spec (Math_floor (elapsed t / 1000 * exportFps)) (capturedFrames st))
      as [Hle|Hgt]; [left; auto|].
    destruct (drawn t); cbn [frames capturedFrames]; [right; auto|left; auto]. }
  destruct (captureLoop_sound exportFps ticks) as (Hinc & _ & Hle).
  split; [exact Hinc|]. split; [|exact Hle].
  apply NoDup_alt. intros i j a Hi Hj.
  destruct (Nat.lt_trichotomy i j) as [Hlt|[E|Hgt]]; [|exact E|].
  - pose proof (Hinc i j a a Hlt Hi Hj). lia.
  - pose proof (Hinc j i a a Hgt Hj Hi). lia.
Qed.


(** Linear goals in which the only divisions are by 2. *)
Ltac halves := unfold Qdiv; change (/ 2)%Q with (1 # 2)%Q; lra.

(** C8: for positive sizes the crop rectangle follows the two-branch
    formula; it lies inside the source (nothing is padded), is centred on
    it and has the export aspect ratio.  A 1920 x 1080 source exported at
    1080 x 1080 is cropped to width 1080 at [cropX = 420], [cropY = 0]. *)
Theorem crop_rectangle_centered :
  (forall ew eh sw sh : Q,
     (0 < ew)%Q -> (0 < eh)%Q -> (0 < sw)%Q -> (0 < sh)%Q ->
     let c := cropRect ew eh sw sh in
     ((sw / sh < ew / eh)%Q ->
        (cropWidth c == sw)%Q /\ (cropHeight c == sw / (ew / eh))%Q
        /\ (cropX c == 0)%Q /\ (cropY c == (sh - cropHeight c) / 2)%Q)
     /\ ((ew / eh <= sw / sh)%Q ->
        (cropHeight c == sh)%Q /\ (cropWidth c == sh * (ew / eh))%Q
        /\ (cropY c == 0)%Q /\ (cropX c == (sw - cropWidth c) / 2)%Q)
     /\ (0 <= cropX c)%Q /\ (0 <= cropY c)%Q
     /\ (cropX c + cropWidth c <= sw)%Q /\ (cropY c + cropHeight c <= sh)%Q
     /\ (cropX c + cropWidth c / 2 == sw / 2)%Q
     /\ (cropY c + cropHeight c / 2 == sh / 2)%Q
     /\ (cropWidth c / cropHeight c == ew / eh)%Q)
  /\ (let c := cropRect 1080 1080 1920 1080 in
      (cropWidth c == 1080)%Q /\ (cropHeight c == 1080)%Q
      /\ (cropX c == 420)%Q /\ (cropY c == 0)%Q).
Proof.
  split; [|cbv zeta; repeat split; reflexivity].
  intros ew eh sw sh Hew Heh Hsw Hsh. cbv zeta.
  assert (Hea : (0 < ew / eh)%Q).
  { apply Qlt_shift_div_l; [exact Heh|]. rewrite Qmult_0_l. exact Hew. }
  assert (Hsa : (sw / sh * sh == sw)%Q) by (field; lra).
  set (ea := (ew / eh)%Q) in *. set (sa := (sw / sh)%Q) in *.
  assert (Hinv : (sw / ea * ea == sw)%Q) by (field; lra).
  unfold cropRect. fold ea sa.
  destruct (Qltb sa ea) eqn:Hcmp; cbn [cropWidth cropHeight cropX cropY].
  - apply Qltb_lt in Hcmp.
    set (chh := (sw / ea)%Q) in *.
    assert (Hle : (chh <= sh)%Q) by nra.
    assert (Hpos : (0 < chh)%Q) by nra.
    split; [intros _; repeat split; reflexivity|].
    split; [intros Hge; lra|].
    split; [lra|]. split; [halves|]. split; [lra|]. split; [halves|].
    split; [halves|]. split; [halves|].
    unfold chh. field. lra.
  - apply Qltb_ge in Hcmp.
    set (cw := (sh * ea)%Q) in *.
    assert (Hle : (cw <= sw)%Q) by (unfold cw; nra).
    split; [intros Hlt; lra|].
    split; [intros _; repeat split; reflexivity|].
    split; [halves|]. split; [lra|]. split; [halves|]. split; [lra|].
    split; [halves|]. split; [halves|].
    unfold cw. field. lra.
Qed.

Lemma crop_rectangle_centered_witness :
  let c := cropRect 1280 720 1920 1080 in
  (0 <= cropX c)%Q /\ (0 <= cropY c)%Q
  /\ (cropX c + cropWidth c <= 1920)%Q /\ (cropY c + cropHeight c <= 1080)%Q.
Proof.
  destruct (proj1 crop_rectangle_centered 1280%Q 720%Q 1920%Q 1080%Q)
    as (_ & _ & H1 & H2 & H3 & H4 & _); try reflexivity.
  cbv zeta. repeat split; assumption.
Defined.

(** C9, evaluated on the code: for the 60 frames of a 2-second loop at
    30 frames per second, the frame loop reports [i / 60] up to [59 / 60];
    the first encoder event, at a tenth of the encoding, reports
    [0.5 + 0.1 * 0.5], which is less.  The reports of the frame loop
    alone are non-decreasing; the whole sequence is not, with or without
    the resets to 0. *)
Theorem gif_progress_reports_decrease :
  targetFrameCount (exportTiming 2 1 30) = 60%Z
  /\ nonDecreasing (gifFrameReports 60) = true
  /\ (exists a b,
        last (gifFrameReports 60) = Some a
        /\ head (gifEncoderReports [1 # 10]) = Some b
        /\ (a == 59 # 60)%Q /\ (b == 11 # 20)%Q /\ (b < a)%Q)
  /\ nonDecreasing (gifFrameReports 60 ++ gifEncoderReports [1 # 10]) = false
  /\ nonDecreasing (gifProgressReports 60 [1 # 10]) = false.
Proof.
  split; [reflexivity|]. split; [vm_compute; reflexivity|].
  split; [|split; vm_compute; reflexivity].
  eexists _, _. split; [vm_compute; reflexivity|]. split; [vm_compute; reflexivity|].
  repeat split.
Qed.

(** ** Error diffusion: what a pixel hands out *)

Section Diffusion.

Lemma addAt_length eb i v : length (addAt eb i v) = length eb.
Proof. unfold addAt. destruct (eb !! i); [apply length_insert|reflexivity]. Qed.

Lemma applyTap_length eR eG eB eb t : length (applyTap eR eG eB eb t) = length eb.
Proof. destruct t as [i w]. unfold applyTap. rewrite !addAt_length. reflexivity. Qed.

Lemma channelTotalFrom_insert ch (eb : list Q) pos i e v :
  eb !! i = Some e ->
  (channelTotalFrom pos ch (<[i := (e + v)%Q]> eb) ==
   channelTotalFrom pos ch eb + (if (pos + i) mod 3 =? ch then v else 0))%Q.
Proof.
  revert pos i. induction eb as [|a eb IH]; intros pos i Hi; [discriminate|].
  destruct i as [|i]; cbn -[Nat.modulo] in Hi |- *.
  - injection Hi as ->. rewrite Nat.add_0_r.
    destruct (pos mod 3 =? ch); lra.
  - rewrite (IH (S pos) i Hi). replace (S pos + i) with (pos + S i) by lia. lra.
Qed.

Lemma channelTotal_addAt ch (eb : list Q) i v :
  i < length eb ->
  (channelTotal ch (addAt eb i v) ==
   channelTotal ch eb + (if i mod 3 =? ch then v else 0))%Q.
Proof.
  intros Hi. unfold addAt, channelTotal.
  destruct (lookup_lt_is_Some_2 eb i Hi) as [e He]. rewrite He.
  apply (channelTotalFrom_insert ch eb 0 i e v He).
Qed.

Lemma mod3_shift i j : i mod 3 = 0 -> j < 3 -> (i + j) mod 3 = j.
Proof.
  intros Hi Hj. rewrite Nat.Div0.add_mod, Hi. cbn [plus].
  rewrite Nat.Div0.mod_mod. apply Nat.mod_small, Hj.
Qed.

Lemma applyTap_channel eR eG eB (eb : list Q) i w ch :
  aligned eb (i, w) -> ch < 3 ->
  (channelTotal ch (applyTap eR eG eB eb (i, w)) ==
   channelTotal ch eb + component (eR, eG, eB) ch * inject_Z w)%Q.
Proof.
  intros [Hmod Hlen] Hch. cbn [fst] in *. unfold applyTap.
  rewrite channelTotal_addAt by (rewrite !addAt_length; lia).
  rewrite channelTotal_addAt by (rewrite !addAt_length; lia).
  rewrite channelTotal_addAt by lia.
  rewrite (mod3_shift i 1), (mod3_shift i 2), Hmod by (assumption || lia).
  destruct ch as [|[|[|ch]]]; [| | |lia]; cbn [Nat.eqb component]; lra.
Qed.

Lemma diffuse_channel eR eG eB ts (eb : list Q) ch :
  Forall (aligned eb) ts -> ch < 3 ->
  (channelTotal ch (diffuse eb ts eR eG eB) ==
   channelTotal ch eb + component (eR, eG, eB) ch * inject_Z (tapWeights ts))%Q.
Proof.
  intros Hts Hch. unfold diffuse. revert eb Hts.
  induction ts as [|[i w] ts IH]; intros eb Hts.
  - cbn [fold_left tapWeights map sumZ foldr]. change (inject_Z 0) with 0%Q. lra.
  - apply Forall_cons in Hts as [Ht Hts]. cbn [fold_left].
    rewrite IH.
    + rewrite applyTap_channel by assumption.
      unfold tapWeights. cbn [map sumZ foldr snd]. fold (sumZ (map snd ts)).
      rewrite inject_Z_plus. lra.
    + eapply Forall_impl; [exact Hts|]. intros t [Hm Hl]. split; [exact Hm|].
      rewrite applyTap_length. exact Hl.
Qed.

Lemma mod3_add a b : a mod 3 = 0 -> b mod 3 = 0 -> (a + b) mod 3 = 0.
Proof. intros Ha Hb. rewrite Nat.Div0.add_mod, Ha, Hb. reflexivity. Qed.

Lemma mod3_mul a b : (a * (b * 3)) mod 3 = 0.
Proof. rewrite Nat.mul_assoc. apply Nat.Div0.mod_mul. Qed.

End Diffusion.

(** The index of a tap is a multiple of 3 inside the buffer. *)
Ltac tap_aligned :=
  split; cbn [fst];
  [ repeat apply mod3_add;
    first [apply mod3_mul | apply Nat.Div0.mod_mul | reflexivity]
  | nia ].

(** Decide the edge tests of a kernel at an interior pixel. *)
Ltac edge_tests :=
  repeat match goal with
         | |- context [?a <? ?b] =>
             rewrite (proj2 (Nat.ltb_lt a b)) by lia
         end;
  cbn [andb tapIf app].

Section Kernels.

Variables x y width height : nat.
Hypothesis inside : interior x y width height.

Lemma fs_taps cur (eb : list Q) :
  cur < 2 -> length eb = (width + 2) * 3 * 2 ->
  Forall (aligned eb) (tapsAt fsKernel x y width height cur)
  /\ tapWeights (tapsAt fsKernel x y width height cur) = 16%Z.
Proof.
  destruct inside as (Hx & Hw & Hh). intros Hcur Hlen.
  unfold tapsAt. cbn [taps fsKernel padding origin nextRowOf nextNextRowOf].
  unfold fsTaps. edge_tests. split; [|reflexivity].
  repeat (apply Forall_cons; split; [tap_aligned|]). apply Forall_nil. exact I.
Qed.

Lemma jjn_taps cur (eb : list Q) :
  cur < 3 -> length eb = (width + 6) * 3 * 3 ->
  Forall (aligned eb) (tapsAt jjnKernel x y width height cur)
  /\ tapWeights (tapsAt jjnKernel x y width height cur) = 48%Z.
Proof.
  destruct inside as (Hx & Hw & Hh). intros Hcur Hlen.
  unfold tapsAt. cbn [taps jjnKernel padding origin nextRowOf nextNextRowOf].
  unfold jjnTaps. edge_tests. split; [|reflexivity].
  pose proof (Nat.mod_upper_bound (cur + 1) 3 ltac:(lia)).
  pose proof (Nat.mod_upper_bound (cur + 2) 3 ltac:(lia)).
  repeat (apply Forall_cons; split; [tap_aligned|]). apply Forall_nil. exact I.
Qed.

Lemma stucki_taps cur (eb : list Q) :
  cur < 2 -> length eb = (width + 4) * 3 * 2 ->
  Forall (aligned eb) (tapsAt stuckiKernel x y width height cur)
  /\ tapWeights (tapsAt stuckiKernel x y width height cur) = 32%Z.
Proof.
  destruct inside as (Hx & Hw & Hh). intros Hcur Hlen.
  unfold tapsAt. cbn [taps stuckiKernel padding origin nextRowOf nextNextRowOf].
  unfold stuckiTaps. edge_tests. split; [|reflexivity].
  repeat (apply Forall_cons; split; [tap_aligned|]). apply Forall_nil. exact I.
Qed.

Lemma sierra_taps cur (eb : list Q) :
  cur < 2 -> length eb = (width + 4) * 3 * 2 ->
  Forall (aligned eb) (tapsAt sierraKernel x y width height cur)
  /\ tapWeights (tapsAt sierraKernel x y width height cur) = 25%Z.
Proof.
  destruct inside as (Hx & Hw & Hh). intros Hcur Hlen.
  unfold tapsAt. cbn [taps sierraKernel padding origin nextRowOf nextNextRowOf].
  unfold sierraTaps. edge_tests. split; [|reflexivity].
  repeat (apply Forall_cons; split; [tap_aligned|]). apply Forall_nil. exact I.
Qed.

End Kernels.



(** ** A remark on the three-row buffer *)

Lemma clearRow_zero (eb : list Q) (start len i : nat) :
  start <= i < start + len -> rdQ (clearRow eb start len) i = 0%Q.
Proof.
  intros Hi. unfold clearRow.
  pose proof (fold_left_inv
                (fun n (b : list Q) =>
                   forall j, start <= j < start + n -> rdQ b j = 0%Q)
                (fun b j => <[j := 0%Q]> b) (seq start len) eb) as F.
  rewrite length_seq in F. apply F; [intros j Hj; lia| |exact Hi].
  intros n j b Hj Hb k Hk. apply lookup_seq in Hj as [-> Hn]. unfold rdQ.
  destruct (decide (k = start + n)) as [->|Hne].
  - destruct (decide (start + n < length b)) as [Hlt|Hge].
    + rewrite list_lookup_insert_eq by exact Hlt. reflexivity.
    + rewrite lookup_ge_None_2 by (rewrite length_insert; lia). reflexivity.
  - rewrite list_lookup_insert_ne by lia. apply Hb. lia.
Qed.

(** The row that the Jarvis-Judice-Ninke loop treats as "next next" on
    one scanline is its "next" row on the following scanline, and is
    zeroed there before any pixel reads it. *)
Remark jjn_row_after_next_is_cleared (cur : nat) :
  cur < 3 ->
  nextRowOf jjnKernel (nextRowOf jjnKernel cur) = nextNextRowOf jjnKernel cur
  /\ clearsNextNext jjnKernel = true.
Proof.
  intros H. split; [|reflexivity].
  destruct cur as [|[|[|cur]]]; [reflexivity|reflexivity|reflexivity|lia].
Qed.

(** * Further properties of the code *)

(** ** The cache as a bounded queue *)

Section CacheQueue.

Lemma cache_set_absent (c : Cache) k v :
  ColorCache.get c k = None -> ColorCache.set c k v = c ++ [(k, v)].
Proof.
  induction c as [|[k0 v0] t IH]; simpl; [reflexivity|].
  destruct (Z.eqb_spec k0 k); [discriminate|]. intros H. rewrite IH by exact H. reflexivity.
Qed.

Lemma cache_delete_first (c : Cache) :
  match ColorCache.firstKey c with
  | Some k => ColorCache.delete c k
  | None => c
  end = tail c.
Proof.
  destruct c as [|[k0 v0] t]; simpl; [reflexivity|]. rewrite Z.eqb_refl. reflexivity.
Qed.

Lemma cache_get_tail_none (c : Cache) k :
  ColorCache.get c k = None -> ColorCache.get (tail c) k = None.
Proof.
  destruct c as [|[k0 v0] t]; simpl; [auto|].
  destruct (Z.eqb_spec k0 k); [discriminate|auto].
Qed.

(** The shape of the cache after a miss. *)
Lemma findNearestColor_miss_queue r g b palette cache v cache' :
  ColorCache.get cache (cacheKey r g b) = None ->
  findNearestColor r g b palette cache = Done v cache' ->
  cache' = (if (MAX_CACHE_SIZE <=? ColorCache.size cache)%Z then tail cache else cache)
           ++ [(cacheKey r g b, v)].
Proof.
  intros Hmiss. unfold findNearestColor. rewrite Hmiss.
  destruct (scanPalette r g b palette None (head palette)) as [n|]; [|discriminate].
  intros [= <- <-]. rewrite cache_delete_first.
  destruct (MAX_CACHE_SIZE <=? ColorCache.size cache)%Z.
  - apply cache_set_absent, cache_get_tail_none, Hmiss.
  - apply cache_set_absent, Hmiss.
Qed.

Lemma findNearestColor_bounded r g b palette cache v cache' :
  findNearestColor r g b palette cache = Done v cache' ->
  (ColorCache.size cache <= MAX_CACHE_SIZE)%Z ->
  (ColorCache.size cache' <= MAX_CACHE_SIZE)%Z.
Proof.
  destruct (ColorCache.get cache (cacheKey r g b)) as [w|] eqn:Hget.
  - rewrite (findNearestColor_hit _ _ _ _ _ _ Hget). intros [= _ <-]. auto.
  - intros Hrun. rewrite (findNearestColor_miss_queue _ _ _ _ _ _ _ Hget Hrun).
    unfold ColorCache.size, MAX_CACHE_SIZE. rewrite length_app. cbn [length].
    destruct (Z.leb_spec 8192 (Z.of_nat (length cache))) as [Hfull|Hroom]; intros Hle.
    + destruct cache as [|e t]; cbn [tail length] in *; lia.
    + lia.
Qed.

End CacheQueue.

(** X1: [findNearestColor] keeps the cache a first-in first-out queue.
    A hit changes nothing, not even the order; a miss appends the new
    binding at the end, after dropping the oldest binding when the cache
    already holds [MAX_CACHE_SIZE] entries.  So eviction goes by age of
    insertion, never by recency of use. *)
Theorem cache_is_fifo (r g b : Z) (palette : Palette) (cache : Cache) :
  palette <> [] ->
  exists v cache',
    findNearestColor r g b palette cache = Done v cache'
    /\ match ColorCache.get cache (cacheKey r g b) with
       | Some w => v = w /\ cache' = cache
       | None =>
           cache' =
           (if (MAX_CACHE_SIZE <=? ColorCache.size cache)%Z then tail cache else cache)
           ++ [(cacheKey r g b, v)]
       end.
Proof.
  intros Hne. destruct (ColorCache.get cache (cacheKey r g b)) as [w|] eqn:Hget.
  - exists w, cache. split; [apply findNearestColor_hit, Hget|auto].
  - destruct (findNearestColor_miss r g b palette cache Hne Hget) as (v & c' & Hrun & _).
    exists v, c'. split; [exact Hrun|].
    eapply findNearestColor_miss_queue; eassumption.
Qed.

Lemma cache_is_fifo_witness :
  exists v cache',
    findNearestColor 10 10 10 Samples.blackWhite
      [(cacheKey 200 200 200, (255, 255, 255)%Z)] = Done v cache'
    /\ match ColorCache.get [(cacheKey 200 200 200, (255, 255, 255)%Z)]
               (cacheKey 10 10 10) with
       | Some w => v = w /\ cache' = [(cacheKey 200 200 200, (255, 255, 255)%Z)]
       | None =>
           cache' =
           (if (MAX_CACHE_SIZE <=?
                ColorCache.size [(cacheKey 200 200 200, (255, 255, 255)%Z)])%Z
            then tail [(cacheKey 200 200 200, (255, 255, 255)%Z)]
            else [(cacheKey 200 200 200, (255, 255, 255)%Z)])
           ++ [(cacheKey 10 10 10, v)]
       end.
Proof.
  apply (cache_is_fifo 10 10 10 Samples.blackWhite
           [(cacheKey 200 200 200, (255, 255, 255)%Z)]).
  discriminate.
Defined.

(** X2: a cache within its capacity stays within it, through
    [findNearestColor], through each of the five dithering functions and
    through [reduceColorsTopalette] (which starts from an empty cache). *)
Theorem cache_capacity_kept :
  (forall r g b palette cache v cache',
     findNearestColor r g b palette cache = Done v cache' ->
     (ColorCache.size cache <= MAX_CACHE_SIZE)%Z ->
     (ColorCache.size cache' <= MAX_CACHE_SIZE)%Z)
  /\ (forall fuel type data width height palette intensity resolution cache data' cache',
        applyDithering fuel type data width height palette intensity resolution cache
          = Done data' cache' ->
        (ColorCache.size cache <= MAX_CACHE_SIZE)%Z ->
        (ColorCache.size cache' <= MAX_CACHE_SIZE)%Z)
  /\ (forall data palette cache data' cache',
        reduceColorsTopalette data palette cache = Done data' cache' ->
        (ColorCache.size cache' <= MAX_CACHE_SIZE)%Z).
Proof.
  set (R := fun c c' : Cache =>
              (ColorCache.size c <= MAX_CACHE_SIZE)%Z ->
              (ColorCache.size c' <= MAX_CACHE_SIZE)%Z).
  assert (Rrefl : forall c, R c c) by (intros c H; exact H).
  assert (Rtrans : forall c1 c2 c3, R c1 c2 -> R c2 c3 -> R c1 c3)
    by (intros c1 c2 c3 H1 H2 H; auto).
  assert (Rfind : forall r g b palette c v c',
            findNearestColor r g b palette c = Done v c' -> R c c')
    by (intros r g b palette c v c' H Hle; eapply findNearestColor_bounded; eassumption).
  assert (Rfull : forall type data width height palette intensity c data' c',
            fullResolutionPass type data width height palette intensity c = Done data' c' ->
            R c c').
  { intros type data width height palette intensity c data' c'.
    unfold fullResolutionPass. destruct (kernelOf type) as [k|].
    - unfold diffusionPass. intros H.
      apply bind_done in H as (st1 & c1 & Hf & Hr). injection Hr as _ <-.
      revert Hf. apply (forM_cache R); [exact Rrefl|exact Rtrans|].
      intros [[d e] cur] y c0 st' c0' H. unfold diffusionRow in H.
      apply bind_done in H as (st2 & c2 & Hf & Hr). injection Hr as _ <-.
      revert Hf. apply (forM_cache R); [exact Rrefl|exact Rtrans|].
      intros [d0 e0] x c3 st3 c4 H. unfold diffusionPixel in H.
      apply bind_done in H as (v & c5 & Hf & Hr). destruct v as [[pr pg] pb].
      injection Hr as _ <-. eapply Rfind, Hf.
    - unfold bayerPass.
      apply (forM_cache R); [exact Rrefl|exact Rtrans|].
      intros d i c0 d' c0' H. unfold bayerPixel in H.
      apply bind_done in H as (v & c1 & Hf & Hr). injection Hr as _ <-.
      eapply Rfind, Hf. }
  split; [exact Rfind|]. split.
  - intros fuel. induction fuel as [|fuel IH];
      intros type data width height palette intensity resolution cache data' cache';
      [discriminate|].
    cbn [applyDithering]. destruct (Qltb resolution 1).
    + unfold applyDitheringAtLowerResolution. intros H.
      apply bind_done in H as (sd & c1 & Hf & Hr). injection Hr as _ <-.
      destruct type; eapply IH, Hf.
    + apply Rfull.
  - intros data palette cache data' cache' H. unfold reduceColorsTopalette in H.
    assert (Hg : R [] cache'); [|apply Hg; unfold ColorCache.size, MAX_CACHE_SIZE; simpl; lia].
    revert H. apply (forM_cache R); [exact Rrefl|exact Rtrans|].
    intros d c c0 d' c0'. apply (forM_cache R); [exact Rrefl|exact Rtrans|].
    intros d1 j c1 d2 c2 H. unfold reducePixel in H.
    apply bind_done in H as (v & c3 & Hf & Hr). injection Hr as _ <-.
    eapply Rfind, Hf.
Qed.

(** X3: on 8-bit channels the packed cache key is [r * 65536 + g * 256 + b]
    and determines the colour, so two different colours never share a
    cache entry. *)
Theorem cache_key_unpacks (r g b : Z) :
  isByte r -> isByte g -> isByte b ->
  cacheKey r g b = (r * 65536 + g * 256 + b)%Z
  /\ Z.shiftr (cacheKey r g b) 16 = r
  /\ Z.land (Z.shiftr (cacheKey r g b) 8) 255 = g
  /\ Z.land (cacheKey r g b) 255 = b
  /\ (forall r' g' b', isByte r' -> isByte g' -> isByte b' ->
        cacheKey r' g' b' = cacheKey r g b -> (r', g', b') = (r, g, b)).
Proof.
  intros Hr Hg Hb. pose proof (cacheKey_bytes r g b Hr Hg Hb) as E.
  split; [exact E|]. rewrite E. unfold isByte in *.
  split; [|split; [|split]].
  - rewrite Z.shiftr_div_pow2 by lia. change (2 ^ 16)%Z with 65536%Z.
    symmetry. apply (Z.div_unique _ _ r (g * 256 + b)); lia.
  - rewrite Z.shiftr_div_pow2 by lia. change (2 ^ 8)%Z with 256%Z.
    change 255%Z with (Z.ones 8). rewrite Z.land_ones by lia.
    change (2 ^ 8)%Z with 256%Z.
    replace ((r * 65536 + g * 256 + b) / 256)%Z with (r * 256 + g)%Z.
    + symmetry. apply (Z.mod_unique _ _ r g); lia.
    + apply (Z.div_unique _ _ _ b); lia.
  - change 255%Z with (Z.ones 8). rewrite Z.land_ones by lia.
    change (2 ^ 8)%Z with 256%Z.
    symmetry. apply (Z.mod_unique _ _ (r * 256 + g) b); lia.
  - intros r' g' b' Hr' Hg' Hb' Hk. rewrite <- E in Hk.
    destruct (cacheKey_inj r' g' b' r g b Hr' Hg' Hb' Hr Hg Hb Hk) as (-> & -> & ->).
    reflexivity.
Qed.

Lemma cache_key_unpacks_witness :
  cacheKey 18 52 86 = (18 * 65536 + 52 * 256 + 86)%Z
  /\ Z.shiftr (cacheKey 18 52 86) 16 = 18%Z.
Proof.
  destruct (cache_key_unpacks 18 52 86) as (H1 & H2 & _);
    [unfold isByte; lia|unfold isByte; lia|unfold isByte; lia|].
  split; assumption.
Defined.

(** ** The recorder *)

Import Recorder.

Section Bitrate.

Lemma Math_round_le (a b : Q) : (a <= b)%Q -> (Math_round a <= Math_round b)%Z.
Proof. intros H. unfold Math_round. apply Qfloor_resp_le. lra. Qed.

Lemma baseMultiplier_pos quality : (0 < baseMultiplier quality)%Q.
Proof. destruct quality; reflexivity. Qed.

End Bitrate.

(** X4: [calculateBitrate] always answers between 500 000 and
    80 000 000; for non-negative sizes and frame rate it never decreases
    when the quality tier, the frame rate or a dimension goes up. *)
Theorem bitrate_bounded_and_monotone :
  (forall width height quality fps,
     (500000 <= calculateBitrate width height quality fps <= 80000000)%Z)
  /\ (forall width height fps,
        (0 <= width * height * fps)%Q ->
        (calculateBitrate width height good fps
         <= calculateBitrate width height excellent fps)%Z
        /\ (calculateBitrate width height excellent fps
            <= calculateBitrate width height maximum fps)%Z)
  /\ (forall width width' height quality fps,
        (0 <= height)%Q -> (0 <= fps)%Q -> (width <= width')%Q ->
        (calculateBitrate width height quality fps
         <= calculateBitrate width' height quality fps)%Z)
  /\ (forall width height quality fps fps',
        (0 <= width * height)%Q -> (fps <= fps')%Q ->
        (calculateBitrate width height quality fps
         <= calculateBitrate width height quality fps')%Z).
Proof.
  split; [intros; unfold calculateBitrate; lia|].
  split; [|split].
  - intros width height fps Hpos. unfold calculateBitrate. cbn [baseMultiplier].
    set (p := (width * height * fps)%Q) in *.
    assert (H1 : (Math_round (p * (6 # 10)) <= Math_round (p * (15 # 10)))%Z)
      by (apply Math_round_le; lra).
    assert (H2 : (Math_round (p * (15 # 10)) <= Math_round (p * 3))%Z)
      by (apply Math_round_le; lra).
    lia.
  - intros width width' height quality fps Hh Hf Hw. unfold calculateBitrate.
    pose proof (baseMultiplier_pos quality) as Hm.
    assert (H : (Math_round (width * height * fps * baseMultiplier quality)
                 <= Math_round (width' * height * fps * baseMultiplier quality))%Z).
    { apply Math_round_le.
      assert (0 <= height * fps * baseMultiplier quality)%Q.
      { apply Qmult_le_0_compat; [apply Qmult_le_0_compat; assumption|lra]. }
      nra. }
    lia.
  - intros width height quality fps fps' Hp Hf. unfold calculateBitrate.
    pose proof (baseMultiplier_pos quality) as Hm.
    assert (H : (Math_round (width * height * fps * baseMultiplier quality)
                 <= Math_round (width * height * fps' * baseMultiplier quality))%Z).
    { apply Math_round_le.
      set (p := (width * height)%Q) in *. set (m := baseMultiplier quality) in *.
      assert (0 <= p * m)%Q by (apply Qmult_le_0_compat; lra).
      nra. }
    lia.
Qed.

(** X5: what [progressInterval] reports lies in [0, 1] and never
    decreases as the elapsed time grows; and with the stop time derived
    by [exportVideo], the tick that stops the recorder reports at least
    [1 - 0.1 / targetFrameCount]. *)
Theorem video_progress_range (exactDurationMs stopDurationMs : Q) (abort : bool) :
  (0 < exactDurationMs)%Q ->
  (forall elapsed, (0 <= elapsed)%Q ->
     (0 <= (progressTick exactDurationMs stopDurationMs abort elapsed).1 <= 1)%Q)
  /\ (forall elapsed elapsed', (elapsed <= elapsed')%Q ->
        ((progressTick exactDurationMs stopDurationMs abort elapsed).1
         <= (progressTick exactDurationMs stopDurationMs abort elapsed').1)%Q)
  /\ (forall loopDuration exportLoopCount exportFps elapsed,
        let t := Scheduler.exportTiming loopDuration exportLoopCount exportFps in
        (0 < exportFps)%Q -> (0 < Scheduler.targetFrameCount t)%Z ->
        (Scheduler.stopDurationMs t <= elapsed)%Q ->
        (1 - (1 # 10) / inject_Z (Scheduler.targetFrameCount t)
         <= (progressTick (Scheduler.exactDurationMs t) (Scheduler.stopDurationMs t)
               abort elapsed).1)%Q).
Proof.
  intros Hexact.
  assert (Hdiv : forall e, (e / exactDurationMs * exactDurationMs == e)%Q)
    by (intros e; field; lra).
  split; [|split].
  - intros elapsed He. unfold progressTick. cbn [fst].
    pose proof (Hdiv elapsed) as E.
    set (q := (elapsed / exactDurationMs)%Q) in *.
    assert (0 <= q)%Q by nra.
    destruct (Q.min_spec q 1) as [[? ->]|[? ->]]; lra.
  - intros e e' Hle. unfold progressTick. cbn [fst].
    pose proof (Hdiv e) as E. pose proof (Hdiv e') as E'.
    set (q := (e / exactDurationMs)%Q) in *. set (q' := (e' / exactDurationMs)%Q) in *.
    assert (q <= q')%Q by nra.
    destruct (Q.min_spec q 1) as [[? ->]|[? ->]];
      destruct (Q.min_spec q' 1) as [[? ->]|[? ->]]; lra.
  - intros d n fps elapsed t Hfps Hcount Hstop. unfold progressTick. cbn [fst].
    subst t. unfold Scheduler.exportTiming in *.
    cbn [Scheduler.targetFrameCount Scheduler.exactDurationMs Scheduler.stopDurationMs
         Scheduler.frameIntervalMs] in *.
    set (count := inject_Z (Math_round (d * n * fps))) in *.
    assert (Hc : (0 < count)%Q).
    { unfold count. change 0%Q with (inject_Z 0). rewrite <- Zlt_Qlt. exact Hcount. }
    set (exact := (count / fps * 1000)%Q) in *.
    assert (Hex : (exact * fps == count * 1000)%Q) by (unfold exact; field; lra).
    assert (Hpos : (0 < exact)%Q) by nra.
    assert (Hi : (1000 / fps * fps == 1000)%Q) by (field; lra).
    set (interval := (1000 / fps)%Q) in *.
    assert (Hq : (elapsed / exact * exact == elapsed)%Q) by (field; lra).
    set (q := (elapsed / exact)%Q) in *.
    assert (Ht : ((1 # 10) / count * count == 1 # 10)%Q) by (field; lra).
    set (tenth := ((1 # 10) / count)%Q) in *.
    assert (Hge : (1 - tenth <= q)%Q).
    { assert (H1 : ((1 - tenth) * exact * fps <= q * exact * fps)%Q).
      { assert (H2 : ((1 - tenth) * exact * fps == (exact - interval * (1 # 10)) * fps)%Q).
        { assert (H3 : (tenth * exact * fps == interval * (1 # 10) * fps)%Q).
          { assert (H4 : (tenth * (exact * fps) == tenth * (count * 1000))%Q)
              by (rewrite Hex; reflexivity).
            nra. }
          nra. }
        assert (H5 : ((exact - interval * (1 # 10)) * fps <= elapsed * fps)%Q) by nra.
        assert (H6 : (q * exact * fps == elapsed * fps)%Q) by nra.
        lra. }
      assert (Hef : (0 < exact * fps)%Q) by nra.
      nra. }
    assert (0 < tenth)%Q by nra.
    destruct (Q.min_spec q 1) as [[_ ->]|[_ ->]]; lra.
Qed.

Lemma video_progress_range_witness :
  (0 < 2000)%Q
  /\ (0 <= (progressTick 2000 (5990 # 3) false 1000).1 <= 1)%Q.
Proof.
  split; [reflexivity|].
  apply (proj1 (video_progress_range 2000 (5990 # 3) false ltac:(reflexivity)) 1000%Q).
  discriminate.
Defined.

(** ** How many frames the capture loop can draw *)

Section CaptureCount.

Lemma increasing_above_index (l : list Z) :
  strictlyIncreasing l -> (forall a, a ∈ l -> (0 < a)%Z) ->
  forall (i : nat) a, l !! i = Some a -> (Z.of_nat i < a)%Z.
Proof.
  intros Hinc Hpos i. induction i as [|i IH]; intros a Ha.
  - pose proof (Hpos a (list_elem_of_lookup_2 _ _ _ Ha)). lia.
  - destruct (lookup_lt_is_Some_2 l i) as [b Hb].
    { apply lookup_lt_Some in Ha. lia. }
    pose proof (IH b Hb). pose proof (Hinc i (S i) b a ltac:(lia) Hb Ha). lia.
Qed.

Lemma increasing_length (l : list Z) (m : Z) :
  strictlyIncreasing l -> (0 <= m)%Z -> (forall a, a ∈ l -> (0 < a <= m)%Z) ->
  (Z.of_nat (length l) <= m)%Z.
Proof.
  intros Hinc Hm Hle. destruct (length l) as [|k] eqn:Hlen; [lia|].
  destruct (lookup_lt_is_Some_2 l k) as [a Ha]; [lia|].
  pose proof (increasing_above_index l Hinc (fun a H => proj1 (Hle a H)) k a Ha).
  pose proof (Hle a (list_elem_of_lookup_2 _ _ _ Ha)). lia.
Qed.

Lemma Qfloor_lt_Z (q : Q) (n : Z) : (q < inject_Z n)%Q -> (Qfloor q < n)%Z.
Proof.
  intros H. rewrite Zlt_Qlt. eapply Qle_lt_trans; [apply Qfloor_le|exact H].
Qed.

End CaptureCount.

(** X6: the capture loop never draws more frames than the number of the
    last frame it captured (frame 0 is never drawn, since
    [capturedFrames] starts at 0); in particular, while every tick falls
    before [exactDurationMs], it draws at most [targetFrameCount - 1]
    frames, all numbered below [targetFrameCount]. *)
Theorem capture_count_bounded (exportFps : Q) (ticks : list Tick) :
  (Z.of_nat (length (frames (captureLoop exportFps ticks)))
   <= capturedFrames (captureLoop exportFps ticks))%Z
  /\ (forall loopDuration exportLoopCount,
        let t := exportTiming loopDuration exportLoopCount exportFps in
        (0 < exportFps)%Q -> (0 < targetFrameCount t)%Z ->
        (forall tk, tk ∈ ticks -> (elapsed tk < exactDurationMs t)%Q) ->
        (Z.of_nat (length (frames (captureLoop exportFps ticks)))
         <= targetFrameCount t - 1)%Z
        /\ (forall a, a ∈ frames (captureLoop exportFps ticks) ->
              (0 < a < targetFrameCount t)%Z)).
Proof.
  destruct (captureLoop_sound exportFps ticks) as (Hinc & H0 & Hle).
  split; [apply increasing_length; assumption|].
  intros d n t Hfps Hcount Hticks.
  assert (Hcap : (capturedFrames (captureLoop exportFps ticks) <= targetFrameCount t - 1)%Z).
  { unfold captureLoop.
    apply (fold_left_inv
             (fun _ st => (capturedFrames st <= targetFrameCount t - 1)%Z)
             (captureTick exportFps) ticks).
    - cbn [capturedFrames]. lia.
    - intros k tk st Hk Hst. unfold captureTick.
      destruct (Z.leb_spec (Math_floor (elapsed tk / 1000 * exportFps)) (capturedFrames st))
        as [_|_]; [exact Hst|].
      cbn [capturedFrames].
      assert (Math_floor (elapsed tk / 1000 * exportFps) < targetFrameCount t)%Z; [|lia].
      apply Qfloor_lt_Z.
      pose proof (Hticks tk (list_elem_of_lookup_2 _ _ _ Hk)) as He.
      subst t. unfold exportTiming in *.
      cbn [targetFrameCount exactDurationMs] in *.
      set (count := inject_Z (Math_round (d * n * exportFps))) in *.
      assert (E1 : (count / exportFps * 1000 * exportFps == count * 1000)%Q) by (field; lra).
      set (exact := (count / exportFps * 1000)%Q) in *.
      assert (E2 : (elapsed tk / 1000 * exportFps * 1000 == elapsed tk * exportFps)%Q)
        by (field; lra).
      set (q := (elapsed tk / 1000 * exportFps)%Q) in *.
      nra. }
  split.
  - apply increasing_length; [exact Hinc|lia|].
    intros a Ha. specialize (Hle a Ha). lia.
  - intros a Ha. specialize (Hle a Ha). lia.
Qed.

Lemma capture_count_bounded_witness :
  (Z.of_nat (length (frames (captureLoop 30
                               [ {| elapsed := 40; drawn := true |};
                                 {| elapsed := 1990; drawn := true |} ])))
   <= targetFrameCount (exportTiming 2 1 30) - 1)%Z.
Proof.
  apply (proj2 (capture_count_bounded 30
                  [ {| elapsed := 40; drawn := true |};
                    {| elapsed := 1990; drawn := true |} ]) 2%Q 1%Q);
    [reflexivity|reflexivity|].
  intros tk Htk.
  repeat (apply elem_of_cons in Htk as [->|Htk]; [reflexivity|]).
  apply elem_of_nil in Htk. contradiction.
Defined.

(** ** The taps at every pixel, edges included *)

Section TapsEverywhere.

Lemma Forall_tapIf (P : nat * Z -> Prop) (c : bool) (i : nat) (w : Z) :
  (c = true -> P (i, w)) -> Forall P (tapIf c i w).
Proof.
  intros H. destruct c; cbn [tapIf]; [|apply Forall_nil_2].
  apply Forall_cons_2; [auto|apply Forall_nil_2].
Qed.

End TapsEverywhere.

(** Split a list of taps into its taps, keeping the edge tests that
    guard each of them. *)
Ltac taps_forall :=
  repeat first
    [ apply Forall_nil_2
    | apply Forall_app_2
    | apply Forall_cons_2
    | apply Forall_tapIf; let H := fresh "Hedge" in intros H
    | match goal with
      | |- Forall _ (if ?c then _ else _) => destruct c eqn:?
      end ];
  repeat match goal with
         | H : (_ && _) = true |- _ => apply andb_true_iff in H as [? ?]
         | H : (_ <? _) = true |- _ => apply Nat.ltb_lt in H
         | H : (_ <? _) = false |- _ => apply Nat.ltb_ge in H
         end.

(** Evaluate the weights of a list of taps on every outcome of the edge
    tests. *)
Ltac taps_weigh :=
  repeat match goal with
         | |- context [?a <? ?b] => destruct (a <? b)
         end;
  cbn [tapIf andb app map snd sumZ foldr]; lia.

(** X7: at every pixel of the image, edges and corners included, each
    of the four error-diffusion kernels writes only whole pixel slots
    inside its error buffer, hands out weights that sum to at most its
    divisor (so a channel of the buffer gains a fraction between 0 and 1
    of the residual), and hands out nothing at all at the bottom-right
    pixel. *)
Theorem diffusion_taps_stay_inside (type : DitherKind) (k : Kernel)
    (x y width height cur : nat) (eb : list Q) :
  kernelOf type = Some k ->
  x < width -> y < height -> cur < rowsHeld k ->
  length eb = (width + padding k) * 3 * rowsHeld k ->
  nextRowOf k cur < rowsHeld k
  /\ nextRowOf k cur <> cur
  /\ Forall (aligned eb) (tapsAt k x y width height cur)
  /\ (0 <= tapWeights (tapsAt k x y width height cur) <= divisor k)%Z
  /\ (forall residual ch, ch < 3 ->
        (channelGain k x y width height cur eb residual ch ==
         component residual ch
         * (inject_Z (tapWeights (tapsAt k x y width height cur))
            / inject_Z (divisor k)))%Q)
  /\ (x + 1 = width -> y + 1 = height -> tapsAt k x y width height cur = []).
Proof.
  intros Hk Hx Hy Hcur Hlen.
  assert (Hal : Forall (aligned eb) (tapsAt k x y width height cur)).
  { destruct type; cbn [kernelOf] in Hk; [discriminate| | | |];
      injection Hk as <-; unfold tapsAt;
      cbn [taps padding origin nextRowOf nextNextRowOf rowsHeld
           fsKernel jjnKernel stuckiKernel sierraKernel] in *.
    - unfold fsTaps. taps_forall; tap_aligned.
    - unfold jjnTaps.
      pose proof (Nat.mod_upper_bound (cur + 1) 3 ltac:(lia)).
      pose proof (Nat.mod_upper_bound (cur + 2) 3 ltac:(lia)).
      taps_forall; tap_aligned.
    - unfold stuckiTaps. taps_forall; tap_aligned.
    - unfold sierraTaps. taps_forall; tap_aligned. }
  assert (Hw : (0 <= tapWeights (tapsAt k x y width height cur) <= divisor k)%Z).
  { destruct type; cbn [kernelOf] in Hk; [discriminate| | | |];
      injection Hk as <-; unfold tapsAt, tapWeights;
      cbn [taps divisor fsKernel jjnKernel stuckiKernel sierraKernel].
    - unfold fsTaps. taps_weigh.
    - unfold jjnTaps. taps_weigh.
    - unfold stuckiTaps. taps_weigh.
    - unfold sierraTaps. taps_weigh. }
  assert (Hd : (0 < divisor k)%Z).
  { destruct type; cbn [kernelOf] in Hk; [discriminate| | | |];
      injection Hk as <-; reflexivity. }
  split; [|split; [|split; [exact Hal|split; [exact Hw|split]]]].
  - destruct type; cbn [kernelOf] in Hk; [discriminate| | | |];
      injection Hk as <-;
      cbn [nextRowOf rowsHeld fsKernel jjnKernel stuckiKernel sierraKernel] in *;
      try lia.
    apply Nat.mod_upper_bound. lia.
  - destruct type; cbn [kernelOf] in Hk; [discriminate| | | |];
      injection Hk as <-;
      cbn [nextRowOf rowsHeld fsKernel jjnKernel stuckiKernel sierraKernel] in *;
      try lia.
    destruct cur as [|[|[|cur]]]; [discriminate|discriminate|discriminate|lia].
  - intros [[rR rG] rB] ch Hch. unfold channelGain.
    rewrite (diffuse_channel _ _ _ _ eb ch Hal Hch).
    assert (Hdq : ~ (inject_Z (divisor k) == 0)%Q).
    { intros E. assert (0 < inject_Z (divisor k))%Q; [|lra].
      change 0%Q with (inject_Z 0). rewrite <- Zlt_Qlt. exact Hd. }
    destruct ch as [|[|[|ch]]]; [| | |lia]; cbn [component]; field; exact Hdq.
  - intros Ex Ey.
    destruct type; cbn [kernelOf] in Hk; [discriminate| | | |];
      injection Hk as <-; unfold tapsAt;
      cbn [taps fsKernel jjnKernel stuckiKernel sierraKernel];
      unfold fsTaps, jjnTaps, stuckiTaps, sierraTaps;
      repeat match goal with
             | |- context [?a <? ?b] =>
                 first [ rewrite (proj2 (Nat.ltb_ge a b)) by lia
                       | destruct (a <? b) ]
             end; reflexivity.
Qed.

Lemma diffusion_taps_stay_inside_witness :
  Forall (aligned (replicate ((2 + 6) * 3 * 3) 0%Q)) (tapsAt jjnKernel 0 0 2 2 0)
  /\ (0 <= tapWeights (tapsAt jjnKernel 0 0 2 2 0) <= divisor jjnKernel)%Z.
Proof.
  destruct (diffusion_taps_stay_inside jjn jjnKernel 0 0 2 2 0
              (replicate ((2 + 6) * 3 * 3) 0%Q))
    as (_ & _ & Hal & Hw & _); [reflexivity|lia|lia|cbn; lia|reflexivity|].
  split; assumption.
Defined.

(** ** Quantization pixel by pixel *)

Section Exact.

Variable palette : Palette.
Hypothesis palette_nonempty : palette <> [].
Hypothesis palette_bytes : paletteBytes palette.

Lemma findNearestColor_exact r g b cache :
  isByte r -> isByte g -> isByte b ->
  cacheCoherent palette cache ->
  exists v cache',
    findNearestColor r g b palette cache = Done v cache'
    /\ firstMinimum r g b palette v
    /\ cacheCoherent palette cache'.
Proof.
  intros Hr Hg Hb Hco.
  destruct (ColorCache.get cache (cacheKey r g b)) as [w|] eqn:Hget.
  - exists w, cache. split; [apply findNearestColor_hit, Hget|]. split; [|exact Hco].
    destruct (scanPalette_first_minimum r g b palette palette_nonempty) as (v & Hscan & Hmin).
    pose proof (Hco _ _ (cache_get_elem _ _ _ Hget) r g b Hr Hg Hb eq_refl) as E.
    congruence.
  - destruct (findNearestColor_miss r g b palette cache palette_nonempty Hget)
      as (v & c' & Hrun & Hmin & _).
    exists v, c'. split; [exact Hrun|]. split; [exact Hmin|].
    apply (findNearestColor_coherent r g b palette cache v c'); assumption.
Qed.

(** Quantizing pixel [k] from a buffer [d] that differs from the one of
    the invariant in the colour bytes of pixel [k] at most. *)
Lemma quantizedFrom_step (src : nat -> Color) data0 k data d c r g b :
  quantizedFrom palette src data0 k data c ->
  length d = length data ->
  (forall i, i <> 4 * k -> i <> 4 * k + 1 -> i <> 4 * k + 2 -> rd d i = rd data i) ->
  4 * k + 2 < length data ->
  src k = (r, g, b) -> isByte r -> isByte g -> isByte b ->
  exists v c',
    findNearestColor r g b palette c = Done v c'
    /\ quantizedFrom palette src data0 (S k) (putRGB d (4 * k) v) c'.
Proof.
  intros (Hl & Hrgb & Hrest & Halpha & Hco) Hld Hd Hlen Hsrc Hr Hg Hb.
  destruct (findNearestColor_exact r g b c Hr Hg Hb Hco) as (v & c' & Hrun & Hmin & Hco').
  exists v, c'. split; [exact Hrun|]. split; [|split; [|split; [|split]]].
  - rewrite putRGB_length. congruence.
  - intros p Hp. destruct (decide (p = k)) as [->|Hpk].
    + pose proof (firstMinimum_elem _ _ _ _ _ Hmin) as Hv.
      rewrite (putRGB_rgb palette) by (assumption || lia).
      unfold nearestOf. rewrite Hsrc. exact Hmin.
    + specialize (Hrgb p ltac:(lia)). unfold rgbAt in *.
      rewrite !putRGB_other by lia. rewrite !Hd by lia. exact Hrgb.
  - intros i Hi. rewrite putRGB_other by lia. rewrite Hd by lia. apply Hrest. lia.
  - intros p. unfold alphaAt. rewrite putRGB_other by lia. rewrite Hd by lia. apply Halpha.
  - exact Hco'.
Qed.

Lemma quantizedFrom_start (src : nat -> Color) data c :
  cacheCoherent palette c -> quantizedFrom palette src data 0 data c.
Proof.
  intros Hc. split; [reflexivity|]. split; [intros p Hp; lia|].
  split; [reflexivity|]. split; [reflexivity|exact Hc].
Qed.

(** *** The Bayer loop *)

Lemma bayerPixel_exact data0 width intensity data k c :
  4 * k + 2 < length data ->
  quantizedFrom palette (bayerColor intensity width data0) data0 k data c ->
  exists data' c',
    bayerPixel width palette (255 * intensity / 64)%Q data k c = Done data' c'
    /\ quantizedFrom palette (bayerColor intensity width data0) data0 (S k) data' c'.
Proof.
  intros Hlen Hq. pose proof Hq as (Hl & _ & Hrest & _). unfold bayerPixel.
  set (d1 := <[4 * k := _]> data).
  set (d2 := <[4 * k + 1 := _]> d1).
  set (d3 := <[4 * k + 2 := _]> d2).
  assert (Hl3 : length d3 = length data).
  { subst d3 d2 d1. rewrite !length_insert. reflexivity. }
  assert (E0 : rd d3 (4 * k) = bayerChannel intensity width k (rd data0 (4 * k))).
  { subst d3 d2 d1. rewrite !rd_insert_ne by lia. rewrite rd_insert_eq by lia.
    rewrite Hrest by lia. reflexivity. }
  assert (E1 : rd d3 (4 * k + 1) = bayerChannel intensity width k (rd data0 (4 * k + 1))).
  { subst d3 d2 d1. rewrite rd_insert_ne by lia.
    rewrite rd_insert_eq by (rewrite !length_insert; lia).
    rewrite rd_insert_ne by lia. rewrite Hrest by lia. reflexivity. }
  assert (E2 : rd d3 (4 * k + 2) = bayerChannel intensity width k (rd data0 (4 * k + 2))).
  { subst d3 d2 d1. rewrite rd_insert_eq by (rewrite !length_insert; lia).
    rewrite !rd_insert_ne by lia. rewrite Hrest by lia. reflexivity. }
  destruct (quantizedFrom_step (bayerColor intensity width data0) data0 k data d3 c
              (rd d3 (4 * k)) (rd d3 (4 * k + 1)) (rd d3 (4 * k + 2)) Hq Hl3)
    as (v & c' & Hrun & Hq').
  - intros i H0 H1 H2. subst d3 d2 d1. rewrite !rd_insert_ne by lia. reflexivity.
  - exact Hlen.
  - unfold bayerColor, rgbAt. rewrite E0, E1, E2. reflexivity.
  - rewrite E0. apply storeByte_isByte.
  - rewrite E1. apply storeByte_isByte.
  - rewrite E2. apply storeByte_isByte.
  - exists (putRGB d3 (4 * k) v), c'. unfold bind. rewrite Hrun. auto.
Qed.

Lemma bayerPass_exact data width height intensity n c :
  length data = 4 * n ->
  cacheCoherent palette c ->
  exists data' c',
    bayerPass data width height palette intensity c = Done data' c'
    /\ quantizedFrom palette (bayerColor intensity width data) data n data' c'.
Proof.
  intros Hlen Hc. unfold bayerPass. rewrite Hlen, div4_exact.
  destruct (forM_inv
              (fun k d c => quantizedFrom palette (bayerColor intensity width data) data k d c)
              (seq 0 n) (bayerPixel width palette (255 * intensity / 64)%Q) data c)
    as (data' & c' & Hrun & Hq).
  - apply quantizedFrom_start, Hc.
  - intros k i d c0 Hi Hq. apply lookup_seq in Hi as [-> Hk]. cbn [plus].
    apply bayerPixel_exact; [|exact Hq].
    destruct Hq as (Hl & _). rewrite Hl, Hlen. lia.
  - rewrite length_seq in Hq. eauto.
Qed.

End Exact.

(** ** Intensity 0 *)

Section PlainInput.

Lemma rd_byte (data : list Z) i : Forall isByte data -> isByte (rd data i).
Proof.
  intros H. unfold rd. destruct (data !! i) as [v|] eqn:Hv; cbn [default].
  - eapply Forall_lookup_1; eassumption.
  - unfold isByte. lia.
Qed.

Lemma clamp255_byte (q : Q) (v : Z) :
  isByte v -> (q == inject_Z v)%Q -> (clamp255 q == inject_Z v)%Q.
Proof.
  intros [H0 H255] E. unfold clamp255.
  assert (0 <= inject_Z v)%Q by (change 0%Q with (inject_Z 0); rewrite <- Zle_Qle; exact H0).
  assert (inject_Z v <= 255)%Q
    by (change 255%Q with (inject_Z 255); rewrite <- Zle_Qle; exact H255).
  destruct (Q.min_spec 255 q) as [[? Em]|[? Em]];
    destruct (Q.max_spec 0 (Qmin 255 q)) as [[? EM]|[? EM]]; lra.
Qed.

Lemma bitor0_integer (q : Q) (v : Z) :
  (0 <= v)%Z -> (q == inject_Z v)%Q -> bitor0 q = v.
Proof.
  intros Hv E.
  assert (Hq : (0 <= q)%Q).
  { rewrite E. change 0%Q with (inject_Z 0). rewrite <- Zle_Qle. exact Hv. }
  rewrite <- (Qfloor_Z v), <- (Qfloor_comp _ _ E).
  destruct q as [n d]. unfold bitor0, Qle in *. cbn in Hq |- *.
  apply Z.quot_div_nonneg; lia.
Qed.

(** With nothing added, the quantizer is fed the stored byte. *)
Lemma quantizer_input_plain (v : Z) (e : Q) :
  isByte v -> (e == 0)%Q -> bitor0 (clamp255 (inject_Z v + e)) = v.
Proof.
  intros Hv He. apply bitor0_integer; [apply Hv|].
  apply clamp255_byte; [exact Hv|]. rewrite He. ring.
Qed.

Lemma bayerChannel_plain intensity width p v :
  (intensity == 0)%Q -> isByte v -> bayerChannel intensity width p v = v.
Proof.
  intros Hi Hv. unfold bayerChannel.
  rewrite quantizer_input_plain; [apply storeByte_byte, Hv|exact Hv|].
  rewrite Hi. unfold Qdiv. ring.
Qed.

Lemma bayerColor_plain intensity width data p :
  (intensity == 0)%Q -> Forall isByte data -> bayerColor intensity width data p = rgbAt data p.
Proof.
  intros Hi Hb. unfold bayerColor, rgbAt.
  rewrite !bayerChannel_plain by (assumption || apply rd_byte, Hb). reflexivity.
Qed.

End PlainInput.

Section ExactDiffusion.

Variable palette : Palette.
Hypothesis palette_nonempty : palette <> [].
Hypothesis palette_bytes : paletteBytes palette.
Variable intensity : Q.
Hypothesis intensity_zero : (intensity == 0)%Q.
Variable data0 : list Z.
Hypothesis data0_bytes : Forall isByte data0.

Lemma diffusionPixel_exact (k : Kernel) width height y cs ns nns data eb x c :
  (y * width + x) * 4 + 2 < length data ->
  quantizedFrom palette (rgbAt data0) data0 (y * width + x) data c ->
  exists st' c',
    diffusionPixel k width height palette intensity y cs ns nns (data, eb) x c
      = Done st' c'
    /\ quantizedFrom palette (rgbAt data0) data0 (S (y * width + x)) st'.1 c'.
Proof.
  intros Hlen Hq. pose proof Hq as (Hl & _ & Hrest & _). unfold diffusionPixel.
  assert (E : forall j e, j <= 2 ->
            bitor0 (clamp255 (inject_Z (rd data ((y * width + x) * 4 + j)) + e * intensity))
            = rd data0 (4 * (y * width + x) + j)).
  { intros j e Hj. rewrite Hrest by lia.
    replace ((y * width + x) * 4 + j) with (4 * (y * width + x) + j) by lia.
    apply quantizer_input_plain; [apply rd_byte, data0_bytes|].
    rewrite intensity_zero. ring. }
  pose proof (E 0 (rdQ eb (cs + (x + origin k) * 3)) ltac:(lia)) as E0.
  rewrite !Nat.add_0_r in E0. rewrite E0, (E 1), (E 2) by lia.
  destruct (quantizedFrom_step palette palette_nonempty palette_bytes (rgbAt data0) data0
              (y * width + x) data data c
              (rd data0 (4 * (y * width + x))) (rd data0 (4 * (y * width + x) + 1))
              (rd data0 (4 * (y * width + x) + 2)) Hq eq_refl)
    as (v & c' & Hrun & Hq');
    [reflexivity|lia|reflexivity|apply rd_byte, data0_bytes|apply rd_byte, data0_bytes
    |apply rd_byte, data0_bytes|].
  unfold bind. rewrite Hrun. destruct v as [[pr pg] pb].
  eexists _, c'. split; [reflexivity|]. cbn [fst].
  replace ((y * width + x) * 4) with (4 * (y * width + x)) by lia. exact Hq'.
Qed.

Lemma diffusionRow_exact (k : Kernel) width height data eb cur y c :
  (y + 1) * width * 4 <= length data ->
  quantizedFrom palette (rgbAt data0) data0 (y * width) data c ->
  exists st' c',
    diffusionRow k width height palette intensity (data, eb, cur) y c = Done st' c'
    /\ quantizedFrom palette (rgbAt data0) data0 ((y + 1) * width) st'.1.1 c'.
Proof.
  intros Hlen Hq. unfold diffusionRow.
  match goal with
  | |- context [forM _ ?body (data, ?eb')] =>
      destruct (forM_inv
                  (fun n (st : list Z * list Q) c =>
                     quantizedFrom palette (rgbAt data0) data0 (y * width + n) st.1 c
                     /\ length st.1 = length data)
                  (seq 0 width) body (data, eb') c) as (st' & c' & Hrun & Hq' & _)
  end.
  - cbn [fst]. rewrite Nat.add_0_r. auto.
  - intros n x [d e] c0 Hx [Hq0 Hl0]. apply lookup_seq in Hx as [-> Hn].
    cbn [fst snd plus] in *.
    destruct (diffusionPixel_exact k width height y
                (cur * ((width + padding k) * 3))
                (nextRowOf k cur * ((width + padding k) * 3))
                (nextNextRowOf k cur * ((width + padding k) * 3)) d e n c0)
      as (st1 & c1 & Hrun1 & Hq1); [rewrite Hl0; nia|exact Hq0|].
    exists st1, c1. split; [exact Hrun1|]. split.
    + rewrite <- Nat.add_succ_r in Hq1. exact Hq1.
    + destruct Hq1 as (Hl1 & _). destruct Hq0 as (Hl0' & _). congruence.
  - unfold bind. rewrite Hrun. eexists _, c'. split; [reflexivity|]. cbn [fst].
    rewrite length_seq in Hq'.
    replace ((y + 1) * width) with (y * width + width) by lia. exact Hq'.
Qed.

End ExactDiffusion.

Section ExactPasses.

Variable palette : Palette.
Hypothesis palette_nonempty : palette <> [].
Hypothesis palette_bytes : paletteBytes palette.

Lemma quantizedFrom_ext (src src' : nat -> Color) data0 k data c :
  (forall p, p < k -> src p = src' p) ->
  quantizedFrom palette src data0 k data c ->
  quantizedFrom palette src' data0 k data c.
Proof.
  intros Hs (Hl & Hrgb & Hrest). split; [exact Hl|]. split; [|exact Hrest].
  intros p Hp. rewrite <- Hs by exact Hp. apply Hrgb, Hp.
Qed.

Lemma diffusionPass_exact (k : Kernel) data width height intensity c :
  (intensity == 0)%Q -> Forall isByte data ->
  length data = 4 * (width * height) ->
  cacheCoherent palette c ->
  exists data' c',
    diffusionPass k data width height palette intensity c = Done data' c'
    /\ quantizedFrom palette (rgbAt data) data (width * height) data' c'.
Proof.
  intros Hi Hb Hlen Hc. unfold diffusionPass.
  match goal with
  | |- context [forM _ ?body (data, ?eb, 0)] =>
      destruct (forM_inv
                  (fun n (st : list Z * list Q * nat) c =>
                     quantizedFrom palette (rgbAt data) data (n * width) st.1.1 c)
                  (seq 0 height) body (data, eb, 0) c) as (st' & c' & Hrun & Hq')
  end.
  - cbn [fst]. apply quantizedFrom_start, Hc.
  - intros n y [[d e] cur] c0 Hy Hq0. apply lookup_seq in Hy as [-> Hn].
    cbn [fst snd plus] in *.
    destruct (diffusionRow_exact palette palette_nonempty palette_bytes intensity Hi data Hb
                k width height d e cur n c0)
      as (st1 & c1 & Hrun1 & Hq1); [|exact Hq0|].
    + destruct Hq0 as (Hl & _). rewrite Hl, Hlen. nia.
    + exists st1, c1. split; [exact Hrun1|].
      replace (S n * width) with ((n + 1) * width) by lia. exact Hq1.
  - unfold bind. rewrite Hrun. eexists _, c'. split; [reflexivity|].
    rewrite length_seq in Hq'. rewrite Nat.mul_comm. exact Hq'.
Qed.

Lemma fullResolutionPass_exact type data width height intensity c :
  (intensity == 0)%Q -> Forall isByte data ->
  length data = 4 * (width * height) ->
  cacheCoherent palette c ->
  exists data' c',
    fullResolutionPass type data width height palette intensity c = Done data' c'
    /\ quantizedFrom palette (rgbAt data) data (width * height) data' c'.
Proof.
  intros Hi Hb Hlen Hc. unfold fullResolutionPass.
  destruct (kernelOf type) as [k|].
  - apply diffusionPass_exact; assumption.
  - destruct (bayerPass_exact palette palette_nonempty palette_bytes data width height
                intensity (width * height) c Hlen Hc) as (data' & c' & Hrun & Hq).
    exists data', c'. split; [exact Hrun|].
    eapply quantizedFrom_ext; [|exact Hq].
    intros p _. apply bayerColor_plain; assumption.
Qed.

(** *** The chunked loop of [reduceColorsTopalette] *)

Lemma filter_seq_below (P : nat -> Prop) `{forall j, Decision (P j)} (m k : nat) :
  k <= m -> (forall j, j < m -> P j <-> j < k) -> filter P (seq 0 m) = seq 0 k.
Proof.
  revert k. induction m as [|m IH]; intros k Hk HP.
  - replace k with 0 by lia. reflexivity.
  - rewrite seq_S, filter_app. cbn [plus].
    destruct (decide (k = S m)) as [->|Hne].
    + rewrite (IH m) by (auto; intros j Hj; rewrite HP by lia; lia).
      rewrite filter_cons_True by (apply HP; lia).
      rewrite filter_nil, seq_S. reflexivity.
    + rewrite (IH k) by (try lia; intros j Hj; apply HP; lia).
      rewrite filter_cons_False by (rewrite HP by lia; lia).
      rewrite filter_nil, app_nil_r. reflexivity.
Qed.

Lemma ceil_div_covers (a b : nat) : 0 < b -> a <= (a + b - 1) / b * b.
Proof.
  intros Hb. pose proof (Nat.div_mod_eq (a + b - 1) b) as E.
  pose proof (Nat.mod_upper_bound (a + b - 1) b ltac:(lia)). nia.
Qed.

Lemma reducePixel_exact data0 data k c :
  Forall isByte data0 ->
  4 * k + 2 < length data ->
  quantizedFrom palette (rgbAt data0) data0 k data c ->
  exists data' c',
    reducePixel palette data (4 * k) c = Done data' c'
    /\ quantizedFrom palette (rgbAt data0) data0 (S k) data' c'.
Proof.
  intros Hb Hlen Hq. pose proof Hq as (_ & _ & Hrest & _). unfold reducePixel.
  rewrite !Hrest by lia.
  destruct (quantizedFrom_step palette palette_nonempty palette_bytes (rgbAt data0) data0
              k data data c (rd data0 (4 * k)) (rd data0 (4 * k + 1)) (rd data0 (4 * k + 2))
              Hq eq_refl)
    as (v & c' & Hrun & Hq');
    [reflexivity|exact Hlen|reflexivity|apply rd_byte, Hb|apply rd_byte, Hb|apply rd_byte, Hb|].
  unfold bind. rewrite Hrun. eexists _, c'. split; [reflexivity|exact Hq'].
Qed.

Lemma reduceColorsTopalette_exact data n cache :
  Forall isByte data -> length data = 4 * n ->
  exists data' c',
    reduceColorsTopalette data palette cache = Done data' c'
    /\ quantizedFrom palette (rgbAt data) data n data' c'.
Proof.
  intros Hb Hlen. unfold reduceColorsTopalette.
  replace (length data / 4) with n by (rewrite Hlen, Nat.mul_comm, Nat.div_mul; lia).
  set (cs := Nat.min 64 n).
  set (chunks := match cs with 0 => 0 | S _ => (length data + 4 * cs - 1) / (4 * cs) end).
  assert (Hcover : n <= chunks * cs).
  { subst chunks. destruct cs as [|cs'] eqn:Hcs; [lia|].
    pose proof (ceil_div_covers (length data) (4 * S cs') ltac:(lia)). nia. }
  match goal with
  | |- context [forM _ ?body data []] =>
      destruct (forM_inv
                  (fun c d cache =>
                     quantizedFrom palette (rgbAt data) data (Nat.min (c * cs) n) d cache)
                  (seq 0 chunks) body data []) as (data' & c' & Hrun & Hq)
  end.
  - cbn [Nat.mul]. rewrite Nat.min_0_l. apply quantizedFrom_start, cacheCoherent_nil.
  - intros c i d cache0 Hi Hq. apply lookup_seq in Hi as [-> Hc]. cbn [plus].
    pose proof Hq as (Hl & _).
    rewrite (filter_seq_below _ cs (Nat.min cs (n - c * cs)));
      [|lia|intros j Hj; rewrite Hl, Hlen; nia].
    match goal with
    | |- context [forM _ ?body d cache0] =>
        destruct (forM_inv
                    (fun j d' cache' =>
                       quantizedFrom palette (rgbAt data) data (Nat.min (c * cs) n + j) d' cache')
                    (seq 0 (Nat.min cs (n - c * cs))) body d cache0)
          as (d' & c1 & Hrun1 & Hq1)
    end.
    + rewrite Nat.add_0_r. exact Hq.
    + intros j i d1 c2 Hi Hq2. apply lookup_seq in Hi as [-> Hj]. cbn [plus].
      replace (c * (4 * cs) + j * 4) with (4 * (Nat.min (c * cs) n + j)) by nia.
      replace (Nat.min (c * cs) n + S j) with (S (Nat.min (c * cs) n + j)) by lia.
      apply reducePixel_exact; [exact Hb| |exact Hq2].
      destruct Hq2 as (Hl2 & _). rewrite Hl2, Hlen. nia.
    + exists d', c1. split; [exact Hrun1|]. rewrite length_seq in Hq1.
      replace (Nat.min (S c * cs) n) with (Nat.min (c * cs) n + Nat.min cs (n - c * cs)) by nia.
      exact Hq1.
  - exists data', c'. split; [exact Hrun|]. rewrite length_seq in Hq.
    replace (Nat.min (chunks * cs) n) with n in Hq by lia. exact Hq.
Qed.

End ExactPasses.

Section ExactResults.

Lemma firstMinimum_unique r g b palette v v' :
  firstMinimum r g b palette v -> firstMinimum r g b palette v' -> v = v'.
Proof.
  intros (i & Hi & Hall & Hbefore) (i' & Hi' & Hall' & Hbefore').
  destruct (Nat.lt_trichotomy i i') as [Hlt|[->|Hgt]].
  - pose proof (Hbefore' i v Hlt Hi). pose proof (Hall i' v' Hi'). lia.
  - congruence.
  - pose proof (Hbefore i' v' Hgt Hi'). pose proof (Hall' i v Hi). lia.
Qed.

(** The nearest colour of a palette colour is that colour. *)
Lemma firstMinimum_member r g b palette v :
  (r, g, b) ∈ palette -> firstMinimum r g b palette v -> v = (r, g, b).
Proof.
  intros Hin (i & Hi & Hall & _).
  apply list_elem_of_lookup_1 in Hin as [j Hj].
  specialize (Hall j (r, g, b) Hj). destruct v as [[vr vg] vb].
  unfold sqDist in Hall.
  assert (H0 : ((r - r) * (r - r) + (g - g) * (g - g) + (b - b) * (b - b) = 0)%Z) by lia.
  rewrite H0 in Hall.
  pose proof (Z.square_nonneg (r - vr)). pose proof (Z.square_nonneg (g - vg)).
  pose proof (Z.square_nonneg (b - vb)).
  assert (Er : ((r - vr) * (r - vr) = 0)%Z) by lia.
  assert (Eg : ((g - vg) * (g - vg) = 0)%Z) by lia.
  assert (Eb : ((b - vb) * (b - vb) = 0)%Z) by lia.
  apply Z.mul_eq_0 in Er, Eg, Eb.
  assert (vr = r) as -> by lia. assert (vg = g) as -> by lia. assert (vb = b) as -> by lia.
  reflexivity.
Qed.

(** Two buffers with the same pixels are the same buffer. *)
Lemma pixels_ext (d1 d2 : list Z) (n : nat) :
  length d1 = 4 * n -> length d2 = 4 * n ->
  (forall p, p < n -> rgbAt d1 p = rgbAt d2 p /\ alphaAt d1 p = alphaAt d2 p) ->
  d1 = d2.
Proof.
  intros H1 H2 Hp. apply list_eq. intros i.
  destruct (decide (i < 4 * n)) as [Hi|Hi].
  - destruct (lookup_lt_is_Some_2 d1 i ltac:(lia)) as [a Ha].
    destruct (lookup_lt_is_Some_2 d2 i ltac:(lia)) as [b Hb].
    rewrite Ha, Hb. f_equal.
    assert (E : rd d1 i = rd d2 i).
    { pose proof (Nat.div_mod_eq i 4) as Hdm.
      pose proof (Nat.mod_upper_bound i 4 ltac:(lia)) as Hm.
      destruct (Hp (i / 4) ltac:(lia)) as [Hrgb Halpha].
      unfold rgbAt, alphaAt in *. injection Hrgb as E0 E1 E2.
      destruct (i mod 4) as [|[|[|[|m]]]] eqn:Em; [| | | |lia].
      - replace i with (4 * (i / 4)) by lia. exact E0.
      - replace i with (4 * (i / 4) + 1) by lia. exact E1.
      - replace i with (4 * (i / 4) + 2) by lia. exact E2.
      - replace i with (4 * (i / 4) + 3) by lia. exact Halpha. }
    unfold rd in E. rewrite Ha, Hb in E. exact E.
  - rewrite !lookup_ge_None_2 by lia. reflexivity.
Qed.

Lemma quantizedFrom_bytes palette src data0 n data c :
  paletteBytes palette -> Forall isByte data0 -> length data0 = 4 * n ->
  quantizedFrom palette src data0 n data c -> Forall isByte data.
Proof.
  intros Hpal Hb Hlen (Hl & Hrgb & _ & Halpha & _).
  apply Forall_lookup_2. intros i v Hv.
  assert (Hi : i < 4 * n) by (apply lookup_lt_Some in Hv; lia).
  assert (E : rd data i = v) by (unfold rd; rewrite Hv; reflexivity).
  rewrite <- E.
  pose proof (Nat.div_mod_eq i 4) as Hdm.
  pose proof (Nat.mod_upper_bound i 4 ltac:(lia)) as Hm.
  pose proof (firstMinimum_elem _ _ _ _ _ (Hrgb (i / 4) ltac:(lia))) as Hin.
  unfold rgbAt in Hin. destruct (Hpal _ _ _ Hin) as (H0 & H1 & H2).
  destruct (i mod 4) as [|[|[|[|m]]]] eqn:Em; [| | | |lia].
  - replace i with (4 * (i / 4)) by lia. exact H0.
  - replace i with (4 * (i / 4) + 1) by lia. exact H1.
  - replace i with (4 * (i / 4) + 2) by lia. exact H2.
  - replace i with (4 * (i / 4) + 3) by lia.
    fold (alphaAt data (i / 4)). rewrite Halpha. apply rd_byte, Hb.
Qed.

End ExactResults.

(** X8: [reduceColorsTopalette], on a buffer of bytes of [n] whole
    pixels and a non-empty palette of byte triples, returns whatever the
    cache held before; it replaces the colour of every pixel by the
    earliest nearest palette colour of that pixel and keeps every alpha
    byte; and applying it to its own result changes nothing. *)
Theorem reduceColorsTopalette_nearest (data : list Z) (n : nat) (palette : Palette)
    (cache : Cache) :
  palette <> [] -> paletteBytes palette ->
  Forall isByte data -> length data = 4 * n ->
  exists data' cache',
    reduceColorsTopalette data palette cache = Done data' cache'
    /\ length data' = length data
    /\ (forall p, p < n ->
          nearestOf palette (rgbAt data p) (rgbAt data' p)
          /\ alphaAt data' p = alphaAt data p)
    /\ cacheCoherent palette cache'
    /\ (forall cache2, exists cache2',
          reduceColorsTopalette data' palette cache2 = Done data' cache2').
Proof.
  intros Hne Hpal Hb Hlen.
  destruct (reduceColorsTopalette_exact palette Hne Hpal data n cache Hb Hlen)
    as (data' & c' & Hrun & Hq).
  pose proof Hq as (Hl & Hrgb & _ & Halpha & Hco).
  exists data', c'. split; [exact Hrun|]. split; [exact Hl|].
  split; [intros p Hp; split; [apply Hrgb, Hp|apply Halpha]|].
  split; [exact Hco|].
  intros cache2.
  pose proof (quantizedFrom_bytes palette _ data n data' c' Hpal Hb Hlen Hq) as Hb'.
  destruct (reduceColorsTopalette_exact palette Hne Hpal data' n cache2 Hb' ltac:(lia))
    as (data2 & c2 & Hrun2 & Hl2 & Hrgb2 & _ & Halpha2 & _).
  exists c2. rewrite Hrun2. f_equal.
  apply (pixels_ext data2 data' n); [lia|lia|].
  intros p Hp. split; [|apply Halpha2].
  specialize (Hrgb2 p Hp). unfold nearestOf in Hrgb2.
  pose proof (firstMinimum_elem _ _ _ _ _ (Hrgb p Hp)) as Hin.
  destruct (rgbAt data' p) as [[r g] b] eqn:E. cbn [fst snd] in Hrgb2.
  eapply firstMinimum_member; eassumption.
Qed.

Lemma reduceColorsTopalette_nearest_witness :
  exists data' cache',
    reduceColorsTopalette Samples.grey2x2 Samples.blackWhite [] = Done data' cache'
    /\ length data' = length Samples.grey2x2
    /\ (forall p, p < 4 ->
          nearestOf Samples.blackWhite (rgbAt Samples.grey2x2 p) (rgbAt data' p)
          /\ alphaAt data' p = alphaAt Samples.grey2x2 p).
Proof.
  destruct (reduceColorsTopalette_nearest Samples.grey2x2 4 Samples.blackWhite [])
    as (data' & c' & Hrun & Hl & Hp & _).
  - discriminate.
  - apply blackWhite_bytes.
  - unfold Samples.grey2x2, isByte. repeat (apply Forall_cons_2; [lia|]). apply Forall_nil_2.
  - reflexivity.
  - exists data', c'. split; [exact Hrun|]. split; assumption.
Defined.



(** X10: at intensity 0 and resolution 1, on a buffer of bytes, each of
    the five dithering functions is plain quantization: every pixel gets
    the earliest nearest palette colour of its own colour, alpha is
    kept, and the buffer returned is the one [reduceColorsTopalette]
    returns. *)
Theorem zero_intensity_is_plain_quantization (fuel : nat)
    (entry : list Z -> nat -> nat -> Palette -> Q -> Q -> M (list Z))
    (data : list Z) (width height : nat) (palette : Palette)
    (intensity resolution : Q) (cache : Cache) :
  entry ∈ entryPoints (S fuel) ->
  palette <> [] -> paletteBytes palette ->
  Forall isByte data -> length data = 4 * (width * height) ->
  cacheCoherent palette cache ->
  (intensity == 0)%Q -> (1 <= resolution)%Q ->
  exists data' cache',
    entry data width height palette intensity resolution cache = Done data' cache'
    /\ (forall p, p < width * height ->
          nearestOf palette (rgbAt data p) (rgbAt data' p)
          /\ alphaAt data' p = alphaAt data p)
    /\ cacheCoherent palette cache'
    /\ (forall cache2, exists cache2',
          reduceColorsTopalette data palette cache2 = Done data' cache2').
Proof.
  intros Hentry Hne Hpal Hb Hlen Hco Hi Hres.
  destruct (entryPoints_kind _ entry Hentry) as (type & ->).
  rewrite applyDithering_ge_one by exact Hres.
  destruct (fullResolutionPass_exact palette Hne Hpal type data width height intensity cache
              Hi Hb Hlen Hco) as (data' & c' & Hrun & Hl & Hrgb & _ & Halpha & Hco').
  exists data', c'. split; [exact Hrun|].
  split; [intros p Hp; split; [apply Hrgb, Hp|apply Halpha]|].
  split; [exact Hco'|].
  intros cache2.
  destruct (reduceColorsTopalette_exact palette Hne Hpal data (width * height) cache2 Hb Hlen)
    as (data2 & c2 & Hrun2 & Hl2 & Hrgb2 & _ & Halpha2 & _).
  exists c2. rewrite Hrun2. f_equal.
  apply (pixels_ext data2 data' (width * height)); [lia|lia|].
  intros p Hp. split; [|rewrite Halpha2, Halpha; reflexivity].
  specialize (Hrgb p Hp). specialize (Hrgb2 p Hp). unfold nearestOf in *.
  eapply firstMinimum_unique; eassumption.
Qed.

Lemma zero_intensity_is_plain_quantization_witness :
  exists data' cache',
    applySierraDithering 1 Samples.grey2x2 2 2 Samples.blackWhite 0 1 []
      = Done data' cache'
    /\ (forall cache2, exists cache2',
          reduceColorsTopalette Samples.grey2x2 Samples.blackWhite cache2
            = Done data' cache2').
Proof.
  destruct (zero_intensity_is_plain_quantization 0 (applySierraDithering 1)
              Samples.grey2x2 2 2 Samples.blackWhite 0 1 [])
    as (data' & c' & Hrun & _ & _ & Hred).
  - unfold entryPoints. do 4 apply list_elem_of_further. apply list_elem_of_here.
  - discriminate.
  - apply blackWhite_bytes.
  - unfold Samples.grey2x2, isByte. repeat (apply Forall_cons_2; [lia|]). apply Forall_nil_2.
  - reflexivity.
  - apply cacheCoherent_nil.
  - reflexivity.
  - discriminate.
  - exists data', c'. split; assumption.
Defined.

(** ** What the scaled path does to an image *)

Section ScaledImage.

Lemma scaledSize_one (resolution : Q) : (resolution < 1)%Q -> scaledSize 1 resolution = 2.
Proof.
  intros H. unfold scaledSize, Math_floor.
  assert (Qfloor (ofNat 1 * resolution) < 1)%Z; [|lia].
  apply Qfloor_lt_Z. unfold ofNat. change (inject_Z (Z.of_nat 1)) with 1%Q.
  change (inject_Z 1) with 1%Q. lra.
Qed.

Lemma cellPixels_no_columns x0 y0 y1 : cellPixels x0 x0 y0 y1 = [].
Proof.
  unfold cellPixels. rewrite Nat.sub_diag. cbn [seq map].
  induction (seq y0 (y1 - y0)) as [|py l IH]; [reflexivity|exact IH].
Qed.

Lemma cellPixels_no_rows x0 x1 y0 : cellPixels x0 x1 y0 y0 = [].
Proof. unfold cellPixels. rewrite Nat.sub_diag. reflexivity. Qed.

End ScaledImage.



(** X12: below resolution 1 an image that is one pixel wide or one
    pixel high loses its content: the working buffer is 2 pixels in that
    direction, its first row or column averages no source pixel at all,
    and every output pixel is copied from there, so every alpha byte
    comes out 0. *)
Theorem thin_image_is_erased (fuel : nat)
    (entry : list Z -> nat -> nat -> Palette -> Q -> Q -> M (list Z))
    (data : list Z) (width height : nat) (palette : Palette)
    (intensity resolution : Q) (cache : Cache) :
  entry ∈ entryPoints (S (S fuel)) ->
  (resolution < 1)%Q ->
  width = 1 \/ height = 1 ->
  palette <> [] -> paletteBytes palette ->
  length data = 4 * (width * height) ->
  cacheWithin palette cache ->
  exists out cache',
    entry data width height palette intensity resolution cache = Done out cache'
    /\ forall p, p < width * height -> alphaAt out p = 0%Z.
Proof.
  intros Hentry Hlt Hthin Hne Hpal Hlen Hc.
  destruct (entryPoints_kind _ entry Hentry) as (type & ->).
  rewrite applyDithering_below_one by exact Hlt. cbv zeta.
  set (sw := scaledSize width resolution). set (sh := scaledSize height resolution).
  set (sx := (ofNat width / ofNat sw)%Q). set (sy := (ofNat height / ofNat sh)%Q).
  set (scaled := downscale data width sw sh sx sy).
  pose proof (scaledSize_ge width resolution) as Hsw. fold sw in Hsw.
  pose proof (scaledSize_ge height resolution) as Hsh. fold sh in Hsh.
  destruct (downscale_spec data width sw sh sx sy) as (Hsl & Hbox). fold scaled in Hsl, Hbox.
  destruct (fullResolutionPass_quantized palette Hne Hpal type scaled sw sh intensity cache)
    as (scaled' & c' & Hrun & _ & _ & Halpha & _); [lia|exact Hc|].
  unfold bind. rewrite Hrun.
  destruct (upscale_spec data scaled' width height sw sx sy) as (_ & Hov); [lia|].
  eexists _, c'. split; [reflexivity|].
  assert (Hsrc : forall qy qx, qy < sh -> qx < sw ->
            (floorMul qx sx = floorMul (qx + 1) sx \/ floorMul qy sy = floorMul (qy + 1) sy) ->
            rd scaled' ((qy * sw + qx) * 4 + 3) = 0%Z).
  { intros qy qx Hqy Hqx Hempty.
    replace ((qy * sw + qx) * 4 + 3) with (4 * (qy * sw + qx) + 3) by lia.
    fold (alphaAt scaled' (qy * sw + qx)). rewrite Halpha. unfold alphaAt.
    replace (4 * (qy * sw + qx) + 3) with ((qy * sw + qx) * 4 + 3) by lia.
    rewrite (Hbox qy qx 3 Hqy Hqx ltac:(lia)). unfold boxAverage.
    destruct Hempty as [<-|<-].
    - rewrite cellPixels_no_columns. reflexivity.
    - rewrite cellPixels_no_rows. reflexivity. }
  intros p Hp. unfold alphaAt.
  destruct Hthin as [Hw|Hh].
  - assert (Esw : sw = 2) by (subst sw; rewrite Hw; apply scaledSize_one, Hlt).
    assert (Hy : p < height) by lia.
    pose proof (Hov p 0 3 Hy ltac:(lia) ltac:(lia)) as E.
    replace ((p * width + 0) * 4 + 3) with (4 * p + 3) in E by lia.
    rewrite E.
    pose proof (floorDiv_lt p height sh Hy ltac:(lia)) as Hq. fold sy in Hq.
    assert (Ex : floorDiv 0 sx = 0) by (subst sx; rewrite Hw, Esw; reflexivity).
    rewrite Ex, Hsrc; [reflexivity|exact Hq|lia|].
    left. subst sx. rewrite Hw, Esw. reflexivity.
  - assert (Esh : sh = 2) by (subst sh; rewrite Hh; apply scaledSize_one, Hlt).
    assert (Hx : p < width) by lia.
    pose proof (Hov 0 p 3 ltac:(lia) Hx ltac:(lia)) as E.
    replace ((0 * width + p) * 4 + 3) with (4 * p + 3) in E by lia.
    rewrite E.
    pose proof (floorDiv_lt p width sw Hx ltac:(lia)) as Hq. fold sx in Hq.
    assert (Ey : floorDiv 0 sy = 0) by (subst sy; rewrite Hh, Esh; reflexivity).
    rewrite Ey, Hsrc; [reflexivity|lia|exact Hq|].
    right. subst sy. rewrite Hh, Esh. reflexivity.
Qed.

Lemma thin_image_is_erased_witness :
  exists out cache',
    applyBayerDithering 2 Samples.onePixel 1 1 Samples.blackWhite 1 (1 # 2) []
      = Done out cache'
    /\ forall p, p < 1 * 1 -> alphaAt out p = 0%Z.
Proof.
  apply (thin_image_is_erased 0 (applyBayerDithering 2) Samples.onePixel 1 1
           Samples.blackWhite 1 (1 # 2) []).
  - unfold entryPoints. apply list_elem_of_here.
  - reflexivity.
  - left. reflexivity.
  - discriminate.
  - apply blackWhite_bytes.
  - reflexivity.
  - apply cacheWithin_nil.
Defined.

(** ** The third row of the Jarvis-Judice-Ninke kernel *)

Section Related.

Context {A B I : Type}.

Lemma forM_related (R : A -> B -> Prop) (xs : list I)
    (body1 : A -> I -> M A) (body2 : B -> I -> M B) :
  (forall n i a b c, xs !! n = Some i -> R a b ->
     sameOutcome R (body1 a i c) (body2 b i c)) ->
  forall a b c, R a b -> sameOutcome R (forM xs body1 a c) (forM xs body2 b c).
Proof.
  induction xs as [|i xs IH]; intros Hbody a b c HR; cbn [forM].
  - unfold ret. cbn. auto.
  - unfold bind. specialize (Hbody 0 i a b c eq_refl HR) as H0.
    destruct (body1 a i c) as [a1 c1| |], (body2 b i c) as [b1 c2| |];
      cbn in H0 |- *; try contradiction; try exact H0.
    destruct H0 as [HR1 <-]. apply IH; [|exact HR1].
    intros n j a2 b2 c3 Hj. apply (Hbody (S n)). exact Hj.
Qed.

End Related.

Section Agreement.

Lemma rdQ_insert (eb : list Q) (i j : nat) (v : Q) :
  rdQ (<[i := v]> eb) j = if decide (i = j /\ i < length eb) then v else rdQ eb j.
Proof.
  unfold rdQ. destruct (decide (i = j /\ i < length eb)) as [[-> Hlt]|Hn].
  - rewrite list_lookup_insert_eq by exact Hlt. reflexivity.
  - destruct (decide (i = j)) as [->|Hne].
    + rewrite list_insert_ge by lia. reflexivity.
    + rewrite list_lookup_insert_ne by exact Hne. reflexivity.
Qed.

Lemma addAt_insert (eb : list Q) (i : nat) (v : Q) :
  addAt eb i v = <[i := (rdQ eb i + v)%Q]> eb.
Proof.
  unfold addAt, rdQ. destruct (eb !! i) as [e|] eqn:He; [reflexivity|].
  rewrite list_insert_ge; [reflexivity|]. apply lookup_ge_None_1, He.
Qed.

Variable S : nat -> Prop.

Lemma agreeOn_insert_both eb1 eb2 i v :
  agreeOn S eb1 eb2 -> agreeOn S (<[i := v]> eb1) (<[i := v]> eb2).
Proof.
  intros [Hl Hs]. split; [rewrite !length_insert; exact Hl|].
  intros j Hj. rewrite !rdQ_insert, <- Hl.
  destruct (decide (i = j /\ i < length eb1)); [reflexivity|apply Hs, Hj].
Qed.

Lemma agreeOn_addAt_both eb1 eb2 i v :
  agreeOn S eb1 eb2 -> agreeOn S (addAt eb1 i v) (addAt eb2 i v).
Proof.
  intros [Hl Hs]. rewrite !addAt_insert. split; [rewrite !length_insert; exact Hl|].
  intros j Hj. rewrite !rdQ_insert, <- Hl.
  destruct (decide (i = j /\ i < length eb1)) as [[-> _]|_]; [|apply Hs, Hj].
  rewrite (Hs j Hj). reflexivity.
Qed.

Lemma agreeOn_addAt_left eb1 eb2 i v :
  ~ S i -> agreeOn S eb1 eb2 -> agreeOn S (addAt eb1 i v) eb2.
Proof.
  intros Hi [Hl Hs]. rewrite addAt_insert. split; [rewrite length_insert; exact Hl|].
  intros j Hj. rewrite rdQ_insert.
  destruct (decide (i = j /\ i < length eb1)) as [[-> _]|_]; [contradiction|apply Hs, Hj].
Qed.

Lemma agreeOn_diffuse_both ts eR eG eB eb1 eb2 :
  agreeOn S eb1 eb2 -> agreeOn S (diffuse eb1 ts eR eG eB) (diffuse eb2 ts eR eG eB).
Proof.
  unfold diffuse. revert eb1 eb2. induction ts as [|[i w] ts IH]; intros eb1 eb2 H; [exact H|].
  cbn [fold_left]. apply IH. unfold applyTap. do 3 apply agreeOn_addAt_both. exact H.
Qed.

Lemma agreeOn_diffuse_left ts eR eG eB eb1 eb2 :
  Forall (fun t : nat * Z => ~ S t.1 /\ ~ S (t.1 + 1) /\ ~ S (t.1 + 2)) ts ->
  agreeOn S eb1 eb2 -> agreeOn S (diffuse eb1 ts eR eG eB) eb2.
Proof.
  unfold diffuse. revert eb1. induction ts as [|[i w] ts IH]; intros eb1 Hts H; [exact H|].
  apply Forall_cons in Hts as [(H0 & H1 & H2) Hts]. cbn [fst] in *.
  cbn [fold_left]. apply IH; [exact Hts|]. unfold applyTap.
  apply agreeOn_addAt_left; [exact H2|].
  apply agreeOn_addAt_left; [exact H1|].
  apply agreeOn_addAt_left; [exact H0|exact H].
Qed.

Lemma agreeOn_clearRow_both eb1 eb2 start len :
  agreeOn S eb1 eb2 -> agreeOn S (clearRow eb1 start len) (clearRow eb2 start len).
Proof.
  unfold clearRow. revert eb1 eb2.
  induction (seq start len) as [|i l IH]; intros eb1 eb2 H; [exact H|].
  cbn [fold_left]. apply IH, agreeOn_insert_both, H.
Qed.

End Agreement.

Section ThirdRow.

Lemma clearRow_length (eb : list Q) start len : length (clearRow eb start len) = length eb.
Proof.
  unfold clearRow. revert eb. induction (seq start len) as [|i l IH]; intros eb; [reflexivity|].
  cbn [fold_left]. rewrite IH. apply length_insert.
Qed.

Lemma clearRow_outside (eb : list Q) start len j :
  ~ (start <= j < start + len) -> rdQ (clearRow eb start len) j = rdQ eb j.
Proof.
  intros Hj. unfold clearRow.
  pose proof (fold_left_inv
                (fun n (b : list Q) => rdQ b j = rdQ eb j)
                (fun b i => <[i := 0%Q]> b) (seq start len) eb) as F.
  apply F; [reflexivity|].
  intros n i b Hi Hb. apply lookup_seq in Hi as [-> Hn].
  rewrite rdQ_insert. destruct (decide _) as [[E _]|_]; [lia|exact Hb].
Qed.

Lemma diffuse_length eb ts eR eG eB : length (diffuse eb ts eR eG eB) = length eb.
Proof.
  unfold diffuse. revert eb. induction ts as [|t ts IH]; intros eb; [reflexivity|].
  cbn [fold_left]. rewrite IH. apply applyTap_length.
Qed.

Lemma diffuse_app eb ts1 ts2 eR eG eB :
  diffuse eb (ts1 ++ ts2) eR eG eB = diffuse (diffuse eb ts1 eR eG eB) ts2 eR eG eB.
Proof. unfold diffuse. apply fold_left_app. Qed.

Lemma jjnTaps_split x y width height errIdx nextBufStart nextNextBufStart :
  jjnTaps x y width height errIdx nextBufStart nextNextBufStart =
  jjnTapsTwoRows x y width height errIdx nextBufStart nextNextBufStart
  ++ jjnTapsThirdRow x y width height nextNextBufStart.
Proof.
  unfold jjnTaps, jjnTapsTwoRows, jjnTapsThirdRow. rewrite <- !app_assoc. reflexivity.
Qed.

Variables width height : nat.
Variable palette : Palette.
Variable intensity : Q.

Let rowLen := (width + 6) * 3.

(** The state of the row loop in the two runs: same pixels, same
    current row, buffers of three rows that agree on the current row. *)
Let rowsRelated (st1 st2 : list Z * list Q * nat) : Prop :=
  st1.1.1 = st2.1.1 /\ st1.2 = st2.2 /\ st1.2 < 3
  /\ length st1.1.2 = rowLen * 3
  /\ agreeOn (inRow rowLen st1.2) st1.1.2 st2.1.2.

Lemma cleared_buffers_equal eb1 eb2 cur :
  cur < 3 -> length eb1 = rowLen * 3 ->
  agreeOn (inRow rowLen cur) eb1 eb2 ->
  clearRow (clearRow eb1 ((cur + 1) mod 3 * rowLen) rowLen) ((cur + 2) mod 3 * rowLen) rowLen
  = clearRow (clearRow eb2 ((cur + 1) mod 3 * rowLen) rowLen) ((cur + 2) mod 3 * rowLen) rowLen.
Proof.
  intros Hcur Hlen [Hl Hs]. apply list_eq. intros j.
  set (c1 := clearRow (clearRow eb1 _ _) _ _). set (c2 := clearRow (clearRow eb2 _ _) _ _).
  assert (L1 : length c1 = rowLen * 3) by (subst c1; rewrite !clearRow_length; exact Hlen).
  assert (L2 : length c2 = rowLen * 3) by (subst c2; rewrite !clearRow_length; lia).
  destruct (decide (j < rowLen * 3)) as [Hj|Hj];
    [|rewrite !lookup_ge_None_2 by lia; reflexivity].
  destruct (lookup_lt_is_Some_2 c1 j ltac:(lia)) as [a Ha].
  destruct (lookup_lt_is_Some_2 c2 j ltac:(lia)) as [b Hb].
  rewrite Ha, Hb. f_equal.
  assert (E : rdQ c1 j = rdQ c2 j); [|unfold rdQ in E; rewrite Ha, Hb in E; exact E].
  subst c1 c2.
  destruct (decide ((cur + 2) mod 3 * rowLen <= j < (cur + 2) mod 3 * rowLen + rowLen))
    as [Hnn|Hnn].
  { rewrite (clearRow_zero (clearRow eb1 _ _) _ _ j Hnn),
            (clearRow_zero (clearRow eb2 _ _) _ _ j Hnn). reflexivity. }
  rewrite (clearRow_outside (clearRow eb1 _ _) _ _ j Hnn),
          (clearRow_outside (clearRow eb2 _ _) _ _ j Hnn).
  destruct (decide ((cur + 1) mod 3 * rowLen <= j < (cur + 1) mod 3 * rowLen + rowLen))
    as [Hn|Hn].
  { rewrite (clearRow_zero eb1 _ _ j Hn), (clearRow_zero eb2 _ _ j Hn). reflexivity. }
  rewrite (clearRow_outside eb1 _ _ j Hn), (clearRow_outside eb2 _ _ j Hn).
  apply Hs. unfold inRow.
  destruct cur as [|[|[|cur]]]; [| | |lia];
    cbn [Nat.add Nat.modulo Nat.divmod fst snd Nat.sub] in Hn, Hnn |- *; lia.
Qed.

Lemma thirdRow_outside x y cur :
  x < width -> cur < 3 ->
  Forall (fun t : nat * Z =>
            ~ (inRow rowLen cur t.1 \/ inRow rowLen ((cur + 1) mod 3) t.1)
            /\ ~ (inRow rowLen cur (t.1 + 1) \/ inRow rowLen ((cur + 1) mod 3) (t.1 + 1))
            /\ ~ (inRow rowLen cur (t.1 + 2) \/ inRow rowLen ((cur + 1) mod 3) (t.1 + 2)))
    (jjnTapsThirdRow x y width height ((cur + 2) mod 3 * rowLen)).
Proof.
  intros Hx Hcur. unfold jjnTapsThirdRow.
  destruct cur as [|[|[|cur]]]; [| | |lia];
    cbn [Nat.add Nat.modulo Nat.divmod fst snd Nat.sub];
    taps_forall; cbn [fst]; unfold inRow, rowLen; lia.
Qed.

Lemma diffusionPixel_third_row y cur d e1 e2 x c :
  x < width -> cur < 3 ->
  agreeOn (fun j => inRow rowLen cur j \/ inRow rowLen ((cur + 1) mod 3) j) e1 e2 ->
  length e1 = rowLen * 3 ->
  sameOutcome
    (fun st1 st2 : list Z * list Q =>
       st1.1 = st2.1
       /\ agreeOn (fun j => inRow rowLen cur j \/ inRow rowLen ((cur + 1) mod 3) j) st1.2 st2.2
       /\ length st1.2 = rowLen * 3)
    (diffusionPixel jjnKernel width height palette intensity y (cur * rowLen)
       ((cur + 1) mod 3 * rowLen) ((cur + 2) mod 3 * rowLen) (d, e1) x c)
    (diffusionPixel jjnTwoRowKernel width height palette intensity y (cur * rowLen)
       ((cur + 1) mod 3 * rowLen) ((cur + 2) mod 3 * rowLen) (d, e2) x c).
Proof.
  intros Hx Hcur Hag Hlen. unfold diffusionPixel.
  cbn [origin divisor taps jjnKernel jjnTwoRowKernel].
  assert (Hread : forall o, o <= 2 ->
            rdQ e1 (cur * rowLen + (x + 3) * 3 + o) = rdQ e2 (cur * rowLen + (x + 3) * 3 + o)).
  { intros o Ho. apply (proj2 Hag). left. unfold inRow, rowLen. nia. }
  pose proof (Hread 0 ltac:(lia)) as H0. rewrite Nat.add_0_r in H0.
  rewrite H0, (Hread 1), (Hread 2) by lia.
  unfold bind.
  destruct (findNearestColor _ _ _ palette c) as [[[pr pg] pb] c'| |];
    cbn [sameOutcome ret fst snd]; auto.
  split; [|reflexivity]. split; [reflexivity|]. split.
  - rewrite jjnTaps_split, diffuse_app.
    apply (agreeOn_diffuse_left
             (fun j => inRow rowLen cur j \/ inRow rowLen ((cur + 1) mod 3) j));
      [apply thirdRow_outside; assumption|].
    apply agreeOn_diffuse_both, Hag.
  - rewrite diffuse_length. exact Hlen.
Qed.

Lemma diffusionRow_third_row st1 st2 y c :
  rowsRelated st1 st2 ->
  sameOutcome rowsRelated
    (diffusionRow jjnKernel width height palette intensity st1 y c)
    (diffusionRow jjnTwoRowKernel width height palette intensity st2 y c).
Proof.
  destruct st1 as [[d1 e1] cur1], st2 as [[d2 e2] cur2].
  intros (Hd & Hc & Hcur & Hlen & Hag). cbn [fst snd] in *. subst d2 cur2.
  unfold diffusionRow.
  cbn [padding nextRowOf nextNextRowOf clearsNextNext jjnKernel jjnTwoRowKernel].
  fold rowLen.
  rewrite (cleared_buffers_equal e1 e2 cur1 Hcur Hlen Hag).
  set (eb := clearRow (clearRow e2 _ _) _ _).
  assert (Hl : length eb = rowLen * 3).
  { subst eb. rewrite !clearRow_length. destruct Hag as [<- _]. exact Hlen. }
  pose proof (forM_related
                (fun st1 st2 : list Z * list Q =>
                   st1.1 = st2.1
                   /\ agreeOn (fun j => inRow rowLen cur1 j \/ inRow rowLen ((cur1 + 1) mod 3) j)
                        st1.2 st2.2
                   /\ length st1.2 = rowLen * 3)
                (seq 0 width)
                (diffusionPixel jjnKernel width height palette intensity y (cur1 * rowLen)
                   ((cur1 + 1) mod 3 * rowLen) ((cur1 + 2) mod 3 * rowLen))
                (diffusionPixel jjnTwoRowKernel width height palette intensity y
                   (cur1 * rowLen) ((cur1 + 1) mod 3 * rowLen) ((cur1 + 2) mod 3 * rowLen)))
    as F.
  unfold bind.
  specialize (F ltac:(
    intros n x [da ea] [db eb'] c0 Hx (Hda & Hagx & Hlx); cbn [fst snd] in *; subst db;
    apply lookup_seq in Hx as [-> Hn];
    apply diffusionPixel_third_row; assumption) (d1, eb) (d1, eb) c).
  specialize (F ltac:(split; [reflexivity|split; [split; [reflexivity|intros; reflexivity]|exact Hl]])).
  destruct (forM _ _ (d1, eb) c) as [[da ea] ca| |],
           (forM _ (diffusionPixel jjnTwoRowKernel _ _ _ _ _ _ _ _) (d1, eb) c)
             as [[db eb'] cb| |];
    cbn in F |- *; try contradiction; try exact I.
  destruct F as [(Hda & [Hla Hsa] & Hlx) <-]. cbn [fst snd] in *. subst db.
  split; [|reflexivity]. split; [reflexivity|]. split; [reflexivity|].
  split; [pose proof (Nat.mod_upper_bound (cur1 + 1) 3 ltac:(lia)); cbn [fst snd]; lia|].
  split; [exact Hlx|].
  split; [exact Hla|]. intros j Hj. apply Hsa. right. exact Hj.
Qed.

Lemma diffusionPass_third_row data c :
  diffusionPass jjnKernel data width height palette intensity c =
  diffusionPass jjnTwoRowKernel data width height palette intensity c.
Proof.
  unfold diffusionPass. cbn [padding rowsHeld jjnKernel jjnTwoRowKernel].
  set (eb := replicate ((width + 6) * 3 * 3) 0%Q).
  pose proof (forM_related rowsRelated (seq 0 height)
                (diffusionRow jjnKernel width height palette intensity)
                (diffusionRow jjnTwoRowKernel width height palette intensity)
                ltac:(intros n y st1 st2 c0 _ H; apply diffusionRow_third_row, H)
                (data, eb, 0) (data, eb, 0) c) as F.
  specialize (F ltac:(
    split; [reflexivity|split; [reflexivity|split; [cbn; lia|split;
      [subst eb; cbn [fst snd]; rewrite length_replicate; unfold rowLen; lia
      |split; [reflexivity|intros; reflexivity]]]]])).
  unfold bind.
  destruct (forM _ (diffusionRow jjnKernel _ _ _ _) (data, eb, 0) c) as [[[da ea] ka] ca| |],
           (forM _ (diffusionRow jjnTwoRowKernel _ _ _ _) (data, eb, 0) c)
             as [[[db eb'] kb] cb| |];
    cbn in F |- *; try contradiction; try reflexivity.
  destruct F as [(Hd & _) <-]. cbn [fst snd] in Hd. subst db. reflexivity.
Qed.

End ThirdRow.

(** X13: what [applyJJNDithering] writes two rows down never reaches a
    pixel.  Both future rows of its buffer are zeroed at the start of
    every scanline, so the row it filled as "next next" is wiped when it
    becomes "next": on every input the function returns exactly what it
    would return without the statements under [if (y < height - 2)],
    that is, with weights summing to 35 at most against the divisor
    48. *)
Theorem jjn_third_row_is_dead :
  (forall data width height palette intensity cache,
     fullResolutionPass jjn data width height palette intensity cache =
     diffusionPass jjnTwoRowKernel data width height palette intensity cache)
  /\ (forall fuel data width height palette intensity resolution cache,
        (1 <= resolution)%Q ->
        applyJJNDithering (S fuel) data width height palette intensity resolution cache =
        diffusionPass jjnTwoRowKernel data width height palette intensity cache)
  /\ (forall x y width height cur,
        (tapWeights (tapsAt jjnTwoRowKernel x y width height cur) <= 35)%Z).
Proof.
  split; [|split].
  - intros. apply diffusionPass_third_row.
  - intros fuel data width height palette intensity resolution cache Hres.
    unfold applyJJNDithering. rewrite applyDithering_ge_one by exact Hres.
    apply diffusionPass_third_row.
  - intros x y width height cur. unfold tapsAt, tapWeights.
    cbn [taps jjnTwoRowKernel]. unfold jjnTapsTwoRows. taps_weigh.
Qed.

(** ** The Bayer threshold *)

Section BayerThreshold.

Lemma land7_mod8 (x : nat) : Nat.land x 7 = x mod 8.
Proof. change 7 with (Nat.ones 3). rewrite Nat.land_ones. reflexivity. Qed.

Lemma matrixAt_range (my mx : nat) :
  my < 8 -> mx < 8 -> (0 <= matrixAt my mx <= 63)%Z.
Proof.
  intros Hy Hx.
  do 8 (destruct my as [|my]; [do 8 (destruct mx as [|mx]; [cbn; lia|]); lia|]). lia.
Qed.

Lemma bitor0_floor (q : Q) : (0 <= q)%Q -> bitor0 q = Qfloor q.
Proof.
  intros Hq. destruct q as [n d]. unfold bitor0, Qle in *. cbn in Hq |- *.
  apply Z.quot_div_nonneg; lia.
Qed.

Lemma clamp255_range (q : Q) : (0 <= clamp255 q <= 255)%Q.
Proof.
  unfold clamp255.
  destruct (Q.min_spec 255 q) as [[? Em]|[? Em]];
    destruct (Q.max_spec 0 (Qmin 255 q)) as [[? EM]|[? EM]]; lra.
Qed.

Lemma clamp255_near (q lo hi : Q) :
  (lo <= q <= hi)%Q -> (lo <= 255)%Q -> (0 <= hi)%Q ->
  (lo <= clamp255 q <= hi \/ (clamp255 q == 0 /\ q <= 0) \/ (clamp255 q == 255 /\ 255 <= q))%Q.
Proof.
  intros Hq Hlo Hhi. unfold clamp255.
  destruct (Q.min_spec 255 q) as [[? Em]|[? Em]];
    destruct (Q.max_spec 0 (Qmin 255 q)) as [[? EM]|[? EM]];
    rewrite ?EM, ?Em in *; try (left; lra); try (right; left; split; lra);
    try (right; right; split; lra).
Qed.

End BayerThreshold.

(** X14: the mask [x & 7] is [x mod 8], so the 8 x 8 matrix is always
    indexed in range and tiles the image: two positions that agree
    modulo 8 in both coordinates shift a channel in the same way; and
    for an intensity in [0, 1] the byte handed to the quantizer is
    within 128 of the stored byte. *)
Theorem bayer_threshold_tiles (intensity : Q) (width : nat) :
  (forall x, Nat.land x 7 = x mod 8)
  /\ (forall x y, (0 <= matrixAt (Nat.land y 7) (Nat.land x 7) <= 63)%Z)
  /\ (forall p p' v,
        (p mod width) mod 8 = (p' mod width) mod 8 ->
        (p / width) mod 8 = (p' / width) mod 8 ->
        bayerChannel intensity width p v = bayerChannel intensity width p' v)
  /\ (forall p v,
        (0 <= intensity <= 1)%Q -> isByte v ->
        isByte (bayerChannel intensity width p v)
        /\ (v - 128 <= bayerChannel intensity width p v <= v + 128)%Z).
Proof.
  assert (Hrange : forall x y, (0 <= matrixAt (Nat.land y 7) (Nat.land x 7) <= 63)%Z).
  { intros x y. rewrite !land7_mod8.
    apply matrixAt_range; apply Nat.mod_upper_bound; lia. }
  split; [exact land7_mod8|]. split; [exact Hrange|]. split.
  - intros p p' v Hx Hy. unfold bayerChannel. rewrite !land7_mod8, Hx, Hy. reflexivity.
  - intros p v Hi [Hv0 Hv255]. unfold bayerChannel.
    split; [apply storeByte_isByte|].
    specialize (Hrange (p mod width) (p / width)).
    set (m := matrixAt _ _) in *.
    set (dither := (inject_Z (m - 32) * (255 * intensity / 64))%Q).
    assert (Hm : (-32 <= inject_Z (m - 32) <= 31)%Q).
    { split.
      - change (-32)%Q with (inject_Z (-32)). rewrite <- Zle_Qle. lia.
      - change 31%Q with (inject_Z 31). rewrite <- Zle_Qle. lia. }
    assert (Hs : (0 <= 255 * intensity / 64 <= 255 # 64)%Q).
    { unfold Qdiv. change (/ 64)%Q with (1 # 64)%Q. lra. }
    assert (Hd : (-128 <= dither <= 124)%Q).
    { unfold dither. set (a := inject_Z (m - 32)) in *.
      set (s := (255 * intensity / 64)%Q) in *. nra. }
    assert (Hvq0 : (0 <= inject_Z v)%Q)
      by (change 0%Q with (inject_Z 0); rewrite <- Zle_Qle; exact Hv0).
    assert (Hvq255 : (inject_Z v <= 255)%Q)
      by (change 255%Q with (inject_Z 255); rewrite <- Zle_Qle; exact Hv255).
    pose proof (clamp255_range (inject_Z v + dither)) as Hc.
    pose proof (clamp255_near (inject_Z v + dither) (inject_Z v - 128) (inject_Z v + 124)
                  ltac:(lra) ltac:(lra) ltac:(lra)) as Hnear.
    set (c := clamp255 (inject_Z v + dither)) in *.
    rewrite bitor0_floor by lra.
    pose proof (Qfloor_le c) as Hf1. pose proof (Qlt_floor c) as Hf2.
    rewrite inject_Z_plus in Hf2. change (inject_Z 1) with 1%Q in Hf2.
    assert (Hfl : (inject_Z v - 129 < inject_Z (Qfloor c) <= inject_Z v + 124)%Q).
    { destruct Hnear as [?|[[? ?]|[? ?]]]; lra. }
    assert (Hz : (v - 129 < Qfloor c <= v + 124)%Z).
    { destruct Hfl as [Ha Hb]. split.
      - rewrite Zlt_Qlt. unfold Z.sub. rewrite inject_Z_plus, inject_Z_opp.
        change (inject_Z 129) with 129%Q. lra.
      - rewrite Zle_Qle. rewrite inject_Z_plus. change (inject_Z 124) with 124%Q. lra. }
    unfold storeByte. lia.
Qed.

(** ** Progress of a GIF export, for any frame count *)

Section GifProgress.

Lemma nonDecreasing_drop (l1 l2 : list Q) (a b : Q) :
  (b < a)%Q -> nonDecreasing (l1 ++ a :: b :: l2) = false.
Proof.
  intros Hlt. induction l1 as [|x l1 IH].
  - cbn [app nonDecreasing].
    destruct (Qle_bool a b) eqn:E; [|reflexivity].
    apply Qle_bool_iff in E. lra.
  - cbn [app]. destruct (l1 ++ a :: b :: l2) as [|y rest] eqn:El.
    + destruct l1; discriminate.
    + cbn [nonDecreasing]. cbn [nonDecreasing] in IH. rewrite IH. apply andb_false_r.
Qed.

End GifProgress.

(** X15: for any frame count [n >= 1] the reports of the GIF frame loop
    are [i / n], strictly increasing and within [0, 1); and every first
    encoder event [p < 1 - 2 / n] (from [n = 3] on this includes an
    encoder that starts at 0) is reported below the last report of the
    frame loop, so the sequence of reports decreases. *)
Theorem gif_progress_drops (n : nat) :
  1 <= n ->
  (forall i a, gifFrameReports n !! i = Some a ->
     (a == ofNat i / ofNat n)%Q /\ (0 <= a < 1)%Q)
  /\ (forall i j a b, i < j ->
        gifFrameReports n !! i = Some a -> gifFrameReports n !! j = Some b ->
        (a < b)%Q)
  /\ (forall p rest, (p < 1 - 2 / ofNat n)%Q ->
        nonDecreasing (gifFrameReports n ++ gifEncoderReports (p :: rest)) = false).
Proof.
  intros Hn. pose proof (ofNat_pos n ltac:(lia)) as Hpos.
  assert (Hdiv : forall i, (ofNat i / ofNat n * ofNat n == ofNat i)%Q)
    by (intros i; field; lra).
  assert (Hget : forall i a, gifFrameReports n !! i = Some a ->
            a = (ofNat i / ofNat n)%Q /\ i < n).
  { intros i a H. unfold gifFrameReports in H. rewrite list_lookup_fmap in H.
    destruct (seq 0 n !! i) as [k|] eqn:Hk; [|discriminate].
    apply lookup_seq in Hk as [-> Hi]. injection H as <-. auto. }
  split; [|split].
  - intros i a H. destruct (Hget i a H) as [-> Hi]. split; [reflexivity|].
    pose proof (Hdiv i) as E. pose proof (ofNat_lt i n Hi) as Hlt.
    assert (0 <= ofNat i)%Q.
    { unfold ofNat. change 0%Q with (inject_Z 0). rewrite <- Zle_Qle. lia. }
    set (q := (ofNat i / ofNat n)%Q) in *. split; nra.
  - intros i j a b Hij Ha Hb.
    destruct (Hget i a Ha) as [-> Hi]. destruct (Hget j b Hb) as [-> Hj].
    pose proof (Hdiv i) as Ei. pose proof (Hdiv j) as Ej.
    pose proof (ofNat_lt i j Hij) as Hlt.
    set (qi := (ofNat i / ofNat n)%Q) in *. set (qj := (ofNat j / ofNat n)%Q) in *. nra.
  - intros p rest Hp. unfold gifFrameReports.
    destruct n as [|m]; [lia|]. rewrite seq_S, map_app. cbn [plus map gifEncoderReports].
    rewrite <- app_assoc. cbn [app].
    apply nonDecreasing_drop.
    pose proof (Hdiv m) as Em. pose proof (Hdiv 2) as E2.
    assert (Es : (ofNat (S m) == ofNat m + 1)%Q).
    { unfold ofNat. rewrite Nat2Z.inj_succ. unfold Z.succ. rewrite inject_Z_plus. reflexivity. }
    change (ofNat 2) with 2%Q in E2.
    assert (E2' : (2 / ofNat (S m) * ofNat (S m) == 2)%Q) by (field; lra).
    set (q := (ofNat m / ofNat (S m))%Q) in *.
    set (t := (2 / ofNat (S m))%Q) in *.
    set (s := ofNat (S m)) in *.
    assert (H1 : (((1 # 2) + p * (1 # 2)) * s < (1 - t * (1 # 2)) * s)%Q) by nra.
    assert (H2 : ((1 - t * (1 # 2)) * s == q * s)%Q) by nra.
    nra.
Qed.

Lemma gif_progress_drops_witness :
  nonDecreasing (gifFrameReports 60 ++ gifEncoderReports [1 # 10]) = false.
Proof.
  apply (proj2 (proj2 (gif_progress_drops 60 ltac:(lia)))). reflexivity.
Defined.
